(** * url-composer: a shallow embedding of [src/index.js]

    The module builds URLs from dynamic path definitions.  Every function of
    the source is a composition of [String.prototype.replace],
    [String.prototype.match] and [RegExp.prototype.test] over eight regular
    expression constants.  The embedding follows the source function by
    function.

    - A JavaScript string is a list of code units.  The model spells the
      code units below 256 ([ascii]); a string that holds an unpaired
      surrogate, on which [encodeURIComponent] throws, is a value of its own
      ([VUnpaired]).
    - A call returns a value or throws: [Ok] or [Throw].
    - Each regular expression constant is embedded as an anchored matcher: a
      function that, given the text starting at the position under test,
      returns the length of the match beginning there.
    - The five constants carrying the [g] flag own a mutable [lastIndex];
      the module state is the record of these five numbers and every
      function that touches a global constant threads it. *)

From Stdlib Require Import Ascii String List Bool Arith ZArith Lia.
From Stdlib Require Import Numbers.DecimalString.
Import ListNotations.

Set Implicit Arguments.

(* ===================================================================== *)
(** ** Strings and character classes *)
(* ===================================================================== *)

Abbreviation str := (list ascii).

Coercion list_ascii_of_string : string >-> list.

Local Open Scope string_scope.
Local Open Scope list_scope.
Local Open Scope nat_scope.

Definition code (c : ascii) : nat := nat_of_ascii c.

Definition in_range (lo hi c : ascii) : bool :=
  (code lo <=? code c) && (code c <=? code hi).

Definition is_digit (c : ascii) : bool := in_range "0" "9" c.
Definition is_upper (c : ascii) : bool := in_range "A" "Z" c.
Definition is_lower (c : ascii) : bool := in_range "a" "z" c.

(** [\w] *)
Definition is_word (c : ascii) : bool :=
  is_upper c || is_lower c || is_digit c || Ascii.eqb c "_".

(** The line terminators [.] refuses (those below 256). *)
Definition is_line_terminator (c : ascii) : bool :=
  (code c =? 10) || (code c =? 13).

(** [\s] (the white space and line terminators below 256). *)
Definition is_space (c : ascii) : bool :=
  let n := code c in
  (n =? 9) || (n =? 10) || (n =? 11) || (n =? 12) || (n =? 13)
  || (n =? 32) || (n =? 160).

Fixpoint str_eqb (a b : str) : bool :=
  match a, b with
  | [], [] => true
  | x :: a', y :: b' => Ascii.eqb x y && str_eqb a' b'
  | _, _ => false
  end.

Lemma str_eqb_spec (a b : str) : str_eqb a b = true <-> a = b.
Proof.
  revert b; induction a as [|x a IH]; intros [|y b]; simpl; split;
    try congruence; try reflexivity.
  - rewrite andb_true_iff, Ascii.eqb_eq, IH. intros [-> ->]; reflexivity.
  - intros E; injection E as -> ->.
    rewrite Ascii.eqb_refl; simpl. apply IH; reflexivity.
Qed.

Lemma str_eqb_refl (a : str) : str_eqb a a = true.
Proof. apply str_eqb_spec; reflexivity. Qed.

(** [isPrefix p s]: [s] starts with [p]. *)
Fixpoint isPrefix (p s : str) : bool :=
  match p, s with
  | [], _ => true
  | x :: p', y :: s' => Ascii.eqb x y && isPrefix p' s'
  | _ :: _, [] => false
  end.

(** The longest prefix of word characters and what follows it. *)
Fixpoint span_word (s : str) : str * str :=
  match s with
  | c :: t =>
      if is_word c then let (w, r) := span_word t in (c :: w, r)
      else ([], s)
  | [] => ([], [])
  end.

(* ===================================================================== *)
(** ** The regular expression constants as anchored matchers *)
(* ===================================================================== *)

(** A matcher answers, for the text at the position under test, the length
    of the match that starts there ([None]: no match at this position).
    None of the constants below looks behind the position, and none matches
    the empty string. *)
Definition matcher := str -> option nat.

(** [PARENTHESES = /[\(\)]/g] *)
Definition m_PARENTHESES : matcher := fun s =>
  match s with
  | c :: _ => if Ascii.eqb c "(" || Ascii.eqb c ")" then Some 1 else None
  | [] => None
  end.

(** Length of the shortest run [.*?] that is followed by [")"]. *)
Fixpoint lazy_until_close (s : str) : option nat :=
  match s with
  | [] => None
  | c :: t =>
      if Ascii.eqb c ")" then Some 0
      else if is_line_terminator c then None
      else option_map S (lazy_until_close t)
  end.

(** [OPTIONAL_PARAMS = /\((.*?)\)/g] *)
Definition m_OPTIONAL_PARAMS : matcher := fun s =>
  match s with
  | c :: t =>
      if Ascii.eqb c "(" then option_map (fun n => n + 2) (lazy_until_close t)
      else None
  | [] => None
  end.

(** [SPLAT_PARAMS = /\*\w+/g] *)
Definition m_SPLAT_PARAMS : matcher := fun s =>
  match s with
  | c :: t =>
      if Ascii.eqb c "*" then
        match fst (span_word t) with
        | [] => None
        | w => Some (1 + length w)
        end
      else None
  | [] => None
  end.

(** [:\w+], the part of [NAMED_PARAM] after the optional group. *)
Definition m_colon_word : matcher := fun s =>
  match s with
  | c :: t =>
      if Ascii.eqb c ":" then
        match fst (span_word t) with
        | [] => None
        | w => Some (1 + length w)
        end
      else None
  | [] => None
  end.

(** [NAMED_PARAM = /(\(\?)?:\w+/] and [NAMED_PARAMS], the same with [g].
    The optional group is tried first; when the rest fails after it the
    engine backtracks to the empty alternative. *)
Definition m_NAMED_PARAM : matcher := fun s =>
  match (if isPrefix "(?" s then option_map (fun n => n + 2) (m_colon_word (skipn 2 s))
         else None) with
  | Some n => Some n
  | None => m_colon_word s
  end.

(** [ESCAPE = /[\-{}\[\]+?.,\\\^$|#\s]/g] *)
Definition is_escape (c : ascii) : bool :=
  existsb (Ascii.eqb c) ("-{}[]+?.,\^$|#" : str) || is_space c.

Definition m_ESCAPE : matcher := fun s =>
  match s with
  | c :: _ => if is_escape c then Some 1 else None
  | [] => None
  end.

(** [TRAILING_SLASH = /\/$/]: a slash with nothing after it. *)
Definition m_TRAILING_SLASH : matcher := fun s =>
  match s with
  | [c] => if Ascii.eqb c "/" then Some 1 else None
  | _ => None
  end.

(** A string used as the pattern of [String.prototype.replace]. *)
Definition m_literal (p : str) : matcher := fun s =>
  if isPrefix p s then Some (length p) else None.

(* ===================================================================== *)
(** ** [replace], [match] and [test] over a matcher *)
(* ===================================================================== *)

(** [replace] with a regular expression carrying [g]: every match, scanning
    left to right and resuming after each match, is replaced by [f] of the
    matched text.  [skip] counts the characters of the current match still
    to be passed over. *)
Fixpoint replace_from (m : matcher) (f : str -> str) (skip : nat) (s : str) : str :=
  match s with
  | [] => []
  | c :: t =>
      match skip with
      | S k => replace_from m f k t
      | 0 =>
          match m s with
          | Some (S n) => f (firstn (S n) s) ++ replace_from m f n t
          | _ => c :: replace_from m f 0 t
          end
      end
  end.

Definition replace_all (m : matcher) (f : str -> str) (s : str) : str :=
  replace_from m f 0 s.

(** The matched texts [match] collects for a regular expression with [g]. *)
Fixpoint matches_from (m : matcher) (skip : nat) (s : str) : list str :=
  match s with
  | [] => []
  | c :: t =>
      match skip with
      | S k => matches_from m k t
      | 0 =>
          match m s with
          | Some (S n) => firstn (S n) s :: matches_from m n t
          | _ => matches_from m 0 t
          end
      end
  end.

Definition match_all (m : matcher) (s : str) : list str := matches_from m 0 s.

(** [replace] without [g] (or with a string pattern): the first match only.
    The replacement text is inserted as it is. *)
Fixpoint replace_first (m : matcher) (r : str) (s : str) : str :=
  match s with
  | [] => match m [] with Some _ => r | None => [] end
  | c :: t =>
      match m s with
      | Some n => r ++ skipn n s
      | None => c :: replace_first m r t
      end
  end.

(** Offset and length of the first match at or after the head of [s]. *)
Fixpoint search (m : matcher) (s : str) : option (nat * nat) :=
  match s with
  | [] => match m [] with Some n => Some (0, n) | None => None end
  | c :: t =>
      match m s with
      | Some n => Some (0, n)
      | None =>
          match search m t with
          | Some (i, n) => Some (S i, n)
          | None => None
          end
      end
  end.

(** [test] without [g]: is there a match anywhere. *)
Definition has_match (m : matcher) (s : str) : bool :=
  match search m s with Some _ => true | None => false end.

(** [indexOf(p) !== -1] *)
Definition contains (p s : str) : bool := has_match (m_literal p) s.

(* ===================================================================== *)
(** ** The module state: [lastIndex] of the constants carrying [g] *)
(* ===================================================================== *)

Inductive global_regexp : Type :=
  | PARENTHESES | OPTIONAL_PARAMS | SPLAT_PARAMS | NAMED_PARAMS | ESCAPE.

Definition matcher_of (g : global_regexp) : matcher :=
  match g with
  | PARENTHESES => m_PARENTHESES
  | OPTIONAL_PARAMS => m_OPTIONAL_PARAMS
  | SPLAT_PARAMS => m_SPLAT_PARAMS
  | NAMED_PARAMS => m_NAMED_PARAM
  | ESCAPE => m_ESCAPE
  end.

Record regexps : Type := mkRegexps {
  li_PARENTHESES : nat;
  li_OPTIONAL_PARAMS : nat;
  li_SPLAT_PARAMS : nat;
  li_NAMED_PARAMS : nat;
  li_ESCAPE : nat
}.

(** The state right after the module is loaded. *)
Definition fresh : regexps := mkRegexps 0 0 0 0 0.

Definition lastIndex (g : global_regexp) (st : regexps) : nat :=
  match g with
  | PARENTHESES => li_PARENTHESES st
  | OPTIONAL_PARAMS => li_OPTIONAL_PARAMS st
  | SPLAT_PARAMS => li_SPLAT_PARAMS st
  | NAMED_PARAMS => li_NAMED_PARAMS st
  | ESCAPE => li_ESCAPE st
  end.

Definition set_lastIndex (g : global_regexp) (n : nat) (st : regexps) : regexps :=
  match g with
  | PARENTHESES =>
      mkRegexps n (li_OPTIONAL_PARAMS st) (li_SPLAT_PARAMS st) (li_NAMED_PARAMS st) (li_ESCAPE st)
  | OPTIONAL_PARAMS =>
      mkRegexps (li_PARENTHESES st) n (li_SPLAT_PARAMS st) (li_NAMED_PARAMS st) (li_ESCAPE st)
  | SPLAT_PARAMS =>
      mkRegexps (li_PARENTHESES st) (li_OPTIONAL_PARAMS st) n (li_NAMED_PARAMS st) (li_ESCAPE st)
  | NAMED_PARAMS =>
      mkRegexps (li_PARENTHESES st) (li_OPTIONAL_PARAMS st) (li_SPLAT_PARAMS st) n (li_ESCAPE st)
  | ESCAPE =>
      mkRegexps (li_PARENTHESES st) (li_OPTIONAL_PARAMS st) (li_SPLAT_PARAMS st) (li_NAMED_PARAMS st) n
  end.

(** Computations over the module state. *)
Definition M (A : Type) : Type := regexps -> A * regexps.

Definition ret {A} (a : A) : M A := fun st => (a, st).

Definition bind {A B} (c : M A) (k : A -> M B) : M B :=
  fun st => let (a, st') := c st in k a st'.

Declare Scope js_scope.
Delimit Scope js_scope with js.
Notation "x <- c ;; k" := (bind c (fun x => k))
  (at level 61, c at next level, right associativity) : js_scope.
Local Open Scope js_scope.

(** [s.replace(g, f)]: [lastIndex] is set to 0 before the scan and is 0
    again after the failing search that ends it. *)
Definition re_replace (g : global_regexp) (f : str -> str) (s : str) : M str :=
  fun st => (replace_all (matcher_of g) f s, set_lastIndex g 0 st).

(** [s.match(g)]: [None] is [null]. *)
Definition re_match (g : global_regexp) (s : str) : M (option (list str)) :=
  fun st =>
    (match match_all (matcher_of g) s with [] => None | l => Some l end,
     set_lastIndex g 0 st).

(** [g.test(s)]: the search starts at [lastIndex]; a match moves
    [lastIndex] to its end, a failure resets it to 0. *)
Definition re_test (g : global_regexp) (s : str) : M bool :=
  fun st =>
    let i := lastIndex g st in
    if length s <? i then (false, set_lastIndex g 0 st)
    else
      match search (matcher_of g) (skipn i s) with
      | Some (k, n) => (true, set_lastIndex g (i + k + n) st)
      | None => (false, set_lastIndex g 0 st)
      end.

Fixpoint fold_M {A B} (f : A -> B -> M A) (l : list B) (a : A) : M A :=
  match l with
  | [] => ret a
  | b :: l' => a' <- f a b ;; fold_M f l' a'
  end.

(** What a call throws. *)
Inductive exn : Type := TypeError | URIError | SyntaxError.

(** The outcome of a call: the value returned, or the exception thrown. *)
Inductive result (A : Type) : Type :=
  | Ok (a : A)
  | Throw (e : exn).

Arguments Ok {A} a.
Arguments Throw {A} e.

(** The rest of the computation runs only if the first part returns. *)
Definition bind_ok {A B} (c : M (result A)) (k : A -> M (result B)) : M (result B) :=
  fun st =>
    match c st with
    | (Ok a, st') => k a st'
    | (Throw e, st') => (Throw e, st')
    end.

Notation "x <-? c ;; k" := (bind_ok c (fun x => k))
  (at level 61, c at next level, right associativity) : js_scope.

(** [forEach] with a callback that may throw. *)
Fixpoint fold_ok {A B} (f : A -> B -> M (result A)) (l : list B) (a : A)
  : M (result A) :=
  match l with
  | [] => ret (Ok a)
  | b :: l' => a' <-? f a b ;; fold_ok f l' a'
  end.

(* ===================================================================== *)
(** ** Values, argument sets and [encodeURIComponent] *)
(* ===================================================================== *)

(** The values a caller passes as arguments.  A number stands for a safe
    integer.  [VUnpaired] stands for any string that holds an unpaired
    surrogate: the code units of the model cannot spell it, and its text
    never reaches a path, because [encodeURIComponent] throws on it. *)
Inductive value : Type :=
  | VUndefined
  | VNull
  | VBool (b : bool)
  | VNumber (n : Z)
  | VString (s : str)
  | VUnpaired.

(** A plain object used as a map: its own enumerable properties in
    enumeration order.  The members it inherits from [Object.prototype]
    are not part of it: see [inherited_names] below. *)
Definition object : Type := list (str * value).

Fixpoint own (o : object) (k : str) : option value :=
  match o with
  | [] => None
  | (k', v) :: o' => if str_eqb k' k then Some v else own o' k
  end.

(** [o[k]] for a key [k] whose lookup stays within the own properties of
    [o]: an own property answers its value, a key that is neither an own
    property nor one of [inherited_names] answers [undefined]. *)
Definition get (o : object) (k : str) : value :=
  match own o k with Some v => v | None => VUndefined end.

(** The names of the members every object inherits from
    [Object.prototype].  A lookup under one of them that finds no own
    property answers the inherited member, and an assignment to
    [__proto__] creates no own property: [get] and [set] leave both out,
    so the properties that read a value back under a name keep to the
    lookups [looked_up] admits. *)
Definition inherited_names : list str :=
  [("constructor" : str); ("hasOwnProperty" : str); ("isPrototypeOf" : str);
   ("propertyIsEnumerable" : str); ("toLocaleString" : str); ("toString" : str);
   ("valueOf" : str); ("__proto__" : str); ("__defineGetter__" : str);
   ("__defineSetter__" : str); ("__lookupGetter__" : str); ("__lookupSetter__" : str)].

(** The lookup of [k] in [o] stays within the own properties of [o]. *)
Definition looked_up (o : object) (k : str) : Prop :=
  own o k <> None \/ ~ In k inherited_names.

(** [o[k] = v] *)
Fixpoint set (o : object) (k : str) (v : value) : object :=
  match o with
  | [] => [(k, v)]
  | (k', v') :: o' => if str_eqb k' k then (k', v) :: o' else (k', v') :: set o' k v
  end.

(** The [args] of [parse] and [stats]: absent, an array, or an object. *)
Inductive arguments : Type :=
  | NoArgs
  | ArrayArgs (l : list value)
  | ObjectArgs (o : object).

(** [ToString], [None] where the model cannot spell the text. *)
Definition ToString (v : value) : option str :=
  match v with
  | VUndefined => Some ("undefined" : str)
  | VNull => Some ("null" : str)
  | VBool true => Some ("true" : str)
  | VBool false => Some ("false" : str)
  | VNumber n => Some (list_ascii_of_string (NilZero.string_of_int (Z.to_int n)))
  | VString s => Some s
  | VUnpaired => None
  end.

(** [ToBoolean] *)
Definition truthy (v : value) : bool :=
  match v with
  | VUndefined | VNull => false
  | VBool b => b
  | VNumber n => negb (Z.eqb n 0)
  | VString s => match s with [] => false | _ => true end
  | VUnpaired => true
  end.

(** [v > 0].  Of the numeric strings only runs of decimal digits are read;
    [isEmpty_object] shows that the answer of [isEmpty] does not depend on
    how a string compares. *)
Definition gt_zero (v : value) : bool :=
  match v with
  | VNumber n => Z.ltb 0 n
  | VBool b => b
  | VString s => forallb is_digit s && existsb (fun c => negb (Ascii.eqb c "0")) s
  | _ => false
  end.

(** [v === 0] *)
Definition is_zero (v : value) : bool :=
  match v with VNumber n => Z.eqb n 0 | _ => false end.

(** [v === ''] *)
Definition is_empty_string (v : value) : bool :=
  match v with VString [] => true | _ => false end.

(** The characters [encodeURIComponent] leaves as they are. *)
Definition is_unreserved (c : ascii) : bool :=
  is_upper c || is_lower c || is_digit c || existsb (Ascii.eqb c) ("-_.!~*'()" : str).

Definition hex_digit (n : nat) : ascii := nth n ("0123456789ABCDEF" : str) "0"%char.

Definition percent (b : nat) : str := ["%"%char; hex_digit (b / 16); hex_digit (b mod 16)].

(** A code unit below 128 is one UTF-8 byte, one from 128 to 255 is two. *)
Definition encode_unit (c : ascii) : str :=
  if is_unreserved c then [c]
  else
    let n := code c in
    if n <? 128 then percent n
    else percent (192 + n / 64) ++ percent (128 + n mod 64).

Definition encode (s : str) : str := flat_map encode_unit s.

(** A [URIError] on an unpaired surrogate. *)
Definition encodeURIComponent (v : value) : result str :=
  match ToString v with
  | Some s => Ok (encode s)
  | None => Throw URIError
  end.

(* ===================================================================== *)
(** ** Helper functions *)
(* ===================================================================== *)

Definition isArray (a : arguments) : bool :=
  match a with ArrayArgs _ => true | _ => false end.

Definition isEmpty (a : arguments) : bool :=
  match a with
  | NoArgs => true
  | ArrayArgs l =>
      if 0 <? length l then false
      else if length l =? 0 then true
      else true (* not reached: a length is 0 or more *)
  | ObjectArgs o =>
      if gt_zero (get o "length") then false
      else if is_zero (get o "length") then true
      else
        (* typeof obj is 'object': the for..in loop *)
        match o with
        | _ :: _ => false
        | [] => true
        end
  end.

(* ===================================================================== *)
(** ** Path parsing functions *)
(* ===================================================================== *)

Definition removeOptionalParams (path : str) : M str :=
  re_replace OPTIONAL_PARAMS (fun _ => []) path.

Definition removeTrailingSlash (path : str) : str :=
  replace_first m_TRAILING_SLASH [] path.

(** [LEADING_SLASH = /^\//] only matches at the first position. *)
Definition removeLeadingSlash (path : str) : str :=
  match m_literal "/" path with
  | Some n => skipn n path
  | None => path
  end.

Definition removeParentheses (path : str) : M str :=
  re_replace PARENTHESES (fun _ => []) path.

Definition isNamedOrSplatParam (param : str) : M bool :=
  if has_match m_NAMED_PARAM param then ret true
  else re_test SPLAT_PARAMS param.

(** The encoded argument holds no [$] ([encoded_no_dollar]), so as a
    replacement text it stands for itself. *)
Definition replaceArg (path : str) (arg : value) : M (result str) :=
  let hasNamedParam := contains ":" path in
  match encodeURIComponent arg with
  | Throw e => ret (Throw e)
  | Ok arg =>
      if hasNamedParam then ret (Ok (replace_first m_NAMED_PARAM arg path))
      else p <- re_replace SPLAT_PARAMS (fun _ => arg) path ;; ret (Ok p)
  end.

(** The [TypeError] is that of [paramNames.map] when [paramNames] is
    [null]. *)
Definition replaceArgs (path : str) (args : arguments) : M (result str) :=
  args <- match args with
          | NoArgs => ret (Some [])
          | ArrayArgs l => ret (Some l)
          | ObjectArgs o =>
              paramNames <- re_match NAMED_PARAMS path ;;
              ret (option_map (map (fun name => get o (tl name))) paramNames)
          end ;;
  match args with
  | None => ret (Throw TypeError)
  | Some args =>
      path <-? fold_ok replaceArg args path ;;
      matches <- re_match OPTIONAL_PARAMS path ;;
      match matches with
      | Some matches =>
          path <- fold_M (fun path part =>
                    b <- isNamedOrSplatParam part ;;
                    if b then ret (replace_first (m_literal part) [] path)
                    else ret path) matches path ;;
          ret (Ok path)
      | None => ret (Ok path)
      end
  end.

Definition parse (path : option str) (args : arguments) : M (result str) :=
  let path := match path with Some p => p | None => [] end in
  let args := match args with NoArgs => ArrayArgs [] | a => a end in
  if isEmpty args then
    p <- removeOptionalParams path ;; ret (Ok p)
  else
    path <-? replaceArgs path args ;;
    p <- removeParentheses path ;;
    ret (Ok (removeTrailingSlash p)).

(** [host], [path] and [query] are strings at the only call site; [hash] is
    whatever the caller gave. *)
Definition smartConcat (host path query : str) (hash : option str) : str :=
  let host := removeTrailingSlash host in
  let path := removeTrailingSlash (removeLeadingSlash path) in
  let path := match path with [] => [] | _ => "/"%char :: path end in
  let query := match query with [] => [] | _ => "?"%char :: query end in
  let hash := match hash with
              | Some (c :: h) => "#"%char :: c :: h
              | _ => []
              end in
  host ++ path ++ query ++ hash.

Inductive field : Type := field_optional | field_required | field_name.

Record descriptor : Type := mkDescriptor {
  name : str;
  value_of : value;
  optional : bool;
  required : bool
}.

Definition field_truthy (p : descriptor) (f : field) : bool :=
  match f with
  | field_optional => optional p
  | field_required => required p
  | field_name => truthy (VString (name p))
  end.

Definition testParameter (params : list descriptor) (f : field) : list descriptor :=
  filter (fun p => field_truthy p f && is_empty_string (value_of p)) params.

(* ===================================================================== *)
(** ** Public API functions *)
(* ===================================================================== *)

Record matched : Type := mkMatched { named : list str; splat : list str }.

Definition or_empty (l : option (list str)) : list str :=
  match l with Some l => l | None => [] end.

Definition getParamsMatch (path : str) : M matched :=
  n <- re_match NAMED_PARAMS path ;;
  s <- re_match SPLAT_PARAMS path ;;
  ret (mkMatched (or_empty n) (or_empty s)).

(** [$1] of a match of [OPTIONAL_PARAMS]: the text between the parentheses. *)
Definition group1 (m : str) : str := removelast (tl m).

(** The source text handed to [new RegExp]. *)
Definition routeToRegex (route : str) : M str :=
  r <- re_replace ESCAPE (fun m => "\" ++ m) route ;;
  r <- re_replace OPTIONAL_PARAMS (fun m => "(?:" ++ group1 m ++ ")?") r ;;
  r <- re_replace NAMED_PARAMS (fun m => if isPrefix "(?" m then m else "([^/?]+)") r ;;
  r <- re_replace SPLAT_PARAMS (fun _ => "([^?]*?)") r ;;
  ret ("^" ++ r ++ "(?:\?([\s\S]*))?$").

(** The options of [build], [path], [query]: every field may be missing. *)
Record options : Type := mkOptions {
  opt_host : option str;
  opt_path : option str;
  opt_params : arguments;
  opt_query : option object;
  opt_hash : option str
}.

(** [{}] *)
Definition no_options : options := mkOptions None None NoArgs None None.

Definition buildPath (o : options) : M (result str) :=
  parse (opt_path o) (opt_params o).

Fixpoint join (sep : str) (l : list str) : str :=
  match l with
  | [] => []
  | [x] => x
  | x :: l' => x ++ sep ++ join sep l'
  end.

(** The loop of [buildQuery]: one [key=value] per property, until a value
    cannot be encoded. *)
Fixpoint query_pairs (q : object) : result (list str) :=
  match q with
  | [] => Ok []
  | (key, param) :: q' =>
      match encodeURIComponent param with
      | Throw e => Throw e
      | Ok v =>
          match query_pairs q' with
          | Ok l => Ok ((key ++ "=" ++ v) :: l)
          | Throw e => Throw e
          end
      end
  end.

Definition buildQuery (o : options) : result str :=
  match query_pairs (match opt_query o with Some q => q | None => [] end) with
  | Throw e => Throw e
  | Ok query => Ok (match query with [] => [] | _ => join "&" query end)
  end.

Definition build (o : options) : M (result str) :=
  let host := match opt_host o with Some h => h | None => [] end in
  path <-? buildPath o ;;
  match buildQuery o with
  | Throw e => ret (Throw e)
  | Ok query => ret (Ok (smartConcat host path query (opt_hash o)))
  end.

Definition paramsArray2Object (path : str) (args : list value) : M object :=
  params <- getParamsMatch path ;;
  let parse := fun (acc : object * nat) (name : str) =>
    let (result, i) := acc in (set result (tl name) (nth i args VUndefined), S i) in
  let acc := fold_left parse (named params) ([], 0) in
  let acc := fold_left parse (splat params) acc in
  ret (fst acc).

Record report : Type := mkReport {
  params : list descriptor;
  hasOptionalParams : bool;
  missingOptionalParams : list descriptor;
  missingRequiredParams : list descriptor;
  missingParams : list descriptor
}.

Definition describe (optional : list str) (args : object) (param : str) : descriptor :=
  let isOptional := existsb (fun p => contains param p) optional in
  let v := get args (tl param) in
  mkDescriptor param (if truthy v then v else VString []) isOptional (negb isOptional).

Definition stats (path : str) (args : arguments) : M report :=
  optional <- re_match OPTIONAL_PARAMS path ;;
  m <- getParamsMatch path ;;
  let params := named m ++ splat m in
  args <- match args with
          | NoArgs => ret []
          | ArrayArgs l => paramsArray2Object path l
          | ObjectArgs o => ret o
          end ;;
  let params := map (describe (or_empty optional) args) params in
  h <- re_test OPTIONAL_PARAMS path ;;
  ret (mkReport params h
         (testParameter params field_optional)
         (testParameter params field_required)
         (testParameter params field_name)).

(* ===================================================================== *)
(** ** [new RegExp(source)] and its [test] *)
(* ===================================================================== *)

(** The regular expressions [routeToRegex] can produce: characters, [.],
    character classes, the two anchors, groups, alternatives and the
    quantifiers [*], [+], [?] (greedy or lazy: [test] only asks whether a
    match exists, which both answer alike). *)
Inductive class_item : Type :=
  | CChar (c : ascii)
  | CSpace (positive : bool)
  | CWord (positive : bool)
  | CDigit (positive : bool).

Inductive regexp : Type :=
  | REmpty
  | RChar (c : ascii)
  | RAny
  | RClass (negated : bool) (items : list class_item)
  | RBegin
  | REnd
  | RSeq (a b : regexp)
  | RAlt (a b : regexp)
  | ROpt (a : regexp)
  | RStar (a : regexp).

Definition item_matches (i : class_item) (c : ascii) : bool :=
  match i with
  | CChar x => Ascii.eqb x c
  | CSpace b => Bool.eqb b (is_space c)
  | CWord b => Bool.eqb b (is_word c)
  | CDigit b => Bool.eqb b (is_digit c)
  end.

(** The atom a backslash introduces; [None] for the escapes left out. *)
Definition escape_item (c : ascii) : option class_item :=
  if Ascii.eqb c "s" then Some (CSpace true)
  else if Ascii.eqb c "S" then Some (CSpace false)
  else if Ascii.eqb c "w" then Some (CWord true)
  else if Ascii.eqb c "W" then Some (CWord false)
  else if Ascii.eqb c "d" then Some (CDigit true)
  else if Ascii.eqb c "D" then Some (CDigit false)
  else if is_word c then None
  else Some (CChar c).

(** The items of a class up to its closing bracket. *)
Fixpoint class_items (s : str) : option (list class_item * str) :=
  match s with
  | [] => None
  | c :: t =>
      if Ascii.eqb c "]" then Some ([], t)
      else if Ascii.eqb c "-" then None
      else if Ascii.eqb c "\" then
        match t with
        | e :: t' =>
            match escape_item e, class_items t' with
            | Some i, Some (l, r) => Some (i :: l, r)
            | _, _ => None
            end
        | [] => None
        end
      else
        match class_items t with
        | Some (l, r) => Some (CChar c :: l, r)
        | None => None
        end
  end.

Definition class_of (s : str) : option (regexp * str) :=
  match s with
  | c :: t =>
      if Ascii.eqb c "^" then
        option_map (fun p => (RClass true (fst p), snd p)) (class_items t)
      else option_map (fun p => (RClass false (fst p), snd p)) (class_items s)
  | [] => None
  end.

Definition lazy_mark (s : str) : str :=
  match s with
  | c :: t => if Ascii.eqb c "?" then t else s
  | [] => s
  end.

(** An atom followed by its quantifier, if any. *)
Definition quantified (r : regexp) (s : str) : regexp * str :=
  match s with
  | c :: t =>
      if Ascii.eqb c "*" then (RStar r, lazy_mark t)
      else if Ascii.eqb c "+" then (RSeq r (RStar r), lazy_mark t)
      else if Ascii.eqb c "?" then (ROpt r, lazy_mark t)
      else (r, s)
  | [] => (r, s)
  end.

Definition close_alternative (alt : option regexp) (seq : regexp) : regexp :=
  match alt with Some a => RAlt a seq | None => seq end.

(** Reads a disjunction up to the end of the text or to a closing
    parenthesis, which is left in place.  [None] is a [SyntaxError] (or a
    construct outside the grammar above). *)
Fixpoint compile_from (fuel : nat) (s : str) (alt : option regexp) (seq : regexp)
  : option (regexp * str) :=
  match fuel with
  | 0 => None
  | S fuel =>
      let continue (p : regexp * str) :=
        compile_from fuel (snd p) alt (RSeq seq (fst p)) in
      match s with
      | [] => Some (close_alternative alt seq, [])
      | c :: t =>
          if Ascii.eqb c ")" then Some (close_alternative alt seq, s)
          else if Ascii.eqb c "|" then
            compile_from fuel t (Some (close_alternative alt seq)) REmpty
          else if Ascii.eqb c "^" then continue (RBegin, t)
          else if Ascii.eqb c "$" then continue (REnd, t)
          else if Ascii.eqb c "." then continue (quantified RAny t)
          else if Ascii.eqb c "(" then
            let body :=
              if isPrefix "?:" t then Some (skipn 2 t)
              else if isPrefix "?" t then None
              else Some t in
            match body with
            | None => None
            | Some b =>
                match compile_from fuel b None REmpty with
                | Some (r, d :: t') =>
                    if Ascii.eqb d ")" then continue (quantified r t') else None
                | _ => None
                end
            end
          else if Ascii.eqb c "[" then
            match class_of t with
            | Some (r, t') => continue (quantified r t')
            | None => None
            end
          else if Ascii.eqb c "\" then
            match t with
            | e :: t' =>
                match escape_item e with
                | Some (CChar x) => continue (quantified (RChar x) t')
                | Some i => continue (quantified (RClass false [i]) t')
                | None => None
                end
            | [] => None
            end
          else if existsb (Ascii.eqb c) ("*+?{}]" : str) then None
          else continue (quantified (RChar c) t)
      end
  end.

(** [new RegExp(source)] *)
Definition compile (source : str) : option regexp :=
  match compile_from (2 * length source + 2) source None REmpty with
  | Some (r, []) => Some r
  | _ => None
  end.

(** Backtracking matcher: [k] receives what is left of the input after the
    match of [r]; [whole] is the length of the whole input.  An iteration
    of a star that consumes nothing is rejected, as the engine does. *)
Fixpoint matches (whole : nat) (r : regexp) (s : str) (k : str -> bool) : bool :=
  match r with
  | REmpty => k s
  | RChar c =>
      match s with
      | x :: t => Ascii.eqb x c && k t
      | [] => false
      end
  | RAny =>
      match s with
      | x :: t => negb (is_line_terminator x) && k t
      | [] => false
      end
  | RClass neg items =>
      match s with
      | x :: t => xorb neg (existsb (fun i => item_matches i x) items) && k t
      | [] => false
      end
  | RBegin => (length s =? whole) && k s
  | REnd => match s with [] => k s | _ => false end
  | RSeq a b => matches whole a s (fun s' => matches whole b s' k)
  | RAlt a b => matches whole a s k || matches whole b s k
  | ROpt a => matches whole a s k || k s
  | RStar a =>
      (fix loop (n : nat) (s : str) {struct n} : bool :=
         k s ||
         match n with
         | 0 => false
         | S n' =>
             matches whole a s
               (fun s' => (length s' <? length s) && loop n' s')
         end) (length s) s
  end.

(** Every start position of the input, first to last. *)
Fixpoint matches_somewhere (whole : nat) (r : regexp) (s : str) : bool :=
  matches whole r s (fun _ => true) ||
  match s with
  | [] => false
  | _ :: t => matches_somewhere whole r t
  end.

(** [new RegExp(source).test(input)]; a [SyntaxError] when the source does
    not compile. *)
Definition RegExp_test (source input : str) : result bool :=
  match compile source with
  | Some r => Ok (matches_somewhere (length input) r input)
  | None => Throw SyntaxError
  end.

Record test_options : Type := mkTestOptions {
  t_path : option str;
  t_url : option str
}.

(** A [TypeError] when there is no [path] to call [replace] on. *)
Definition test (o : test_options) : M (result bool) :=
  match t_path o with
  | None => ret (Throw TypeError)
  | Some p =>
      re <- routeToRegex p ;;
      ret (RegExp_test re (match t_url o with Some u => u | None => "undefined" end))
  end.

(* ===================================================================== *)
(** * Properties *)
(* ===================================================================== *)

Unset Implicit Arguments.

#[local] Arguments Ascii.eqb : simpl never.

(** ** Scanning lemmas *)

Section Scanning.

Variable m : matcher.
Variable f : str -> str.

Lemma replace_from_skip (k : nat) (s : str) :
  replace_from m f k s = replace_all m f (skipn k s).
Proof.
  revert k; induction s as [|c t IH]; intros [|k]; simpl; try reflexivity.
  apply IH.
Qed.

(** The scan, one position at a time. *)
Lemma replace_all_cons (c : ascii) (t : str) :
  replace_all m f (c :: t) =
    match m (c :: t) with
    | Some (S n) => f (firstn (S n) (c :: t)) ++ replace_all m f (skipn n t)
    | _ => c :: replace_all m f t
    end.
Proof.
  unfold replace_all at 1; simpl.
  destruct (m (c :: t)) as [[|n]|]; try reflexivity.
  now rewrite replace_from_skip.
Qed.

Lemma replace_all_nil : replace_all m f [] = [].
Proof. reflexivity. Qed.

Lemma matches_from_skip (k : nat) (s : str) :
  matches_from m k s = match_all m (skipn k s).
Proof.
  revert k; induction s as [|c t IH]; intros [|k]; simpl; try reflexivity.
  apply IH.
Qed.

Lemma match_all_cons (c : ascii) (t : str) :
  match_all m (c :: t) =
    match m (c :: t) with
    | Some (S n) => firstn (S n) (c :: t) :: match_all m (skipn n t)
    | _ => match_all m t
    end.
Proof.
  unfold match_all at 1; simpl.
  destruct (m (c :: t)) as [[|n]|]; try reflexivity.
  now rewrite matches_from_skip.
Qed.

End Scanning.

(** Strong induction on the length of a string, the scheme of every proof
    about a scan that jumps over a match. *)
Lemma str_length_ind (P : str -> Prop) :
  (forall s, (forall t, length t < length s -> P t) -> P s) -> forall s, P s.
Proof.
  intros H s.
  assert (G : forall n t, length t < n -> P t).
  { induction n as [|n IH]; intros t Ht; [lia|].
    apply H; intros u Hu; apply IH; lia. }
  apply (G (S (length s))); lia.
Qed.

Lemma skipn_length_lt (n : nat) (c : ascii) (t : str) :
  length (skipn n t) < length (c :: t).
Proof. rewrite length_skipn; simpl; lia. Qed.

(** ** [removeParentheses] and [removeTrailingSlash] *)

Definition is_paren (c : ascii) : bool := Ascii.eqb c "(" || Ascii.eqb c ")".

Lemma removeParentheses_filter (path : str) (st : regexps) :
  fst (removeParentheses path st) = filter (fun c => negb (is_paren c)) path.
Proof.
  unfold removeParentheses, re_replace; simpl.
  induction path as [|c t IH]; [reflexivity|].
  rewrite replace_all_cons; simpl. unfold is_paren.
  destruct (Ascii.eqb c "(" || Ascii.eqb c ")"); simpl; [exact IH|].
  now rewrite IH.
Qed.

Lemma removeTrailingSlash_cases (q : str) :
  (removeTrailingSlash q = q /\ forall r, q <> r ++ "/")
  \/ q = removeTrailingSlash q ++ "/".
Proof.
  unfold removeTrailingSlash.
  induction q as [|c t IH]; simpl.
  - left; split; [reflexivity|]. intros [|? ?]; discriminate.
  - destruct t as [|d t'].
    + destruct (Ascii.eqb_spec c "/") as [->|Hc]; simpl.
      * right; reflexivity.
      * left; split; [reflexivity|].
        intros [|x [|y r]] E; simpl in E; try discriminate.
        injection E as ->; congruence.
    + change (replace_first m_TRAILING_SLASH [] (c :: d :: t'))
        with (c :: replace_first m_TRAILING_SLASH [] (d :: t')).
      destruct IH as [[E N]|E].
      * left; split; [now rewrite E|].
        intros [|x r] E'; simpl in E'; [discriminate|].
        injection E' as -> E'. exact (N _ E').
      * right. rewrite <- app_comm_cons. f_equal. exact E.
Qed.

Lemma removeTrailingSlash_incl (q : str) (c : ascii) :
  In c (removeTrailingSlash q) -> In c q.
Proof.
  destruct (removeTrailingSlash_cases q) as [[E _]|E].
  - now rewrite E.
  - intros H; rewrite E; apply in_or_app; now left.
Qed.

(** ** The shape of [parse] *)

(** [s || ''] *)
Definition string_or_empty (s : option str) : str :=
  match s with Some s => s | None => [] end.

Definition args_or_array (args : arguments) : arguments :=
  match args with NoArgs => ArrayArgs [] | a => a end.

(** What [parse] does to the injected path before it returns it. *)
Definition cleaned (p : str) : str :=
  removeTrailingSlash (filter (fun c => negb (is_paren c)) p).

Lemma parse_empty (path : option str) (args : arguments) (st : regexps) :
  isEmpty (args_or_array args) = true ->
  fst (parse path args st)
  = Ok (replace_all m_OPTIONAL_PARAMS (fun _ => []) (string_or_empty path)).
Proof.
  intros E. unfold parse. fold (string_or_empty path) (args_or_array args).
  rewrite E. reflexivity.
Qed.

Lemma parse_nonempty (path : option str) (args : arguments) (st : regexps) :
  isEmpty (args_or_array args) = false ->
  fst (parse path args st)
  = match fst (replaceArgs (string_or_empty path) (args_or_array args) st) with
    | Ok p => Ok (cleaned p)
    | Throw e => Throw e
    end.
Proof.
  intros E. unfold parse. fold (string_or_empty path) (args_or_array args).
  rewrite E. unfold bind_ok, bind.
  destruct (replaceArgs (string_or_empty path) (args_or_array args) st) as [[p|e] st1];
    simpl; [|reflexivity].
  unfold cleaned. now rewrite <- (removeParentheses_filter p st1).
Qed.

(** The values [replaceArgs] injects; [None] when [paramNames] is [null]. *)
Definition consumed (path : str) (args : arguments) : option (list value) :=
  match args with
  | NoArgs => Some []
  | ArrayArgs l => Some l
  | ObjectArgs o =>
      match match_all m_NAMED_PARAM path with
      | [] => None
      | names => Some (map (fun name => get o (tl name)) names)
      end
  end.

(** The last part of [replaceArgs]: the optional groups left after the
    injection that still show a parameter are taken out of the path. *)
Definition cleanOptional (path : str) : M str :=
  matches <- re_match OPTIONAL_PARAMS path ;;
  match matches with
  | Some matches =>
      fold_M (fun path part =>
                b <- isNamedOrSplatParam part ;;
                if b then ret (replace_first (m_literal part) [] path)
                else ret path) matches path
  | None => ret path
  end.

(** The state in which the injection starts. *)
Definition after_names (args : arguments) (st : regexps) : regexps :=
  match args with
  | ObjectArgs _ => set_lastIndex NAMED_PARAMS 0 st
  | _ => st
  end.

Lemma replaceArgs_shape (path : str) (args : arguments) (st : regexps) :
  fst (replaceArgs path args st)
  = match consumed path args with
    | None => Throw TypeError
    | Some vals =>
        match fold_ok replaceArg vals path (after_names args st) with
        | (Ok p, st1) => Ok (fst (cleanOptional p st1))
        | (Throw e, _) => Throw e
        end
    end.
Proof.
  assert (K : forall vals st0,
    fst ((path <-? fold_ok replaceArg vals path ;;
          matches <- re_match OPTIONAL_PARAMS path ;;
          match matches with
          | Some matches =>
              path <- fold_M (fun path part =>
                        b <- isNamedOrSplatParam part ;;
                        if b then ret (replace_first (m_literal part) [] path)
                        else ret path) matches path ;;
              ret (Ok path)
          | None => ret (Ok path)
          end) st0)
    = match fold_ok replaceArg vals path st0 with
      | (Ok p, st1) => Ok (fst (cleanOptional p st1))
      | (Throw e, _) => Throw e
      end).
  { intros vals st0. unfold bind_ok.
    destruct (fold_ok replaceArg vals path st0) as [[p|e] st1]; [|reflexivity].
    unfold cleanOptional, bind.
    destruct (re_match OPTIONAL_PARAMS p st1) as [[ms|] st2]; [|reflexivity].
    now destruct (fold_M _ ms p st2). }
  unfold replaceArgs. unfold bind at 1.
  destruct args as [|l|o].
  - unfold ret at 1. apply K.
  - unfold ret at 1. apply K.
  - unfold bind at 1, re_match at 1, ret at 1. cbn [matcher_of consumed after_names].
    destruct (match_all m_NAMED_PARAM path) as [|n ns]; [reflexivity|].
    cbn [option_map]. apply K.
Qed.

Lemma encodeURIComponent_throws (v : value) (e : exn) :
  encodeURIComponent v = Throw e <-> v = VUnpaired /\ e = URIError.
Proof.
  unfold encodeURIComponent.
  destruct v as [| |[|]|n|s|]; simpl; split; try discriminate;
    try (intros [H _]; discriminate).
  - intros H; injection H as <-. now split.
  - intros [_ ->]. reflexivity.
Qed.

Lemma replaceArg_throws (path : str) (v : value) (st : regexps) (e : exn) :
  fst (replaceArg path v st) = Throw e <-> v = VUnpaired /\ e = URIError.
Proof.
  rewrite <- encodeURIComponent_throws. unfold replaceArg.
  destruct (encodeURIComponent v) as [t|e']; [|reflexivity].
  destruct (contains ":" path); split; discriminate.
Qed.

(** The injection throws exactly on the first value that cannot be
    encoded. *)
Lemma injection_throws (vals : list value) (path : str) (st : regexps) (e : exn) :
  fst (fold_ok replaceArg vals path st) = Throw e
  <-> In VUnpaired vals /\ e = URIError.
Proof.
  revert path st; induction vals as [|v vals IH]; intros path st.
  - simpl. split; [discriminate|intros [[] _]].
  - cbn [fold_ok]. unfold bind_ok.
    pose proof (replaceArg_throws path v st) as R.
    destruct (replaceArg path v st) as [[p|e'] st1]; cbn [fst] in R.
    + rewrite IH. split.
      * intros [H ->]. split; [now right|reflexivity].
      * intros [[->|H] ->]; [|now split].
        discriminate (proj2 (R URIError) (conj eq_refl eq_refl)).
    + cbn [fst]. destruct (proj1 (R e') eq_refl) as [-> ->]. split.
      * intros H; injection H as <-. split; [now left|reflexivity].
      * intros [_ ->]. reflexivity.
Qed.

(** [replaceArgs] throws a [TypeError] when it is given an object and the
    path has no match of [NAMED_PARAMS], a [URIError] when a value it
    injects cannot be encoded, and nothing else. *)
Lemma replaceArgs_throws (path : str) (args : arguments) (st : regexps) (e : exn) :
  fst (replaceArgs path args st) = Throw e
  <-> (consumed path args = None /\ e = TypeError)
      \/ (exists vals, consumed path args = Some vals
                       /\ In VUnpaired vals /\ e = URIError).
Proof.
  rewrite replaceArgs_shape.
  destruct (consumed path args) as [vals|].
  - pose proof (injection_throws vals path (after_names args st) e) as I.
    destruct (fold_ok replaceArg vals path (after_names args st)) as [[p|e'] st1];
      cbn [fst] in I.
    + split; [discriminate|].
      intros [[H _]|(vals' & H & U & ->)]; [discriminate|].
      injection H as <-. discriminate (proj2 I (conj U eq_refl)).
    + split.
      * intros H. right. exists vals. split; [reflexivity|]. now apply I.
      * intros [[H _]|(vals' & H & U & ->)]; [discriminate|].
        injection H as <-. now apply I.
  - split.
    + intros H; injection H as <-. now left.
    + intros [[_ ->]|(vals' & H & _)]; [reflexivity|discriminate].
Qed.

Lemma is_zero_spec (v : value) : is_zero v = true <-> v = VNumber 0.
Proof.
  destruct v; simpl; split; try congruence.
  - intros H; apply Z.eqb_eq in H; now subst.
  - intros H; injection H as ->; reflexivity.
Qed.

(** What [isEmpty] answers on an object: the comparison [length > 0] never
    decides it. *)
Lemma isEmpty_object (o : object) :
  isEmpty (ObjectArgs o) =
    match own o "length" with
    | Some v => is_zero v
    | None => match o with [] => true | _ => false end
    end.
Proof.
  unfold isEmpty, get.
  destruct (own o "length") as [v|] eqn:E.
  - destruct (gt_zero v) eqn:G.
    + destruct v; simpl in *; try discriminate; try reflexivity.
      apply Z.ltb_lt in G. symmetry; apply Z.eqb_neq; lia.
    + destruct (is_zero v); [reflexivity|].
      destruct o; [discriminate|reflexivity].
  - reflexivity.
Qed.

Lemma isEmpty_object_false (o : object) :
  isEmpty (ObjectArgs o) = false <-> o <> [] /\ get o "length" <> VNumber 0.
Proof.
  rewrite isEmpty_object. unfold get.
  destruct (own o "length") as [v|] eqn:E.
  - rewrite <- is_zero_spec. split.
    + intros H; split; [intros ->; discriminate|congruence].
    + intros [_ H]. now destruct (is_zero v).
  - destruct o; split; try congruence.
    + intros [H _]; congruence.
    + intros _; split; congruence.
Qed.

(** ** C1: positional arguments and splat tokens *)

Lemma replaceArg_splat (path : str) (v : value) (st : regexps) :
  contains ":" path = false ->
  fst (replaceArg path v st)
  = match encodeURIComponent v with
    | Ok e => Ok (replace_all m_SPLAT_PARAMS (fun _ => e) path)
    | Throw x => Throw x
    end.
Proof.
  intros H. unfold replaceArg. rewrite H.
  now destruct (encodeURIComponent v).
Qed.

(** C1 (the code at the failing input).  A path without a colon has every
    splat token replaced by the one encoded value [replaceArg] is given:
    on ['/*a/*b'] the first positional value takes the place of both splat
    tokens, whatever the module state, and the second value finds nothing
    left to replace. *)
Theorem parse_first_value_fills_every_splat (st : regexps) :
  (forall path v,
     contains ":" path = false ->
     fst (replaceArg path v st)
     = match encodeURIComponent v with
       | Ok e => Ok (replace_all m_SPLAT_PARAMS (fun _ => e) path)
       | Throw x => Throw x
       end)
  /\ fst (replaceArg "/*a/*b" (VString "x") st) = Ok ("/x/x" : str)
  /\ fst (parse (Some ("/*a/*b" : str)) (ArrayArgs [VString "x"; VString "y"]) st)
     = Ok ("/x/x" : str).
Proof.
  split; [intros path v H; now apply replaceArg_splat|]. split; reflexivity.
Qed.

(** ** C2: the module state *)

Lemma re_test_from_start (g : global_regexp) (s : str) (st : regexps) :
  lastIndex g st = 0 -> fst (re_test g s st) = has_match (matcher_of g) s.
Proof.
  intros H. unfold re_test, has_match. rewrite H.
  replace (length s <? 0) with false by (symmetry; apply Nat.ltb_ge; lia).
  cbn [skipn]. now destruct (search (matcher_of g) s) as [[k n]|].
Qed.

Lemma getParamsMatch_state (path : str) (st : regexps) :
  li_OPTIONAL_PARAMS (snd (getParamsMatch path st)) = li_OPTIONAL_PARAMS st.
Proof. reflexivity. Qed.

(** [stats] reads [OPTIONAL_PARAMS.lastIndex] right after [match] has set
    it to 0: its answer does not depend on the state it is called in. *)
Lemma stats_hasOptionalParams (path : str) (args : arguments) (st : regexps) :
  hasOptionalParams (fst (stats path args st)) = has_match m_OPTIONAL_PARAMS path.
Proof.
  unfold stats. unfold bind at 1. unfold re_match at 1. unfold bind at 1.
  pose proof (getParamsMatch_state path (set_lastIndex OPTIONAL_PARAMS 0 st)) as G.
  destruct (getParamsMatch path (set_lastIndex OPTIONAL_PARAMS 0 st)) as [m st1].
  cbn [snd set_lastIndex li_OPTIONAL_PARAMS] in G. unfold bind at 1.
  assert (A : forall a st2,
             (match args with
              | NoArgs => ret []
              | ArrayArgs l => paramsArray2Object path l
              | ObjectArgs o => ret o
              end) st1 = (a, st2) -> li_OPTIONAL_PARAMS st2 = 0).
  { intros a st2. destruct args as [|l|o]; unfold ret.
    - intros E; injection E as _ <-. exact G.
    - unfold paramsArray2Object, bind, ret.
      pose proof (getParamsMatch_state path st1) as G1.
      destruct (getParamsMatch path st1) as [m1 st3]. cbn [snd] in G1.
      intros E; injection E as _ <-. congruence.
    - intros E; injection E as _ <-. exact G. }
  destruct (match args with
            | NoArgs => ret []
            | ArrayArgs l => paramsArray2Object path l
            | ObjectArgs o => ret o
            end st1) as [a st2].
  pose proof (A a st2 eq_refl) as E. unfold bind.
  pose proof (re_test_from_start OPTIONAL_PARAMS path st2 E) as T.
  destruct (re_test OPTIONAL_PARAMS path st2) as [h st3]. exact T.
Qed.

Definition path_twice (o : options) : M (result str * result str) :=
  a <- buildPath o ;; b <- buildPath o ;; ret (a, b).

(** C2 (the code at the failing input).  Two calls of [path] with the same
    options, the first in a freshly loaded module: the first leaves
    [SPLAT_PARAMS.lastIndex] at 4 and returns ['/x'], the second returns
    ['/x/*a'].  [stats] moves [OPTIONAL_PARAMS.lastIndex] too, although its
    own [hasOptionalParams] is the same in every state. *)
Theorem path_twice_differs :
  let o := mkOptions None (Some ("/:id(/*a)" : str)) (ArrayArgs [VString "x"]) None None in
  fst (path_twice o fresh) = (Ok ("/x" : str), Ok ("/x/*a" : str))
  /\ li_SPLAT_PARAMS (snd (buildPath o fresh)) = 4
  /\ li_OPTIONAL_PARAMS (snd (stats "/users(/:id)" NoArgs fresh)) = 12
  /\ (forall path args st,
        hasOptionalParams (fst (stats path args st)) = has_match m_OPTIONAL_PARAMS path).
Proof.
  split; [reflexivity|]. split; [reflexivity|]. split; [reflexivity|].
  exact stats_hasOptionalParams.
Qed.

(** ** C3: when [parse] throws *)

Lemma parse_throws (path : option str) (args : arguments) (st : regexps) (e : exn) :
  fst (parse path args st) = Throw e
  <-> isEmpty (args_or_array args) = false
      /\ ((consumed (string_or_empty path) (args_or_array args) = None /\ e = TypeError)
          \/ (exists vals,
                consumed (string_or_empty path) (args_or_array args) = Some vals
                /\ In VUnpaired vals /\ e = URIError)).
Proof.
  destruct (isEmpty (args_or_array args)) eqn:E.
  - rewrite (parse_empty path args st E). split; [discriminate|].
    intros [H _]; discriminate.
  - rewrite (parse_nonempty path args st E).
    rewrite <- (replaceArgs_throws (string_or_empty path) (args_or_array args) st e).
    destruct (fst (replaceArgs (string_or_empty path) (args_or_array args) st)).
    + split; [discriminate|]. intros [_ H]; discriminate.
    + split; [intros H; now split|now intros [_ H]].
Qed.

Lemma consumed_keyed (path : str) (o : object) :
  match_all m_NAMED_PARAM path <> [] ->
  consumed path (ObjectArgs o)
  = Some (map (fun name => get o (tl name)) (match_all m_NAMED_PARAM path)).
Proof.
  intros H. unfold consumed.
  destruct (match_all m_NAMED_PARAM path); [congruence|reflexivity].
Qed.

Lemma consumed_None (path : str) (args : arguments) :
  consumed path (args_or_array args) = None
  <-> exists o, args = ObjectArgs o /\ match_all m_NAMED_PARAM path = [].
Proof.
  destruct args as [|l|o]; simpl.
  - split; [discriminate|]. intros (? & ? & _); discriminate.
  - split; [discriminate|]. intros (? & ? & _); discriminate.
  - destruct (match_all m_NAMED_PARAM path) as [|n ns].
    + split; [intros _; now exists o|reflexivity].
    + split; [discriminate|]. intros (? & _ & ?); discriminate.
Qed.

(** C3 (amended).  [parse] fails with the [TypeError] of [replaceArgs]
    exactly when the arguments are an object that [isEmpty] does not take
    for empty (it has an own property and its [length] is not the number 0)
    and the pattern has no named-parameter token; it fails with the
    [URIError] of [encodeURIComponent] exactly when the arguments are not
    empty and a value it injects holds an unpaired surrogate; on every
    other input it returns a string. *)
Theorem parse_throws_iff (path : option str) (args : arguments) (st : regexps) :
  (fst (parse path args st) = Throw TypeError
   <-> exists o, args = ObjectArgs o /\ o <> [] /\ get o "length" <> VNumber 0
                 /\ match_all m_NAMED_PARAM (string_or_empty path) = [])
  /\ (fst (parse path args st) = Throw URIError
      <-> isEmpty (args_or_array args) = false
          /\ exists vals,
               consumed (string_or_empty path) (args_or_array args) = Some vals
               /\ In VUnpaired vals)
  /\ (fst (parse path args st) = Throw SyntaxError -> False)
  /\ ((forall e, fst (parse path args st) = Throw e -> False)
      -> exists r, fst (parse path args st) = Ok r).
Proof.
  split; [|split; [|split]].
  - rewrite parse_throws. split.
    + intros [E [[C _]|(vals & _ & _ & H)]]; [|discriminate].
      apply consumed_None in C. destruct C as (o & -> & T).
      change (args_or_array (ObjectArgs o)) with (ObjectArgs o) in E.
      apply isEmpty_object_false in E. destruct E as [E1 E2]. now exists o.
    + intros (o & -> & E1 & E2 & T). split.
      * change (args_or_array (ObjectArgs o)) with (ObjectArgs o).
        now apply isEmpty_object_false.
      * left. split; [|reflexivity]. apply consumed_None. now exists o.
  - rewrite parse_throws. split.
    + intros [E [[_ H]|(vals & C & U & _)]]; [discriminate|].
      split; [exact E|]. now exists vals.
    + intros [E (vals & C & U)]. split; [exact E|]. right. now exists vals.
  - intros H. apply parse_throws in H.
    destruct H as [_ [[_ H]|(vals & _ & _ & H)]]; discriminate.
  - intros H. destruct (fst (parse path args st)) as [r|e]; [now exists r|].
    destruct (H e eq_refl).
Qed.

(** C3 (counterexample).  The object [{length: 0}] has an own enumerable
    property and ['/a'] has no named parameter, yet [parse] returns
    ['/a']; and an array holding a string with an unpaired surrogate makes
    [parse] throw although it is no object. *)
Lemma parse_length_zero_returns :
  match_all m_NAMED_PARAM "/a" = []
  /\ own [("length" : str, VNumber 0)] "length" = Some (VNumber 0)
  /\ fst (parse (Some ("/a" : str)) (ObjectArgs [("length" : str, VNumber 0)]) fresh)
     = Ok ("/a" : str)
  /\ fst (parse (Some ("/:a" : str)) (ArrayArgs [VUnpaired]) fresh) = Throw URIError.
Proof. repeat split. Qed.

(** ** C4: [path] with empty arguments *)

(** The text between the parentheses of an optional group as
    [OPTIONAL_PARAMS] sees it: up to the first closing parenthesis, on one
    line. *)
Definition group_body (body : str) : Prop :=
  ~ In ")"%char body /\ forall c, In c body -> is_line_terminator c = false.

(** The spec's words: [r] is [p] with every optional group removed, taken
    left to right, and unaffected otherwise. *)
Inductive without_groups : str -> str -> Prop :=
  | wg_end : without_groups [] []
  | wg_group (body rest r : str) :
      group_body body ->
      without_groups rest r ->
      without_groups ("(" ++ body ++ ")" ++ rest) r
  | wg_keep (c : ascii) (t r : str) :
      (forall body rest, group_body body -> c :: t <> "(" ++ body ++ ")" ++ rest) ->
      without_groups t r ->
      without_groups (c :: t) (c :: r).

Lemma lazy_until_close_spec (t : str) (n : nat) :
  lazy_until_close t = Some n
  <-> exists body rest, t = body ++ ")" ++ rest /\ group_body body /\ n = length body.
Proof.
  revert n; induction t as [|c t IH]; intros n; simpl.
  - split; [discriminate|]. intros ([|? ?] & ? & E & _); discriminate.
  - destruct (Ascii.eqb_spec c ")") as [->|Hc].
    + split.
      * intros E; injection E as <-. exists [], t. repeat split; auto.
        intros c [].
      * intros ([|d body] & rest & E & [B _] & ->); [reflexivity|].
        injection E as <- _. exfalso; apply B; now left.
    + destruct (is_line_terminator c) eqn:L.
      * split; [discriminate|].
        intros ([|d body] & rest & E & [_ B] & _); injection E as -> _;
          [congruence|].
        rewrite B in L; [discriminate|now left].
      * destruct (lazy_until_close t) as [k|] eqn:K; simpl.
        -- split.
           ++ intros E; injection E as <-.
              destruct (proj1 (IH k) eq_refl) as (body & rest & -> & [B1 B2] & ->).
              exists (c :: body), rest. repeat split.
              ** intros [H|H]; [congruence|contradiction].
              ** intros d [<-|H]; auto.
           ++ intros ([|d body] & rest & E & [B1 B2] & ->); injection E as -> E;
                [congruence|].
              simpl. f_equal.
              assert (Some k = Some (length body)) as X; [|congruence].
              apply IH. exists body, rest. repeat split; auto.
              ** intros H; apply B1; now right.
              ** intros x Hx; apply B2; now right.
        -- split; [discriminate|].
           intros ([|d body] & rest & E & [B1 B2] & _); injection E as -> E;
             [congruence|].
           assert (None = Some (length body)) as X; [|discriminate].
           apply IH. exists body, rest. repeat split; auto.
           ** intros H; apply B1; now right.
           ** intros x Hx; apply B2; now right.
Qed.

Lemma m_OPTIONAL_PARAMS_spec (s : str) (n : nat) :
  m_OPTIONAL_PARAMS s = Some n
  <-> exists body rest, s = "(" ++ body ++ ")" ++ rest /\ group_body body
                        /\ n = length body + 2.
Proof.
  destruct s as [|c t]; simpl.
  - split; [discriminate|]. intros (? & ? & ? & _); discriminate.
  - destruct (Ascii.eqb_spec c "(") as [->|Hc].
    + destruct (lazy_until_close t) as [k|] eqn:K; simpl.
      * apply lazy_until_close_spec in K. destruct K as (body & rest & -> & B & ->).
        split.
        -- intros E; injection E as <-. now exists body, rest.
        -- intros (body' & rest' & E & B' & ->). injection E as E.
           assert (Some (length body) = Some (length body')) as X; [|now injection X as ->].
           rewrite <- (proj2 (lazy_until_close_spec (body ++ ")" ++ rest) (length body))).
           ++ apply lazy_until_close_spec. now exists body', rest'.
           ++ now exists body, rest.
      * split; [discriminate|]. intros (body & rest & E & B & _). injection E as ->.
        assert (None = Some (length body)) as X; [|discriminate].
        rewrite <- K. apply lazy_until_close_spec. now exists body, rest.
    + split; [discriminate|]. intros (? & ? & E & _). injection E as -> _. congruence.
Qed.

(** What [removeOptionalParams] returns. *)
Definition stripped (p : str) : str := replace_all m_OPTIONAL_PARAMS (fun _ => []) p.

Lemma stripped_cons (c : ascii) (t : str) :
  stripped (c :: t) =
    match m_OPTIONAL_PARAMS (c :: t) with
    | Some (S n) => stripped (skipn n t)
    | _ => c :: stripped t
    end.
Proof.
  unfold stripped. rewrite replace_all_cons.
  now destruct (m_OPTIONAL_PARAMS (c :: t)) as [[|n]|].
Qed.

Lemma skipn_body (body rest : str) :
  skipn (length body + 1) (body ++ ")"%char :: rest) = rest.
Proof.
  induction body as [|c body IH]; simpl; [reflexivity|exact IH].
Qed.

Lemma stripped_without_groups (p : str) : without_groups p (stripped p).
Proof.
  induction p as [p IH] using str_length_ind.
  destruct p as [|c t]; [constructor|].
  rewrite stripped_cons.
  destruct (m_OPTIONAL_PARAMS (c :: t)) as [n|] eqn:E.
  - apply m_OPTIONAL_PARAMS_spec in E.
    destruct E as (body & rest & E & B & ->). injection E as -> ->.
    replace (length body + 2) with (S (length body + 1)) by lia.
    cbv beta iota. rewrite skipn_body. apply (wg_group body rest _ B). apply IH.
    simpl. rewrite !length_app. simpl. lia.
  - apply wg_keep; [|apply IH; simpl; lia].
    intros body rest B H.
    assert (m_OPTIONAL_PARAMS (c :: t) = Some (length body + 2)) as X; [|congruence].
    apply m_OPTIONAL_PARAMS_spec. now exists body, rest.
Qed.

Lemma group_body_unique (b1 r1 b2 r2 : str) :
  ~ In ")"%char b1 -> ~ In ")"%char b2 ->
  b1 ++ ")" ++ r1 = b2 ++ ")" ++ r2 -> r1 = r2.
Proof.
  revert b2; induction b1 as [|c b1 IH]; intros [|d b2] N1 N2 E; simpl in E.
  - now injection E.
  - injection E as <- _. exfalso; apply N2; now left.
  - injection E as -> _. exfalso; apply N1; now left.
  - injection E as _ E. apply (IH b2); auto.
    + intros H; apply N1; now right.
    + intros H; apply N2; now right.
Qed.

Lemma without_groups_unique (p r1 r2 : str) :
  without_groups p r1 -> without_groups p r2 -> r1 = r2.
Proof.
  intros H1; revert r2; induction H1 as [|body rest r B W IH|c t r N W IH];
    intros r2 H2.
  - now inversion H2.
  - inversion H2 as [|body' rest' r' B' W' E|c t r' N' W' E]; subst.
    + apply IH.
      now rewrite <- (@group_body_unique body' rest' body rest (proj1 B') (proj1 B) E).
    + exfalso. now apply (N' body rest).
  - inversion H2 as [|body' rest' r' B' W' E|c' t' r' N' W' E]; subst.
    + exfalso. now apply (N body' rest').
    + f_equal. now apply IH.
Qed.

(** A text none of whose positions starts a match. *)
Definition match_free (m : matcher) (s : str) : Prop :=
  forall pre u, s = pre ++ u -> m u = None.

Lemma match_free_cons (m : matcher) (c : ascii) (s : str) :
  m (c :: s) = None -> match_free m s -> match_free m (c :: s).
Proof.
  intros H F [|d pre] u E; simpl in E.
  - now subst.
  - injection E as _ E. exact (F pre u E).
Qed.

Lemma match_free_tail (m : matcher) (c : ascii) (s : str) :
  match_free m (c :: s) -> m (c :: s) = None /\ match_free m s.
Proof.
  intros F. split; [exact (F [] (c :: s) eq_refl)|].
  intros pre u E. apply (F (c :: pre) u). now rewrite E.
Qed.

Lemma replace_all_match_free (m : matcher) (f : str -> str) (s : str) :
  match_free m s -> replace_all m f s = s.
Proof.
  induction s as [|c s IH]; intros F; [reflexivity|].
  apply match_free_tail in F. destruct F as [H F].
  rewrite replace_all_cons, H. now rewrite IH.
Qed.

Lemma line_terminator_not_paren (c : ascii) :
  is_line_terminator c = true -> Ascii.eqb c "(" = false.
Proof.
  intros H. destruct (Ascii.eqb_spec c "(") as [->|]; [discriminate|reflexivity].
Qed.

(** An opening parenthesis that finds no closing one on its line still
    finds none once the groups after it are gone. *)
Lemma lazy_until_close_stripped (t : str) :
  lazy_until_close t = None -> lazy_until_close (stripped t) = None.
Proof.
  induction t as [|d t IH]; intros H; [reflexivity|].
  simpl in H. rewrite stripped_cons.
  destruct (Ascii.eqb d ")") eqn:D; [discriminate|].
  destruct (is_line_terminator d) eqn:L.
  - simpl. rewrite (line_terminator_not_paren d L). simpl. now rewrite D, L.
  - destruct (lazy_until_close t) eqn:K; [discriminate|].
    simpl. rewrite K. simpl.
    replace (if Ascii.eqb d "(" then None else None) with (@None nat)
      by now destruct (Ascii.eqb d "(").
    simpl. rewrite D, L, IH; reflexivity.
Qed.

Lemma stripped_match_free (p : str) : match_free m_OPTIONAL_PARAMS (stripped p).
Proof.
  induction p as [p IH] using str_length_ind.
  destruct p as [|c t].
  - intros [|? ?] u E; [|discriminate]. simpl in E. now subst.
  - rewrite stripped_cons.
    destruct (m_OPTIONAL_PARAMS (c :: t)) as [[|n]|] eqn:E.
    + apply m_OPTIONAL_PARAMS_spec in E. destruct E as (? & ? & _ & _ & E). lia.
    + apply IH. apply skipn_length_lt.
    + apply match_free_cons; [|apply IH; simpl; lia].
      simpl in *. destruct (Ascii.eqb c "("); [|reflexivity].
      destruct (lazy_until_close t) eqn:K; [discriminate|].
      now rewrite (lazy_until_close_stripped t K).
Qed.

Lemma stripped_idempotent (p : str) : stripped (stripped p) = stripped p.
Proof. apply replace_all_match_free, stripped_match_free. Qed.

Definition path_only (p : str) (args : arguments) : options :=
  mkOptions None (Some p) args None None.

(** C4 (amended).  For every pattern [p] and every empty argument set
    ([null], the empty array, the object without properties), [path]
    returns [p] without its optional groups, a group running from an
    opening parenthesis to the first closing one on the same line; the rest
    of [p] is unaffected, no such group is left in the result, and [path]
    with empty arguments returns the result unchanged. *)
Theorem path_empty_arguments (p : str) (args : arguments) (st : regexps) :
  args = NoArgs \/ args = ArrayArgs [] \/ args = ObjectArgs [] ->
  exists r,
    fst (buildPath (path_only p args) st) = Ok r
    /\ without_groups p r
    /\ (forall r', without_groups p r' -> r' = r)
    /\ (forall pre body rest, group_body body -> r <> pre ++ "(" ++ body ++ ")" ++ rest)
    /\ (forall st', fst (buildPath (path_only r args) st') = Ok r).
Proof.
  intros H. exists (stripped p).
  assert (E : isEmpty (args_or_array args) = true)
    by (destruct H as [->|[->| ->]]; reflexivity).
  split; [exact (parse_empty (Some p) args st E)|].
  split; [apply stripped_without_groups|].
  split; [intros r' W; exact (without_groups_unique p r' _ W (stripped_without_groups p))|].
  split.
  - intros pre body rest B X.
    pose proof (stripped_match_free p) as F. specialize (F pre _ X).
    assert (m_OPTIONAL_PARAMS ("(" ++ body ++ ")" ++ rest) = Some (length body + 2))
      as Y; [|congruence].
    apply m_OPTIONAL_PARAMS_spec. now exists body, rest.
  - intros st'. unfold buildPath, path_only; cbn [opt_path opt_params].
    rewrite (parse_empty (Some (stripped p)) args st' E).
    cbn [string_or_empty]. fold (stripped (stripped p)). now rewrite stripped_idempotent.
Qed.

Lemma path_empty_arguments_witness :
  exists r,
    fst (buildPath (path_only "/users(/:id)" NoArgs) fresh) = Ok r
    /\ without_groups "/users(/:id)" r
    /\ (forall r', without_groups "/users(/:id)" r' -> r' = r)
    /\ (forall pre body rest, group_body body -> r <> pre ++ "(" ++ body ++ ")" ++ rest)
    /\ (forall st', fst (buildPath (path_only r NoArgs) st') = Ok r).
Proof.
  apply (path_empty_arguments "/users(/:id)" NoArgs fresh). now left.
Defined.

Definition LF : ascii := ascii_of_nat 10.

(** C4 (counterexample).  A parenthesized group that holds a line feed is
    not removed: [path] returns the pattern as it is. *)
Lemma path_keeps_group_across_lines :
  let p := "(a" ++ [LF] ++ "b)" in
  fst (buildPath (path_only p NoArgs) fresh) = Ok p.
Proof. reflexivity. Qed.

(** ** C5: the compiled regular expression *)

(** The steps of [routeToRegex], one [replace] each. *)
Definition escape_step (r : str) : str :=
  replace_all m_ESCAPE (fun m => "\" ++ m) r.

Definition optional_step (r : str) : str :=
  replace_all m_OPTIONAL_PARAMS (fun m => "(?:" ++ group1 m ++ ")?") r.

Definition named_step (r : str) : str :=
  replace_all m_NAMED_PARAM (fun m => if isPrefix "(?" m then m else "([^/?]+)") r.

Definition splat_step (r : str) : str :=
  replace_all m_SPLAT_PARAMS (fun _ => "([^?]*?)") r.

Definition query_capture : str := "(?:\?([\s\S]*))?".

Lemma routeToRegex_steps (route : str) (st : regexps) :
  fst (routeToRegex route st)
  = "^" ++ splat_step (named_step (optional_step (escape_step route)))
      ++ query_capture ++ "$".
Proof. reflexivity. Qed.

Definition test_url (pattern url : str) : M (result bool) :=
  test (mkTestOptions (Some pattern) (Some url)).

(** The regular expression [new RegExp] builds for ['/users/:id']. *)
Definition users_regexp : regexp :=
  Eval vm_compute in
    match compile "^/users/([^/?]+)(?:\?([\s\S]*))?$" with
    | Some r => r
    | None => REmpty
    end.

Lemma test_users (u : str) (st : regexps) :
  fst (test_url "/users/:id" u st)
  = Ok (matches_somewhere (length u) users_regexp u).
Proof. reflexivity. Qed.

Section Matching.

Variable whole : nat.

Lemma matches_seq (a b : regexp) (s : str) (k : str -> bool) :
  matches whole (RSeq a b) s k = matches whole a s (fun s' => matches whole b s' k).
Proof. reflexivity. Qed.

Lemma matches_char_iff (c : ascii) (s : str) (k : str -> bool) :
  matches whole (RChar c) s k = true <-> exists t, s = c :: t /\ k t = true.
Proof.
  destruct s as [|x t]; simpl.
  - split; [discriminate|]. intros (? & ? & _); discriminate.
  - rewrite andb_true_iff, Ascii.eqb_eq. split.
    + intros [-> K]. now exists t.
    + intros (t' & E & K). injection E as -> ->. now split.
Qed.

Definition in_class (neg : bool) (items : list class_item) (c : ascii) : bool :=
  xorb neg (existsb (fun i => item_matches i c) items).

(** One more iteration of a starred class, or none. *)
Lemma star_class_unfold (neg : bool) (items : list class_item) (s : str)
    (k : str -> bool) :
  matches whole (RStar (RClass neg items)) s k
  = k s || match s with
           | [] => false
           | c :: t => in_class neg items c
                       && matches whole (RStar (RClass neg items)) t k
           end.
Proof.
  destruct s as [|c t]; [reflexivity|].
  change (matches whole (RStar (RClass neg items)) (c :: t) k)
    with (k (c :: t)
          || (in_class neg items c
              && ((length t <? S (length t))
                  && matches whole (RStar (RClass neg items)) t k))).
  replace (length t <? S (length t)) with true; [reflexivity|].
  symmetry. apply Nat.ltb_lt. lia.
Qed.

Lemma star_class_iff (neg : bool) (items : list class_item) (s : str)
    (k : str -> bool) :
  matches whole (RStar (RClass neg items)) s k = true
  <-> exists w rest, s = w ++ rest /\ forallb (in_class neg items) w = true
                     /\ k rest = true.
Proof.
  induction s as [|c t IH]; rewrite star_class_unfold.
  - rewrite orb_false_r. split.
    + intros K. now exists [], [].
    + intros (w & rest & E & _ & K). symmetry in E. apply app_eq_nil in E.
      destruct E as [_ ->]. exact K.
  - rewrite orb_true_iff, andb_true_iff, IH. split.
    + intros [K|[C (w & rest & -> & W & K)]].
      * now exists [], (c :: t).
      * exists (c :: w), rest. simpl. now rewrite C, W.
    + intros ([|d w] & rest & E & W & K); simpl in E.
      * left. now subst.
      * right. injection E as <- ->. simpl in W. apply andb_true_iff in W.
        destruct W as [C W]. split; [exact C|]. now exists w, rest.
Qed.

End Matching.

(** The parts of [users_regexp]. *)
Definition users_prefix : regexp :=
  Eval vm_compute in
    match compile "^/users/" with Some r => r | None => REmpty end.

Definition segment_class : regexp := RClass true [CChar "/"; CChar "?"].
Definition any_class : regexp := RClass false [CSpace true; CSpace false].

Definition users_capture : regexp :=
  RSeq REmpty (RSeq segment_class (RStar segment_class)).

Definition users_query : regexp :=
  ROpt (RSeq (RSeq REmpty (RChar "?")) (RSeq REmpty (RStar any_class))).

Lemma users_regexp_parts :
  users_regexp = RSeq (RSeq (RSeq users_prefix users_capture) users_query) REnd.
Proof. reflexivity. Qed.

(** A character a named parameter captures. *)
Definition captured (c : ascii) : bool :=
  negb (Ascii.eqb "/" c) && negb (Ascii.eqb "?" c).

Lemma segment_class_captured (c : ascii) :
  in_class true [CChar "/"; CChar "?"] c = captured c.
Proof.
  unfold in_class, captured. simpl.
  now destruct (Ascii.eqb "/" c), (Ascii.eqb "?" c).
Qed.

Lemma any_class_all (w : str) :
  forallb (in_class false [CSpace true; CSpace false]) w = true.
Proof.
  induction w as [|c w IH]; [reflexivity|]. simpl. rewrite IH.
  unfold in_class. simpl. now destruct (is_space c).
Qed.

Lemma users_prefix_matches (whole : nat) (s : str) (k : str -> bool) :
  matches whole users_prefix s k
  = (length s =? whole) && (isPrefix "/users/" s && k (skipn 7 s)).
Proof.
  unfold users_prefix. cbn [matches]. f_equal.
  do 7 (destruct s as [|? s];
        [cbn [isPrefix list_ascii_of_string]; now rewrite ?andb_false_r|]).
  cbn [isPrefix skipn list_ascii_of_string].
  rewrite !(Ascii.eqb_sym _ "/"), !(Ascii.eqb_sym _ "u"), !(Ascii.eqb_sym _ "s"),
    !(Ascii.eqb_sym _ "e"), !(Ascii.eqb_sym _ "r").
  rewrite andb_true_r. now rewrite <- !andb_assoc.
Qed.

Lemma isPrefix_spec (p s : str) : isPrefix p s = true <-> exists t, s = p ++ t.
Proof.
  revert s; induction p as [|x p IH]; intros s; simpl.
  - split; [intros _; now exists s|reflexivity].
  - destruct s as [|y s].
    + split; [discriminate|]. intros (? & ?); discriminate.
    + rewrite andb_true_iff, Ascii.eqb_eq, IH. split.
      * intros [-> (t & ->)]. now exists t.
      * intros (t & E). injection E as -> ->. split; [reflexivity|now exists t].
Qed.

Lemma forallb_pointwise (f g : ascii -> bool) (l : str) :
  (forall x, f x = g x) -> forallb f l = forallb g l.
Proof.
  intros H. induction l as [|c l IH]; [reflexivity|]. simpl. now rewrite H, IH.
Qed.

Definition at_end (whole : nat) : str -> bool :=
  fun s => matches whole REnd s (fun _ => true).

Lemma users_query_matches (whole : nat) (rest : str) :
  matches whole users_query rest (at_end whole) = true
  <-> rest = [] \/ exists q, rest = "?"%char :: q.
Proof.
  change (matches whole users_query rest (at_end whole))
    with (matches whole (RChar "?") rest
            (fun s => matches whole (RStar any_class) s (at_end whole))
          || at_end whole rest).
  rewrite orb_true_iff, matches_char_iff. split.
  - intros [(t & -> & _)|E]; [right; now exists t|].
    left. destruct rest; [reflexivity|discriminate].
  - intros [->|(q & ->)]; [now right|]. left. exists q. split; [reflexivity|].
    apply star_class_iff. exists q, []. rewrite app_nil_r.
    split; [reflexivity|]. split; [apply any_class_all|reflexivity].
Qed.

(** The texts [users_regexp] accepts at a position: only the whole input,
    made of ['/users/'], one or more captured characters and, if anything
    follows, a question mark and the query. *)
Lemma users_matches_iff (whole : nat) (s : str) :
  matches whole users_regexp s (fun _ => true) = true
  <-> length s = whole
      /\ exists w q, s = "/users/" ++ w ++ q /\ w <> []
                     /\ forallb captured w = true
                     /\ (q = [] \/ exists q', q = "?"%char :: q').
Proof.
  rewrite users_regexp_parts.
  change (matches whole (RSeq (RSeq (RSeq users_prefix users_capture) users_query) REnd)
            s (fun _ => true))
    with (matches whole users_prefix s
            (fun s1 => matches whole segment_class s1
               (fun s2 => matches whole (RStar segment_class) s2
                  (fun s3 => matches whole users_query s3 (at_end whole))))).
  rewrite users_prefix_matches, !andb_true_iff, Nat.eqb_eq, isPrefix_spec.
  split.
  - intros (L & (t & E) & M). split; [exact L|].
    rewrite E in M. change (skipn 7 ("/users/" ++ t)) with t in M.
    destruct t as [|c t]; [discriminate|].
    change (in_class true [CChar "/"; CChar "?"] c
            && matches whole (RStar segment_class) t
                 (fun s3 => matches whole users_query s3 (at_end whole)) = true) in M.
    apply andb_true_iff in M. destruct M as [C M].
    apply star_class_iff in M. destruct M as (w & q & -> & W & Q).
    apply users_query_matches in Q.
    exists (c :: w), q. repeat split; try assumption; try congruence.
    cbn [forallb]. rewrite <- segment_class_captured, C. cbn [andb].
    rewrite (forallb_pointwise captured (in_class true [CChar "/"; CChar "?"]));
      [exact W|]. intros x. symmetry. apply segment_class_captured.
  - intros (L & w & q & -> & W & C & Q). split; [exact L|].
    split; [now exists (w ++ q)|].
    change (skipn 7 ("/users/" ++ w ++ q)) with (w ++ q).
    destruct w as [|c w]; [congruence|]. simpl in C.
    apply andb_true_iff in C. destruct C as [C1 C2].
    change (in_class true [CChar "/"; CChar "?"] c
            && matches whole (RStar segment_class) (w ++ q)
                 (fun s3 => matches whole users_query s3 (at_end whole)) = true).
    rewrite segment_class_captured, C1. cbn [andb].
    apply star_class_iff. exists w, q. split; [reflexivity|]. split.
    + rewrite (forallb_pointwise (in_class true [CChar "/"; CChar "?"]) captured);
        [exact C2|]. intros x. apply segment_class_captured.
    + now apply users_query_matches.
Qed.

Lemma users_not_later (whole : nat) (s : str) :
  length s < whole -> matches_somewhere whole users_regexp s = false.
Proof.
  induction s as [|c s IH]; intros L; cbn [matches_somewhere].
  - rewrite orb_false_r.
    destruct (matches whole users_regexp [] (fun _ => true)) eqn:E; [|reflexivity].
    apply users_matches_iff in E. simpl in *. lia.
  - rewrite IH by (simpl in L; lia). rewrite orb_false_r.
    destruct (matches whole users_regexp (c :: s) (fun _ => true)) eqn:E; [|reflexivity].
    apply users_matches_iff in E. lia.
Qed.

Lemma users_somewhere (u : str) :
  matches_somewhere (length u) users_regexp u
  = matches (length u) users_regexp u (fun _ => true).
Proof.
  destruct u as [|c u]; cbn [matches_somewhere]; [apply orb_false_r|].
  rewrite users_not_later by (simpl; lia). apply orb_false_r.
Qed.

Lemma users_test_iff (u : str) (st : regexps) :
  fst (test_url "/users/:id" u st) = Ok true
  <-> exists w q, u = "/users/" ++ w ++ q /\ w <> []
                  /\ forallb captured w = true
                  /\ (q = [] \/ exists q', q = "?"%char :: q').
Proof.
  rewrite test_users, users_somewhere. split.
  - intros E. injection E as E. apply users_matches_iff in E. now destruct E.
  - intros H. f_equal. apply users_matches_iff. now split.
Qed.

(** C5.  The regular expression compiled for ['/users/:id'] captures the
    parameter as one or more characters other than a slash and a question
    mark: it matches ['/users/42'] and does not match ['/users/'], and the
    texts it matches are exactly ['/users/'] followed by such characters
    and, if anything more, by a question mark and the query.  The source of
    every compiled regular expression begins with [^] and ends with the
    optional query capture followed by [$]. *)
Theorem regex_users_id (st : regexps) :
  fst (routeToRegex "/users/:id" st) = ("^/users/([^/?]+)(?:\?([\s\S]*))?$" : str)
  /\ fst (test_url "/users/:id" "/users/42" st) = Ok true
  /\ fst (test_url "/users/:id" "/users/" st) = Ok false
  /\ (forall u,
        fst (test_url "/users/:id" u st) = Ok true
        <-> exists w q, u = "/users/" ++ w ++ q /\ w <> []
                        /\ forallb captured w = true
                        /\ (q = [] \/ exists q', q = "?"%char :: q'))
  /\ (forall u, exists b, fst (test_url "/users/:id" u st) = Ok b)
  /\ forall route, exists body,
       fst (routeToRegex route st) = "^" ++ body ++ "(?:\?([\s\S]*))?" ++ "$".
Proof.
  repeat (split; [reflexivity|]).
  split; [intros u; apply users_test_iff|].
  split; [intros u; eexists; apply test_users|].
  intros route. eexists. apply routeToRegex_steps.
Qed.

(** ** C6: named parameters in the regular expression *)

(** The text is empty or begins with a character that cannot continue a
    name. *)
Definition starts_nonword (s : str) : bool :=
  match s with [] => true | c :: _ => negb (is_word c) end.

Lemma span_word_app (w rest : str) :
  forallb is_word w = true -> starts_nonword rest = true ->
  span_word (w ++ rest) = (w, rest).
Proof.
  intros W R. induction w as [|c w IH]; simpl in *.
  - destruct rest as [|d rest]; [reflexivity|]. simpl in *.
    now destruct (is_word d).
  - apply andb_true_iff in W. destruct W as [Hc W].
    now rewrite Hc, (IH W).
Qed.

Lemma span_word_stable (x t : str) :
  starts_nonword t = true -> fst (span_word (x ++ t)) = fst (span_word x).
Proof.
  intros T. induction x as [|c x IH]; simpl.
  - destruct t as [|d t]; [reflexivity|]. simpl in *. now destruct (is_word d).
  - destruct (is_word c); [|reflexivity].
    destruct (span_word (x ++ t)), (span_word x). simpl in *. now subst.
Qed.

Lemma span_word_length (s : str) : length (fst (span_word s)) <= length s.
Proof.
  induction s as [|c s IH]; simpl; [lia|].
  destruct (is_word c); simpl; [|lia].
  destruct (span_word s); simpl in *. lia.
Qed.

Lemma m_colon_word_stable (u t : str) :
  u <> [] -> starts_nonword t = true -> m_colon_word (u ++ t) = m_colon_word u.
Proof.
  intros U T. destruct u as [|c u]; [congruence|]. simpl.
  now rewrite (span_word_stable u t T).
Qed.

Lemma m_colon_word_bound (s : str) (n : nat) :
  m_colon_word s = Some n -> 0 < n <= length s.
Proof.
  destruct s as [|c t]; simpl; [discriminate|].
  destruct (Ascii.eqb c ":"); [|discriminate].
  pose proof (span_word_length t) as L.
  destruct (fst (span_word t)); [discriminate|].
  intros E; injection E as <-. simpl in *. lia.
Qed.

Lemma m_NAMED_PARAM_bound (s : str) (n : nat) :
  m_NAMED_PARAM s = Some n -> 0 < n <= length s.
Proof.
  unfold m_NAMED_PARAM.
  destruct (isPrefix "(?" s) eqn:P.
  - destruct (m_colon_word (skipn 2 s)) as [k|] eqn:K; simpl.
    + intros E; injection E as <-. apply m_colon_word_bound in K.
      rewrite length_skipn in K. lia.
    + apply m_colon_word_bound.
  - apply m_colon_word_bound.
Qed.

(** The text is empty or begins with a character that can neither continue
    a name nor complete the group [(?]. *)
Definition safe_head (s : str) : bool :=
  match s with
  | [] => true
  | c :: _ => negb (is_word c) && negb (Ascii.eqb "?" c)
  end.

Lemma safe_head_nonword (s : str) : safe_head s = true -> starts_nonword s = true.
Proof.
  destruct s as [|c s]; [reflexivity|]. simpl.
  intros H. now apply andb_true_iff in H.
Qed.

(** A match attempt inside [u] does not see what is appended to [u],
    unless [u] is the bare group [(?] waiting for its colon. *)
Lemma m_NAMED_PARAM_stable (u t : str) :
  u <> [] -> safe_head t = true ->
  (u = "(?" -> m_colon_word t = None) ->
  m_NAMED_PARAM (u ++ t) = m_NAMED_PARAM u.
Proof.
  intros U T G. pose proof (safe_head_nonword t T) as T'.
  unfold m_NAMED_PARAM.
  rewrite (m_colon_word_stable u t U T').
  destruct u as [|c1 [|c2 u]]; [congruence| |].
  - replace (isPrefix "(?" [c1]) with false
      by (simpl; now rewrite andb_false_r).
    replace (isPrefix "(?" ([c1] ++ t)) with false; [reflexivity|].
    simpl. destruct t as [|d t]; [now rewrite andb_false_r|].
    simpl in T. apply andb_true_iff in T. destruct T as [_ T].
    apply negb_true_iff in T. rewrite T. now rewrite andb_false_r.
  - change (isPrefix "(?" ((c1 :: c2 :: u) ++ t))
      with (isPrefix "(?" (c1 :: c2 :: u)).
    destruct (isPrefix "(?" (c1 :: c2 :: u)) eqn:P; [|reflexivity].
    change (skipn 2 ((c1 :: c2 :: u) ++ t)) with (u ++ t).
    change (skipn 2 (c1 :: c2 :: u)) with u.
    destruct u as [|c3 u].
    + simpl in P. apply andb_true_iff in P. destruct P as [P1 P2].
      apply andb_true_iff in P2. destruct P2 as [P2 _].
      apply Ascii.eqb_eq in P1, P2. subst c1 c2.
      change ([] ++ t) with t. rewrite (G eq_refl). reflexivity.
    + now rewrite (m_colon_word_stable (c3 :: u) t) by (congruence || assumption).
Qed.

(** A scan over [pre ++ t] is the scan of [pre] followed by the scan of [t]
    when no match attempt inside [pre] sees [t]. *)
Lemma replace_all_app (m : matcher) (f : str -> str) (t : str) :
  (forall s n, m s = Some n -> n <= length s) ->
  forall pre,
    (forall y u, pre = y ++ u -> u <> [] -> m (u ++ t) = m u) ->
    replace_all m f (pre ++ t) = replace_all m f pre ++ replace_all m f t.
Proof.
  intros B pre. induction pre as [pre IH] using str_length_ind. intros H.
  destruct pre as [|c x]; [reflexivity|].
  change ((c :: x) ++ t) with (c :: (x ++ t)).
  rewrite !replace_all_cons.
  change (c :: (x ++ t)) with ((c :: x) ++ t).
  rewrite (H [] (c :: x) eq_refl) by congruence.
  assert (Hx : forall k y u, skipn k x = y ++ u -> u <> [] -> m (u ++ t) = m u).
  { intros k y u E. apply (H (c :: firstn k x ++ y) u).
    simpl. rewrite <- app_assoc, <- E. now rewrite firstn_skipn. }
  destruct (m (c :: x)) as [[|n]|] eqn:E.
  - simpl. f_equal. apply IH; [simpl; lia|]. exact (Hx 0).
  - apply B in E. simpl in E.
    assert (N : n - length x = 0) by lia.
    simpl firstn. rewrite firstn_app, skipn_app, N. simpl.
    rewrite app_nil_r, <- app_assoc. f_equal.
    apply IH; [apply skipn_length_lt|]. exact (Hx n).
  - simpl. f_equal. apply IH; [simpl; lia|]. exact (Hx 0).
Qed.

Lemma named_step_app (pre t : str) :
  safe_head t = true ->
  ((exists x, pre = x ++ "(?") -> m_colon_word t = None) ->
  named_step (pre ++ t) = named_step pre ++ named_step t.
Proof.
  intros T G. apply replace_all_app.
  - intros s n E. now apply m_NAMED_PARAM_bound in E.
  - intros y u E U. apply m_NAMED_PARAM_stable; auto.
    intros ->. apply G. now exists y.
Qed.

Lemma named_step_guarded (w post : str) :
  w <> [] -> forallb is_word w = true -> starts_nonword post = true ->
  named_step ("(?:" ++ w ++ post) = "(?:" ++ w ++ named_step post.
Proof.
  intros W1 W2 P. unfold named_step.
  change ("(?:" ++ w ++ post) with ("("%char :: "?"%char :: ":"%char :: w ++ post).
  rewrite replace_all_cons.
  assert (E : m_NAMED_PARAM ("("%char :: "?"%char :: ":"%char :: w ++ post)
              = Some (S (length w + 2))).
  { unfold m_NAMED_PARAM. simpl. rewrite (span_word_app w post W2 P). simpl.
    destruct w; [congruence|]. simpl; f_equal; lia. }
  rewrite E.
  replace (firstn (S (length w + 2)) ("("%char :: "?"%char :: ":"%char :: w ++ post))
    with ("(?:" ++ w).
  2:{ simpl. replace (length w + 2) with (2 + length w) by lia. simpl.
      rewrite firstn_app, Nat.sub_diag, firstn_all. simpl. now rewrite app_nil_r. }
  replace (skipn (length w + 2) ("?"%char :: ":"%char :: w ++ post)) with post.
  2:{ replace (length w + 2) with (2 + length w) by lia. simpl.
      rewrite skipn_app, Nat.sub_diag, skipn_all. reflexivity. }
  change (isPrefix "(?" ("(?:" ++ w)) with true. cbv iota.
  now rewrite <- !app_assoc.
Qed.

Lemma named_step_plain (w post : str) :
  w <> [] -> forallb is_word w = true -> starts_nonword post = true ->
  named_step (":" ++ w ++ post) = "([^/?]+)" ++ named_step post.
Proof.
  intros W1 W2 P. unfold named_step.
  change (":" ++ w ++ post) with (":"%char :: w ++ post).
  rewrite replace_all_cons.
  assert (E : m_NAMED_PARAM (":"%char :: w ++ post) = Some (S (length w))).
  { unfold m_NAMED_PARAM. simpl. rewrite (span_word_app w post W2 P). simpl.
    destruct w; [congruence|]. reflexivity. }
  rewrite E. simpl firstn.
  rewrite skipn_app, Nat.sub_diag, skipn_all. reflexivity.
Qed.

(** C6.  In the third step of [routeToRegex], a named-parameter token that
    stands right after the two characters [(?] is left as it is, and a token
    that does not is replaced by the capture group [([^/?]+)]; the text
    before and the text after the token are compiled on their own.  So
    ['(abc)/:id'] keeps [(?:abc] and captures [:id]. *)
Theorem named_step_tokens (pre w post : str) :
  w <> [] -> forallb is_word w = true -> starts_nonword post = true ->
  (forall route st,
     fst (routeToRegex route st)
     = "^" ++ splat_step (named_step (optional_step (escape_step route)))
         ++ query_capture ++ "$")
  /\ (forall st,
       fst (routeToRegex "(abc)/:id" st)
       = ("^(?:abc)?/([^/?]+)(?:\?([\s\S]*))?$" : str))
  /\ named_step (pre ++ "(?:" ++ w ++ post)
     = named_step pre ++ "(?:" ++ w ++ named_step post
  /\ ((forall x, pre <> x ++ "(?") ->
      named_step (pre ++ ":" ++ w ++ post)
      = named_step pre ++ "([^/?]+)" ++ named_step post).
Proof.
  intros W1 W2 P. split; [exact routeToRegex_steps|].
  split; [reflexivity|]. split.
  - rewrite named_step_app; [now rewrite named_step_guarded|reflexivity|reflexivity].
  - intros N. rewrite named_step_app; [now rewrite named_step_plain|reflexivity|].
    intros [x E]. now apply N in E.
Qed.

Lemma named_step_tokens_witness :
  named_step ("/a" ++ "(?:" ++ "bc" ++ ")?") = named_step "/a" ++ "(?:" ++ "bc" ++ named_step ")?"
  /\ named_step ("(?:/" ++ ":" ++ "id" ++ ")?")
     = named_step "(?:/" ++ "([^/?]+)" ++ named_step ")?".
Proof.
  destruct (named_step_tokens "/a" "bc" ")?") as (_ & _ & H & _);
    [discriminate|reflexivity|reflexivity|].
  split; [exact H|].
  destruct (named_step_tokens "(?:/" "id" ")?") as (_ & _ & _ & G);
    [discriminate|reflexivity|reflexivity|].
  apply G. intros x E.
  apply (f_equal (@rev ascii)) in E. rewrite rev_app_distr in E. discriminate.
Defined.

(** ** C7: [build] and [smartConcat] *)

(** A part with its glue character in front, nothing for an empty part. *)
Definition glued (g : ascii) (part : str) : str :=
  match part with [] => [] | _ => g :: part end.

Lemma smartConcat_glued (host path query : str) (hash : option str) :
  smartConcat host path query hash
  = removeTrailingSlash host
    ++ glued "/" (removeTrailingSlash (removeLeadingSlash path))
    ++ glued "?" query ++ glued "#" (string_or_empty hash).
Proof.
  unfold smartConcat, glued. repeat f_equal.
  destruct hash as [[|c h]|]; reflexivity.
Qed.

Lemma removeTrailingSlash_prefix (q : str) (c : ascii) :
  isPrefix [c] q = false -> isPrefix [c] (removeTrailingSlash q) = false.
Proof.
  destruct (removeTrailingSlash_cases q) as [[E _]|E].
  - now rewrite E.
  - destruct (removeTrailingSlash q) as [|d r]; [reflexivity|].
    rewrite E. simpl. destruct (Ascii.eqb c d); [discriminate|reflexivity].
Qed.

Lemma removeLeadingSlash_prefix (p : str) :
  isPrefix "//" p = false -> isPrefix "/" (removeLeadingSlash p) = false.
Proof.
  unfold removeLeadingSlash, m_literal.
  destruct p as [|c t]; [reflexivity|]. simpl.
  destruct (Ascii.eqb "/" c) eqn:E; simpl.
  - destruct t as [|d t']; [reflexivity|]. simpl.
    destruct (Ascii.eqb "/" d); [discriminate|reflexivity].
  - intros _. now rewrite E.
Qed.

Lemma removeTrailingSlash_suffix (h : str) :
  (forall x, h <> x ++ "//") -> forall x, removeTrailingSlash h <> x ++ "/".
Proof.
  intros H x Hx. destruct (removeTrailingSlash_cases h) as [[E N]|E].
  - rewrite E in Hx. exact (N x Hx).
  - rewrite Hx in E. apply (H x). rewrite E, <- app_assoc. reflexivity.
Qed.

(** C7 (amended).  [build] of no options is the empty string.  For every
    options record whose path can be filled and whose query can be encoded,
    the URL is the host without one trailing slash, then the filled path
    without one leading and one trailing slash under a ['/'], the query
    under a ['?'] and the hash under a ['#'], an empty part bringing no
    glue character.  The slash put between host and path is the only one
    there provided the host does not end with two slashes and the filled
    path does not begin with two. *)
Theorem build_assembles (o : options) (st : regexps) (filled query : str) :
  fst (buildPath o st) = Ok filled ->
  buildQuery o = Ok query ->
  let h := removeTrailingSlash (string_or_empty (opt_host o)) in
  let p := removeTrailingSlash (removeLeadingSlash filled) in
  fst (build no_options st) = Ok []
  /\ fst (build o st)
     = Ok (h ++ glued "/" p ++ glued "?" query
             ++ glued "#" (string_or_empty (opt_hash o)))
  /\ ((forall x, string_or_empty (opt_host o) <> x ++ "//") -> forall x, h <> x ++ "/")
  /\ (isPrefix "//" filled = false -> isPrefix "/" p = false).
Proof.
  intros H Q h p. split; [reflexivity|]. split; [|split].
  - unfold build, bind_ok. destruct (buildPath o st) as [[f|e] st1]; simpl in H;
      [|discriminate].
    injection H as ->. rewrite Q. unfold ret. cbn [fst].
    now rewrite smartConcat_glued.
  - apply removeTrailingSlash_suffix.
  - intros F. apply removeTrailingSlash_prefix. now apply removeLeadingSlash_prefix.
Qed.

Definition users_42 : options :=
  mkOptions (Some ("http://a.com/" : str)) (Some ("/users/:id" : str))
    (ObjectArgs [("id" : str, VNumber 42)]) None None.

Lemma build_assembles_witness :
  fst (buildPath users_42 fresh) = Ok ("/users/42" : str)
  /\ buildQuery users_42 = Ok []
  /\ fst (build users_42 fresh) = Ok ("http://a.com/users/42" : str).
Proof.
  split; [reflexivity|]. split; [reflexivity|].
  exact (proj1 (proj2 (build_assembles users_42 fresh "/users/42" [] eq_refl eq_refl))).
Defined.

(** C7 (counterexample).  A host ending with two slashes keeps one of them
    and gets the glue slash after it. *)
Lemma build_two_slashes :
  fst (build (mkOptions (Some ("http://a.com//" : str)) (Some ("users" : str))
                NoArgs None None) fresh)
  = Ok ("http://a.com//users" : str).
Proof. reflexivity. Qed.

(** ** C8: the descriptors of [stats] *)

Lemma getParamsMatch_value (path : str) (st : regexps) :
  fst (getParamsMatch path st)
  = mkMatched (match_all m_NAMED_PARAM path) (match_all m_SPLAT_PARAMS path).
Proof.
  unfold getParamsMatch, bind, re_match, ret; simpl.
  now destruct (match_all m_NAMED_PARAM path), (match_all m_SPLAT_PARAMS path).
Qed.

Lemma stats_keyed_params (path : str) (o : object) (st : regexps) :
  params (fst (stats path (ObjectArgs o) st))
  = map (describe (match_all m_OPTIONAL_PARAMS path) o)
      (match_all m_NAMED_PARAM path ++ match_all m_SPLAT_PARAMS path).
Proof.
  unfold stats, bind. unfold re_match at 1. cbn [matcher_of].
  pose proof (getParamsMatch_value path (set_lastIndex OPTIONAL_PARAMS 0 st)) as G.
  destruct (getParamsMatch path (set_lastIndex OPTIONAL_PARAMS 0 st)) as [m st1].
  cbn [fst] in G. subst m. unfold ret at 1.
  destruct (re_test OPTIONAL_PARAMS path st1) as [b st2]. unfold ret. cbn.
  now destruct (match_all m_OPTIONAL_PARAMS path).
Qed.

(** C8 (amended).  For every pattern and keyed argument set the descriptors
    of [stats] are those of the named tokens followed by those of the splat
    tokens, and [required] is the negation of [optional].  For a token
    whose text without its first character is looked up within the own
    properties of the mapping (it is an own property, or no object inherits
    a member of that name), the value is the argument found under that
    name when it is truthy, and the empty string when it is not (absent, or
    present and falsy such as [0] or ['']).  [stats('/users/:id', {})]
    yields the single descriptor of [:id] with value [''], not optional,
    required, and one missing required parameter. *)
Theorem stats_keyed_values (path : str) (o : object) (st : regexps) :
  let r := fst (stats path (ObjectArgs o) st) in
  map name (params r) = match_all m_NAMED_PARAM path ++ match_all m_SPLAT_PARAMS path
  /\ Forall (fun d =>
       required d = negb (optional d)
       /\ (looked_up o (tl (name d)) ->
           let v := get o (tl (name d)) in
           value_of d = (if truthy v then v else VString [])
           /\ (value_of d = VString [] <-> truthy v = false))) (params r)
  /\ (let r0 := fst (stats "/users/:id" (ObjectArgs []) st) in
      params r0 = [mkDescriptor ":id" (VString []) false true]
      /\ length (missingRequiredParams r0) = 1).
Proof.
  intros r. unfold r. rewrite stats_keyed_params. split; [|split].
  - rewrite map_map. simpl. apply map_id.
  - apply Forall_forall. intros d Hd. apply in_map_iff in Hd.
    destruct Hd as (t & <- & _). simpl. split; [reflexivity|].
    intros _. split; [reflexivity|].
    destruct (get o (tl t)) as [| |b|n|s|]; simpl.
    + split; reflexivity.
    + split; reflexivity.
    + destruct b; split; congruence.
    + destruct (Z.eqb n 0); simpl; split; congruence.
    + destruct s; split; congruence.
    + split; congruence.
  - split; reflexivity.
Qed.

(** C8 (counterexample).  The mapping [{id: 0}] holds the name [id], yet the
    descriptor of [:id] has the empty string for value. *)
Lemma stats_zero_reads_as_missing :
  own [("id" : str, VNumber 0)] "id" = Some (VNumber 0)
  /\ map value_of (params (fst (stats "/users/:id" (ObjectArgs [("id" : str, VNumber 0)]) fresh)))
     = [VString []].
Proof. split; reflexivity. Qed.

(** ** C9: keyed arguments *)

(** Neither a colon nor a question mark. *)
Definition plain (c : ascii) : bool :=
  negb (Ascii.eqb ":" c) && negb (Ascii.eqb "?" c).

(** The characters of an encoded argument: plain, and no dollar. *)
Definition inert (c : ascii) : bool := plain c && negb (Ascii.eqb "$" c).

Lemma hex_digit_inert (n : nat) : inert (hex_digit n) = true.
Proof.
  do 16 (destruct n as [|n]; [reflexivity|]). now destruct n.
Qed.

Lemma percent_inert (n : nat) : forallb inert (percent n) = true.
Proof.
  unfold percent. cbn [forallb]. now rewrite !hex_digit_inert.
Qed.

Lemma encode_unit_inert (c : ascii) : forallb inert (encode_unit c) = true.
Proof.
  unfold encode_unit. destruct (is_unreserved c) eqn:U.
  - cbn [forallb]. rewrite andb_true_r. unfold inert, plain.
    destruct (Ascii.eqb_spec ":" c) as [<-|]; [discriminate|].
    destruct (Ascii.eqb_spec "?" c) as [<-|]; [discriminate|].
    destruct (Ascii.eqb_spec "$" c) as [<-|]; [discriminate|reflexivity].
  - destruct (code c <? 128).
    + apply percent_inert.
    + rewrite forallb_app. now rewrite !percent_inert.
Qed.

Lemma encode_inert (s : str) : forallb inert (encode s) = true.
Proof.
  unfold encode. induction s as [|c s IH]; [reflexivity|].
  simpl. rewrite forallb_app. now rewrite encode_unit_inert, IH.
Qed.

(** The text [replaceArg] inserts for a value that can be encoded. *)
Definition injected (v : value) : str :=
  match encodeURIComponent v with Ok e => e | Throw _ => [] end.

Lemma encodeURIComponent_injected (v : value) :
  v <> VUnpaired -> encodeURIComponent v = Ok (injected v).
Proof.
  intros H. unfold injected.
  destruct (encodeURIComponent v) as [e|x] eqn:E; [reflexivity|].
  apply encodeURIComponent_throws in E. now destruct E.
Qed.

Lemma injected_plain (v : value) : forallb plain (injected v) = true.
Proof.
  unfold injected, encodeURIComponent.
  destruct (ToString v) as [s|]; [|reflexivity].
  pose proof (encode_inert s) as H. rewrite forallb_forall in *.
  intros c Hc. apply H in Hc. unfold inert in Hc. now apply andb_true_iff in Hc.
Qed.

(** What [replaceArg] inserts holds no dollar: [replace] reads no
    replacement pattern in it. *)
Lemma encoded_no_dollar (v : value) (e : str) :
  encodeURIComponent v = Ok e -> ~ In "$"%char e.
Proof.
  unfold encodeURIComponent. destruct (ToString v) as [s|]; [|discriminate].
  intros E H. injection E as <-. pose proof (encode_inert s) as P.
  rewrite forallb_forall in P. apply P in H. discriminate.
Qed.

Lemma own_missing_undefined (o : object) (k : str) :
  own o k = None -> injected (get o k) = "undefined".
Proof. intros H. unfold get. now rewrite H. Qed.

(** A pattern cut into its literal characters and its named parameters. *)
Inductive segment : Type :=
  | Lit (c : ascii)
  | Param (w : str).

Definition segment_text (s : segment) : str :=
  match s with Lit c => [c] | Param w => ":"%char :: w end.

Definition pattern_of (segs : list segment) : str := flat_map segment_text segs.

Fixpoint names (segs : list segment) : list str :=
  match segs with
  | [] => []
  | Lit _ :: r => names r
  | Param w :: r => w :: names r
  end.

(** Literal characters are neither a colon nor a question mark; a name is
    a non-empty run of word characters that the next character does not
    continue. *)
Fixpoint well_formed (segs : list segment) : bool :=
  match segs with
  | [] => true
  | Lit c :: r =>
      negb (Ascii.eqb ":" c) && negb (Ascii.eqb "?" c) && well_formed r
  | Param w :: r =>
      match w with [] => false | _ => true end
      && forallb is_word w && starts_nonword (pattern_of r) && well_formed r
  end.

(** The pattern with the texts [es] in the place of its first parameters. *)
Fixpoint fill (segs : list segment) (es : list str) : str :=
  match segs with
  | [] => []
  | Lit c :: r => c :: fill r es
  | Param w :: r =>
      match es with
      | e :: es' => e ++ fill r es'
      | [] => ":"%char :: w ++ fill r []
      end
  end.

(** The pattern with each parameter replaced by the encoded argument of its
    name. *)
Definition filled (o : object) (segs : list segment) : str :=
  flat_map (fun s => match s with
                     | Lit c => [c]
                     | Param w => injected (get o w)
                     end) segs.

Lemma fill_nil (segs : list segment) : fill segs [] = pattern_of segs.
Proof.
  induction segs as [|[c|w] r IH]; simpl; [reflexivity| |]; now rewrite IH.
Qed.

Lemma fill_names (o : object) (segs : list segment) :
  fill segs (map (fun w => injected (get o w)) (names segs)) = filled o segs.
Proof.
  induction segs as [|[c|w] r IH]; simpl; [reflexivity| |]; now rewrite IH.
Qed.

Lemma m_NAMED_PARAM_token (w rest : str) :
  w <> [] -> forallb is_word w = true -> starts_nonword rest = true ->
  m_NAMED_PARAM (":"%char :: w ++ rest) = Some (S (length w)).
Proof.
  intros W1 W2 P. unfold m_NAMED_PARAM. simpl.
  rewrite (span_word_app w rest W2 P). simpl.
  destruct w; [congruence|reflexivity].
Qed.

(** No match starts on a character that is neither a colon nor the opening
    of [(?]. *)
Lemma m_NAMED_PARAM_plain (c : ascii) (s : str) :
  Ascii.eqb ":" c = false ->
  match s with [] => true | d :: _ => negb (Ascii.eqb "?" d) end = true ->
  m_NAMED_PARAM (c :: s) = None.
Proof.
  intros C S. unfold m_NAMED_PARAM.
  replace (isPrefix "(?" (c :: s)) with false.
  - simpl. rewrite Ascii.eqb_sym, C. reflexivity.
  - simpl. destruct s as [|d s]; [now rewrite andb_false_r|].
    simpl. apply negb_true_iff in S. rewrite S. now rewrite andb_false_r.
Qed.

Lemma well_formed_head (segs : list segment) :
  well_formed segs = true ->
  match pattern_of segs with [] => true | d :: _ => negb (Ascii.eqb "?" d) end = true.
Proof.
  destruct segs as [|[c|w] r]; simpl; [reflexivity| |reflexivity].
  intros H. apply andb_true_iff in H. destruct H as [H _].
  now apply andb_true_iff in H.
Qed.

Lemma tokens_of_pattern (segs : list segment) :
  well_formed segs = true ->
  match_all m_NAMED_PARAM (pattern_of segs) = map (fun w => ":"%char :: w) (names segs).
Proof.
  induction segs as [|[c|w] r IH]; intros W; [reflexivity| |].
  - simpl in W. apply andb_true_iff in W. destruct W as [W Wr].
    apply andb_true_iff in W. destruct W as [C Q].
    change (pattern_of (Lit c :: r)) with (c :: pattern_of r).
    rewrite match_all_cons, m_NAMED_PARAM_plain.
    + now apply IH.
    + now apply negb_true_iff.
    + now apply well_formed_head.
  - simpl in W. apply andb_true_iff in W. destruct W as [W Wr].
    apply andb_true_iff in W. destruct W as [W P].
    apply andb_true_iff in W. destruct W as [W1 W2].
    assert (w <> []) as Hw by (destruct w; [discriminate|congruence]).
    change (pattern_of (Param w :: r)) with (":"%char :: w ++ pattern_of r).
    rewrite match_all_cons, (m_NAMED_PARAM_token w _ Hw W2 P).
    simpl firstn. rewrite firstn_app, Nat.sub_diag, firstn_all. simpl.
    rewrite app_nil_r, skipn_app, Nat.sub_diag, skipn_all. simpl.
    now rewrite IH.
Qed.

Lemma plain_not_colon (c : ascii) : plain c = true -> Ascii.eqb ":" c = false.
Proof.
  unfold plain. intros H. apply andb_true_iff in H. destruct H as [H _].
  now apply negb_true_iff.
Qed.

Lemma plain_not_question (c : ascii) : plain c = true -> negb (Ascii.eqb "?" c) = true.
Proof.
  unfold plain. intros H. now apply andb_true_iff in H.
Qed.

(** The first match of [NAMED_PARAM] in a text whose beginning is free of
    colons and question marks is the first token after that beginning. *)
Lemma replace_first_token (x e w rest : str) :
  forallb plain x = true ->
  w <> [] -> forallb is_word w = true -> starts_nonword rest = true ->
  replace_first m_NAMED_PARAM e (x ++ ":"%char :: w ++ rest) = x ++ e ++ rest.
Proof.
  intros X W1 W2 P. induction x as [|c x IH].
  - simpl app. cbn [replace_first]. rewrite (m_NAMED_PARAM_token w rest W1 W2 P).
    cbn [skipn]. now rewrite skipn_app, Nat.sub_diag, skipn_all.
  - simpl in X. apply andb_true_iff in X. destruct X as [C X].
    change ((c :: x) ++ ":"%char :: w ++ rest) with (c :: (x ++ ":"%char :: w ++ rest)).
    cbn [replace_first]. rewrite m_NAMED_PARAM_plain.
    + simpl. now rewrite (IH X).
    + now apply plain_not_colon.
    + destruct x as [|d x]; [reflexivity|]. simpl in X.
      apply andb_true_iff in X. destruct X as [D _]. simpl.
      now apply plain_not_question.
Qed.

Lemma contains_colon (x rest : str) : contains ":" (x ++ ":"%char :: rest) = true.
Proof.
  unfold contains, has_match. induction x as [|c x IH]; [reflexivity|].
  cbn [app search]. destruct (m_literal _ (c :: _)); [reflexivity|].
  destruct (search _ _) as [[i n]|]; [reflexivity|discriminate].
Qed.

(** Each value, encoded, takes the place of the next parameter. *)
Lemma inject_aligned (segs : list segment) :
  well_formed segs = true ->
  forall (vs : list value) (x : str) (st : regexps),
    forallb plain x = true ->
    length vs <= length (names segs) ->
    ~ In VUnpaired vs ->
    fold_ok replaceArg vs (x ++ pattern_of segs) st
    = (Ok (x ++ fill segs (map injected vs)), st).
Proof.
  induction segs as [|[c|w] r IH]; intros W vs x st X L U.
  - destruct vs; [reflexivity|simpl in L; lia].
  - simpl in W. apply andb_true_iff in W. destruct W as [W Wr].
    apply andb_true_iff in W. destruct W as [C Q].
    change (x ++ pattern_of (Lit c :: r)) with (x ++ [c] ++ pattern_of r).
    rewrite app_assoc, (IH Wr vs (x ++ [c]) st).
    + now rewrite <- app_assoc.
    + rewrite forallb_app, X. simpl. unfold plain. now rewrite C, Q.
    + exact L.
    + exact U.
  - simpl in W. apply andb_true_iff in W. destruct W as [W Wr].
    apply andb_true_iff in W. destruct W as [W P].
    apply andb_true_iff in W. destruct W as [W1 W2].
    assert (w <> []) as Hw by (destruct w; [discriminate|congruence]).
    change (pattern_of (Param w :: r)) with (":"%char :: w ++ pattern_of r).
    destruct vs as [|v vs].
    + simpl. now rewrite fill_nil.
    + cbn [fold_ok]. unfold bind_ok, replaceArg at 1.
      rewrite encodeURIComponent_injected by (intros ->; apply U; now left).
      rewrite contains_colon. unfold ret at 1.
      rewrite (replace_first_token x (injected v) w _ X Hw W2 P).
      rewrite app_assoc, (IH Wr vs (x ++ injected v) st).
      * simpl. now rewrite <- app_assoc.
      * rewrite forallb_app, X. apply injected_plain.
      * simpl in L. lia.
      * intros H. apply U. now right.
Qed.

(** *** Literal colons and question marks *)

(** Does a match of [NAMED_PARAM] start at the head of [s]: [:\w] or
    [(?:\w]. *)
Definition token_start (s : str) : bool :=
  match s with
  | c :: t =>
      (Ascii.eqb ":" c && negb (starts_nonword t))
      || (Ascii.eqb "(" c
          && match t with
             | q :: k :: t' => Ascii.eqb "?" q && Ascii.eqb ":" k && negb (starts_nonword t')
             | _ => false
             end)
  | [] => false
  end.

Definition heads_param (segs : list segment) : bool :=
  match segs with Param _ :: _ => true | _ => false end.

(** [placed open colon segs]: the segments are the tokens and the other
    characters of their text, and no injected value can make a token with
    the text around it.  [open] and [colon] tell whether the text before may
    end with an opening parenthesis and with a colon.

    - A name is a non-empty run of word characters that the next character
      does not continue, and a literal colon stands before no word
      character (it would begin a token).
    - A parameter right after a literal colon is the last one: its value
      would continue the colon into a token.
    - No parameter comes right after a literal question mark that itself
      comes right after an opening parenthesis or after a parameter (whose
      value may be empty or end with a parenthesis): [(?] would join the
      token. *)
Fixpoint placed (open colon : bool) (segs : list segment) : bool :=
  match segs with
  | [] => true
  | Lit c :: r =>
      (if Ascii.eqb ":" c then starts_nonword (pattern_of r) else true)
      && (if Ascii.eqb "?" c && open then negb (heads_param r) else true)
      && placed (Ascii.eqb "(" c) (Ascii.eqb ":" c) r
  | Param w :: r =>
      (if colon then match names r with [] => true | _ => false end else true)
      && match w with [] => false | _ => true end
      && forallb is_word w && starts_nonword (pattern_of r)
      && placed true false r
  end.

(** No match of [NAMED_PARAM] starts within [x] when [y] follows it. *)
Definition quiet (x y : str) : Prop :=
  forall v u, x = v ++ u -> u <> [] -> token_start (u ++ y) = false.

Lemma m_colon_word_start (s : str) :
  match s with c :: t => Ascii.eqb ":" c && negb (starts_nonword t) | [] => false end
  = false ->
  m_colon_word s = None.
Proof.
  destruct s as [|c t]; [reflexivity|]. unfold m_colon_word.
  rewrite (Ascii.eqb_sym c ":"). destruct (Ascii.eqb ":" c); [|reflexivity].
  destruct t as [|d t]; [reflexivity|]. simpl.
  destruct (is_word d); [discriminate|reflexivity].
Qed.

Lemma m_NAMED_PARAM_start (s : str) :
  token_start s = false -> m_NAMED_PARAM s = None.
Proof.
  intros H. unfold m_NAMED_PARAM.
  destruct s as [|c t]; [reflexivity|].
  unfold token_start in H. apply orb_false_iff in H. destruct H as [H1 H2].
  rewrite (m_colon_word_start (c :: t) H1).
  destruct (isPrefix "(?" (c :: t)) eqn:P; [|reflexivity].
  destruct t as [|q t]; [simpl in P; now rewrite andb_false_r in P|].
  cbn [isPrefix list_ascii_of_string] in P.
  apply andb_true_iff in P. destruct P as [P1 P2].
  apply andb_true_iff in P2. destruct P2 as [P2 _].
  rewrite P1, P2 in H2. cbn [andb] in H2. cbn [skipn].
  destruct t as [|k t']; [reflexivity|].
  now rewrite (m_colon_word_start (k :: t') H2).
Qed.

Lemma quiet_nil (y : str) : quiet [] y.
Proof.
  intros v u E U. symmetry in E. apply app_eq_nil in E. now destruct E.
Qed.

Lemma quiet_snoc (x y : str) (c : ascii) :
  quiet x (c :: y) -> token_start (c :: y) = false -> quiet (x ++ [c]) y.
Proof.
  intros Q T v u E U.
  destruct (exists_last U) as (u0 & d & ->).
  rewrite app_assoc in E. apply app_inj_tail in E. destruct E as [E <-].
  rewrite <- app_assoc. cbn [app].
  destruct u0 as [|a u0]; [exact T|].
  apply (Q v (a :: u0) E). discriminate.
Qed.

Lemma replace_first_quiet (x y e : str) :
  quiet x y ->
  replace_first m_NAMED_PARAM e (x ++ y) = x ++ replace_first m_NAMED_PARAM e y.
Proof.
  induction x as [|c x IH]; intros Q; [reflexivity|].
  cbn [app replace_first].
  rewrite (m_NAMED_PARAM_start (c :: x ++ y)) by (apply (Q [] (c :: x)); [reflexivity|discriminate]).
  f_equal. apply IH. intros v u E U. apply (Q (c :: v) u); [now rewrite E|exact U].
Qed.

Lemma token_start_token (w rest : str) :
  w <> [] -> forallb is_word w = true ->
  negb (starts_nonword (w ++ rest)) = true.
Proof.
  intros W1 W2. destruct w as [|c w]; [congruence|]. simpl in *.
  apply andb_true_iff in W2. destruct W2 as [W2 _]. now rewrite W2.
Qed.

(** The first match of [NAMED_PARAM] after a quiet beginning is the token
    that follows it. *)
Lemma replace_first_placed (x e w rest : str) :
  quiet x (":"%char :: w ++ rest) ->
  w <> [] -> forallb is_word w = true -> starts_nonword rest = true ->
  replace_first m_NAMED_PARAM e (x ++ ":"%char :: w ++ rest) = x ++ e ++ rest.
Proof.
  intros Q W1 W2 P. rewrite (replace_first_quiet _ _ e Q). f_equal.
  cbn [replace_first]. rewrite (m_NAMED_PARAM_token w rest W1 W2 P).
  cbn [skipn]. now rewrite skipn_app, Nat.sub_diag, skipn_all.
Qed.

Lemma plain_cases (c : ascii) :
  plain c = true -> Ascii.eqb ":" c = false /\ Ascii.eqb "?" c = false.
Proof.
  unfold plain. intros H. apply andb_true_iff in H. destruct H as [H1 H2].
  now apply negb_true_iff in H1, H2.
Qed.

Definition question_colon_word (s : str) : bool :=
  match s with
  | q :: k :: t => Ascii.eqb "?" q && Ascii.eqb ":" k && negb (starts_nonword t)
  | _ => false
  end.

Lemma token_start_open (s : str) :
  token_start ("("%char :: s) = question_colon_word s.
Proof. reflexivity. Qed.

Lemma token_start_cons (c : ascii) (s : str) :
  token_start (c :: s)
  = (Ascii.eqb ":" c && negb (starts_nonword s))
    || (Ascii.eqb "(" c && question_colon_word s).
Proof. reflexivity. Qed.

Lemma question_colon_word_plain (e s : str) :
  e <> [] -> forallb plain e = true -> question_colon_word (e ++ s) = false.
Proof.
  intros N E. destruct e as [|a e]; [congruence|].
  cbn [forallb] in E. apply andb_true_iff in E. destruct E as [A _].
  apply plain_cases in A. destruct A as [_ A]. cbn [app].
  unfold question_colon_word. rewrite A. now destruct (e ++ s).
Qed.

(** A value in the place of a token keeps the beginning quiet, when the
    beginning does not end with a colon and the text after the token does
    not go on with [?:\w]. *)
Lemma quiet_filled (x e w rest : str) :
  quiet x (":"%char :: w ++ rest) ->
  w <> [] -> forallb is_word w = true ->
  (forall v, x <> v ++ ":") ->
  forallb plain e = true ->
  question_colon_word rest = false ->
  quiet (x ++ e) rest.
Proof.
  intros Q W1 W2 C E T v u H U.
  pose proof (token_start_token w rest W1 W2) as K.
  assert (P : forall e' s, forallb plain e' = true -> e' <> [] ->
                token_start (e' ++ s) = false
                \/ (e' = "(" /\ token_start (e' ++ s) = question_colon_word s)).
  { intros e' s E' N. destruct e' as [|a e']; [congruence|].
    cbn [forallb] in E'. apply andb_true_iff in E'. destruct E' as [A E'].
    apply plain_cases in A. destruct A as [A1 A2].
    cbn [app]. rewrite token_start_cons, A1. cbn [andb orb].
    destruct (Ascii.eqb_spec "(" a) as [<-|]; [|now left]. cbn [andb].
    destruct e' as [|b e']; [now right|left].
    apply question_colon_word_plain; [discriminate|exact E']. }
  apply app_eq_app in H. destruct H as (l & [[H1 H2]|[H1 H2]]).
  - (* [u] begins in [x] *)
    subst u. destruct l as [|c l].
    + cbn [app] in *. destruct (P e rest E U) as [R|[_ R]]; [exact R|].
      now rewrite R.
    + pose proof (Q v (c :: l) H1 ltac:(discriminate)) as O.
      cbn [app] in O |- *. rewrite token_start_cons in O |- *.
      apply orb_false_iff in O. destruct O as [O1 O2].
      apply orb_false_iff. split.
      * destruct (Ascii.eqb_spec ":" c) as [<-|]; [|reflexivity]. cbn [andb] in *.
        destruct l as [|d l]; [now destruct (C v)|exact O1].
      * destruct (Ascii.eqb "(" c) eqn:Cc; [|reflexivity]. cbn [andb] in *.
        destruct l as [|d1 [|d2 [|d3 l]]]; cbn [app] in *.
        -- destruct e as [|a e]; [exact T|].
           apply question_colon_word_plain; [discriminate|exact E].
        -- unfold question_colon_word in O2 |- *.
           destruct (Ascii.eqb "?" d1); [|now destruct (e ++ rest)].
           rewrite Ascii.eqb_refl, K in O2. discriminate.
        -- unfold question_colon_word in O2 |- *.
           destruct (Ascii.eqb "?" d1); [|reflexivity]. cbn [andb] in *.
           destruct (Ascii.eqb_spec ":" d2) as [<-|]; [|reflexivity].
           destruct (C (v ++ [c; d1])). rewrite H1. now rewrite <- app_assoc.
        -- exact O2.
  - (* [u] lies in [e] *)
    subst e. rewrite forallb_app in E. apply andb_true_iff in E. destruct E as [_ E].
    destruct (P u rest E U) as [R|[_ R]]; [exact R|]. now rewrite R.
Qed.

Lemma placed_question (colon : bool) (segs : list segment) :
  placed true colon segs = true -> question_colon_word (pattern_of segs) = false.
Proof.
  destruct segs as [|[q|w] r]; [reflexivity| |].
  2:{ intros _. change (pattern_of (Param w :: r)) with (":"%char :: w ++ pattern_of r).
      unfold question_colon_word. now destruct (w ++ pattern_of r). }
  cbn [placed]. intros H. apply andb_true_iff in H. destruct H as [H Hr].
  apply andb_true_iff in H. destruct H as [_ H]. rewrite andb_true_r in H.
  change (pattern_of (Lit q :: r)) with (q :: pattern_of r).
  destruct r as [|[k|w] r']; [reflexivity| |].
  - change (pattern_of (Lit k :: r')) with (k :: pattern_of r').
    cbn [question_colon_word]. cbn [placed] in Hr.
    destruct (Ascii.eqb ":" k); [|now rewrite andb_false_r].
    apply andb_true_iff in Hr. destruct Hr as [Hr _].
    apply andb_true_iff in Hr. destruct Hr as [Hr _].
    rewrite Hr. now rewrite andb_false_r.
  - change (pattern_of (Lit q :: Param w :: r'))
      with (q :: ":"%char :: w ++ pattern_of r') in *.
    cbn [question_colon_word].
    destruct (Ascii.eqb "?" q); [discriminate H|reflexivity].
Qed.

(** A literal character begins no token. *)
Lemma placed_literal (open colon : bool) (c : ascii) (r : list segment) :
  placed open colon (Lit c :: r) = true -> token_start (c :: pattern_of r) = false.
Proof.
  cbn [placed]. intros H. apply andb_true_iff in H. destruct H as [H Hr].
  apply andb_true_iff in H. destruct H as [H _].
  rewrite token_start_cons. apply orb_false_iff. split.
  - destruct (Ascii.eqb ":" c); [|reflexivity]. now rewrite H.
  - destruct (Ascii.eqb "(" c); [|reflexivity].
    now rewrite (placed_question _ _ Hr).
Qed.

Lemma placed_param (open colon : bool) (w : str) (r : list segment) :
  placed open colon (Param w :: r) = true ->
  (colon = true -> names r = [])
  /\ w <> [] /\ forallb is_word w = true
  /\ starts_nonword (pattern_of r) = true /\ placed true false r = true.
Proof.
  cbn [placed]. intros H.
  apply andb_true_iff in H. destruct H as [H Hr].
  apply andb_true_iff in H. destruct H as [H P].
  apply andb_true_iff in H. destruct H as [H W2].
  apply andb_true_iff in H. destruct H as [C W1].
  repeat split; try assumption.
  - intros ->. now destruct (names r).
  - now destruct w.
Qed.

Lemma tokens_of_placed (segs : list segment) (open colon : bool) :
  placed open colon segs = true ->
  match_all m_NAMED_PARAM (pattern_of segs) = map (fun w => ":"%char :: w) (names segs).
Proof.
  revert open colon. induction segs as [|[c|w] r IH]; intros open colon W; [reflexivity| |].
  - change (pattern_of (Lit c :: r)) with (c :: pattern_of r).
    rewrite match_all_cons, (m_NAMED_PARAM_start _ (placed_literal _ _ _ _ W)).
    cbn [placed] in W. apply andb_true_iff in W. destruct W as [_ W].
    now apply (IH _ _ W).
  - destruct (placed_param _ _ _ _ W) as (_ & W1 & W2 & P & Wr).
    change (pattern_of (Param w :: r)) with (":"%char :: w ++ pattern_of r).
    rewrite match_all_cons, (m_NAMED_PARAM_token w _ W1 W2 P).
    simpl firstn. rewrite firstn_app, Nat.sub_diag, firstn_all. simpl.
    rewrite app_nil_r, skipn_app, Nat.sub_diag, skipn_all. simpl.
    now rewrite (IH _ _ Wr).
Qed.

Lemma plain_no_final_colon (x e : str) :
  (forall v, x <> v ++ ":") -> forallb plain e = true ->
  forall v, x ++ e <> v ++ ":".
Proof.
  intros C E v H. destruct e as [|a e] using rev_ind.
  - rewrite app_nil_r in H. now apply (C v).
  - rewrite app_assoc in H. apply app_inj_tail in H. destruct H as [_ ->].
    rewrite forallb_app in E. apply andb_true_iff in E. destruct E as [_ E].
    discriminate E.
Qed.

(** Each value, encoded, takes the place of the next parameter. *)
Lemma inject_placed (segs : list segment) :
  forall (open colon : bool) (vs : list value) (x : str) (st : regexps),
    placed open colon segs = true ->
    quiet x (pattern_of segs) ->
    (colon = false -> forall v, x <> v ++ ":") ->
    length vs <= length (names segs) ->
    ~ In VUnpaired vs ->
    fold_ok replaceArg vs (x ++ pattern_of segs) st
    = (Ok (x ++ fill segs (map injected vs)), st).
Proof.
  induction segs as [|[c|w] r IH]; intros open colon vs x st W Q C L U.
  - destruct vs; [reflexivity|simpl in L; lia].
  - pose proof (placed_literal _ _ _ _ W) as T.
    cbn [placed] in W. apply andb_true_iff in W. destruct W as [_ Wr].
    change (x ++ pattern_of (Lit c :: r)) with (x ++ [c] ++ pattern_of r).
    rewrite app_assoc, (IH _ _ vs (x ++ [c]) st Wr).
    + now rewrite <- app_assoc.
    + now apply quiet_snoc.
    + intros E v H. apply app_inj_tail in H. destruct H as [_ H].
      rewrite H, Ascii.eqb_refl in E. discriminate E.
    + exact L.
    + exact U.
  - destruct (placed_param _ _ _ _ W) as (N & W1 & W2 & P & Wr).
    change (pattern_of (Param w :: r)) with (":"%char :: w ++ pattern_of r) in *.
    destruct vs as [|v vs].
    + simpl. now rewrite fill_nil.
    + cbn [fold_ok]. unfold bind_ok, replaceArg at 1.
      rewrite encodeURIComponent_injected by (intros ->; apply U; now left).
      rewrite contains_colon. unfold ret at 1.
      rewrite (replace_first_placed x (injected v) w _ Q W1 W2 P).
      destruct vs as [|v' vs].
      * simpl. now rewrite fill_nil.
      * assert (colon = false) as Hc.
        { destruct colon; [|reflexivity]. cbn [names length] in L.
          rewrite (N eq_refl) in L. simpl in L. lia. }
        rewrite app_assoc, (IH true false (v' :: vs) (x ++ injected v) st Wr).
        -- cbn [map fill]. now rewrite <- app_assoc.
        -- apply (quiet_filled x (injected v) w _ Q W1 W2 (C Hc) (injected_plain v)).
           now apply (placed_question false).
        -- intros _. apply plain_no_final_colon; [exact (C Hc)|apply injected_plain].
        -- simpl in L |- *. lia.
        -- intros H. apply U. now right.
Qed.

(** A text without an opening parenthesis has no optional group to remove. *)
Lemma cleanOptional_no_group (p : str) (st : regexps) :
  ~ In "("%char p -> fst (cleanOptional p st) = p.
Proof.
  intros N. unfold cleanOptional, bind, re_match. cbn [matcher_of].
  assert (match_all m_OPTIONAL_PARAMS p = []) as ->; [|reflexivity].
  induction p as [|c t IH]; [reflexivity|].
  rewrite match_all_cons.
  assert (m_OPTIONAL_PARAMS (c :: t) = None) as ->.
  { unfold m_OPTIONAL_PARAMS. destruct (Ascii.eqb_spec c "(") as [->|]; [|reflexivity].
    destruct N. now left. }
  apply IH. intros H. apply N. now right.
Qed.


Definition users_id : list segment :=
  map Lit ("/users/" : str) ++ [Param "id"].

Definition host_users_id : list segment :=
  map Lit ("http://a.com/users/" : str) ++ [Param "id"] ++ map Lit ("?s=1" : str).



(** The question mark of [placed]: after [(?] the token of [:id] is
    ['(?:id'] and the name read from it ['?:id'], so the value of [id] is
    not injected; and a value that ends with an opening parenthesis makes
    the same token with the ['?:b'] after it, which the next value then
    replaces as a whole. *)
Lemma question_mark_joins_token :
  fst (parse (Some ("(?:id" : str)) (ObjectArgs [("id" : str, VNumber 5)]) fresh)
  = Ok ("undefined" : str)
  /\ fst (parse (Some ("/:a?:b" : str))
            (ObjectArgs [("a" : str, VString "("); ("b" : str, VString "y")]) fresh)
     = Ok ("/y" : str).
Proof. split; reflexivity. Qed.

(** ** C10: the result of [parse] on arguments that are not empty *)




(* ===================================================================== *)
(** * Further properties of the module *)
(* ===================================================================== *)

(** ** [isEmpty] *)

(** X1.  [isEmpty] takes for empty the missing argument set, the array
    without elements, the object without own property, and any object
    whose [length] is the number 0; nothing else. *)
Theorem isEmpty_iff (a : arguments) :
  isEmpty a = true
  <-> a = NoArgs \/ a = ArrayArgs []
      \/ exists o, a = ObjectArgs o /\ (o = [] \/ get o "length" = VNumber 0).
Proof.
  destruct a as [|l|o].
  - split; [now left|reflexivity].
  - destruct l as [|v l]; simpl.
    + split; [intros _; right; now left|reflexivity].
    + split; [discriminate|].
      intros [H|[H|(o & H & _)]]; discriminate.
  - split.
    + intros E. right. right. exists o. split; [reflexivity|].
      destruct o as [|kv o]; [now left|]. right.
      destruct (is_zero (get (kv :: o) "length")) eqn:Z;
        [now apply is_zero_spec|].
      assert (isEmpty (ObjectArgs (kv :: o)) = false); [|congruence].
      apply isEmpty_object_false. split; [discriminate|].
      intros H. apply is_zero_spec in H. congruence.
    + intros [H|[H|(o' & H & G)]]; try discriminate. injection H as <-.
      destruct (isEmpty (ObjectArgs o)) eqn:E; [reflexivity|].
      apply isEmpty_object_false in E. destruct E as [E1 E2].
      destruct G; contradiction.
Qed.

(** ** [removeTrailingSlash] and [removeLeadingSlash] *)

Lemma removeLeadingSlash_cons (p : str) : removeLeadingSlash ("/"%char :: p) = p.
Proof. reflexivity. Qed.

Lemma removeLeadingSlash_other (p : str) :
  isPrefix "/" p = false -> removeLeadingSlash p = p.
Proof. intros H. unfold removeLeadingSlash, m_literal. now rewrite H. Qed.

(** X2.  [removeTrailingSlash] undoes the addition of one slash at the end
    and [removeLeadingSlash] that of one slash at the front, whatever the
    path; a path that does not end (begin) with a slash is returned as it
    is, and neither function removes more than one character. *)
Theorem slash_removed_once (p : str) :
  removeTrailingSlash (p ++ "/") = p
  /\ removeLeadingSlash ("/" ++ p) = p
  /\ ((forall x, p <> x ++ "/") -> removeTrailingSlash p = p)
  /\ (isPrefix "/" p = false -> removeLeadingSlash p = p)
  /\ length p <= length (removeTrailingSlash p) + 1
  /\ length p <= length (removeLeadingSlash p) + 1.
Proof.
  split; [|split; [|split; [|split; [|split]]]].
  - destruct (removeTrailingSlash_cases (p ++ "/")) as [[_ N]|E].
    + now destruct (N p).
    + apply app_inj_tail in E. now destruct E.
  - apply removeLeadingSlash_cons.
  - intros N. destruct (removeTrailingSlash_cases p) as [[E _]|E]; [exact E|].
    now destruct (N (removeTrailingSlash p)).
  - apply removeLeadingSlash_other.
  - destruct (removeTrailingSlash_cases p) as [[E _]|E].
    + rewrite E. lia.
    + rewrite E at 1. rewrite length_app. simpl. lia.
  - unfold removeLeadingSlash, m_literal.
    destruct (isPrefix "/" p); [|lia]. simpl.
    destruct p; simpl; lia.
Qed.

(** ** [getParamsMatch] *)

(** Every text [match] collects is the text a match of the constant covers
    at some position of the input. *)
Lemma match_all_In (m : matcher) (s t : str) :
  In t (match_all m s) ->
  exists pre post n, s = pre ++ post /\ m post = Some (S n) /\ t = firstn (S n) post.
Proof.
  induction s as [s IH] using str_length_ind. destruct s as [|c s]; [intros []|].
  rewrite match_all_cons. destruct (m (c :: s)) as [[|n]|] eqn:E.
  - intros H. apply IH in H; [|simpl; lia].
    destruct H as (pre & post & k & -> & H). now exists (c :: pre), post, k.
  - intros [<-|H].
    + now exists [], (c :: s), n.
    + apply IH in H; [|apply skipn_length_lt].
      destruct H as (pre & post & k & P & H).
      exists (c :: firstn n s ++ pre), post, k. split; [|exact H].
      simpl. now rewrite <- app_assoc, <- P, firstn_skipn.
  - intros H. apply IH in H; [|simpl; lia].
    destruct H as (pre & post & k & -> & H). now exists (c :: pre), post, k.
Qed.

Lemma span_word_split (s : str) :
  s = fst (span_word s) ++ snd (span_word s)
  /\ forallb is_word (fst (span_word s)) = true.
Proof.
  induction s as [|c s [IH1 IH2]]; simpl; [now split|].
  destruct (is_word c) eqn:W; [|now split].
  destruct (span_word s) as [w r]. simpl in *. rewrite W, IH2.
  split; [now rewrite <- IH1|reflexivity].
Qed.

(** A name: a run of word characters that is not empty. *)
Definition is_name (w : str) : Prop := w <> [] /\ forallb is_word w = true.

Lemma m_colon_word_text (s : str) (n : nat) :
  m_colon_word s = Some n ->
  exists w, is_name w /\ firstn n s = ":"%char :: w.
Proof.
  destruct s as [|c t]; simpl; [discriminate|].
  destruct (Ascii.eqb_spec c ":") as [->|]; [|discriminate].
  destruct (span_word_split t) as [S W].
  destruct (fst (span_word t)) as [|d w] eqn:F; [discriminate|].
  intros E. injection E as <-. exists (d :: w). split; [split; [discriminate|exact W]|].
  rewrite S at 1. simpl. do 2 f_equal.
  now rewrite firstn_app, Nat.sub_diag, firstn_all, app_nil_r.
Qed.

Lemma m_NAMED_PARAM_text (s : str) (n : nat) :
  m_NAMED_PARAM s = Some n ->
  exists w, is_name w /\ (firstn n s = ":"%char :: w \/ firstn n s = "(?:" ++ w).
Proof.
  unfold m_NAMED_PARAM. destruct (isPrefix "(?" s) eqn:P.
  - destruct (m_colon_word (skipn 2 s)) as [k|] eqn:K; simpl.
    + intros E. injection E as <-. apply m_colon_word_text in K.
      destruct K as (w & W & K). exists w. split; [exact W|]. right.
      destruct s as [|a [|b s]]; simpl in P;
        [discriminate|rewrite andb_false_r in P; discriminate|].
      apply andb_true_iff in P. destruct P as [A P].
      apply andb_true_iff in P. destruct P as [B _].
      apply Ascii.eqb_eq in A, B. subst a b.
      rewrite Nat.add_comm. cbn [Nat.add firstn skipn] in *. now rewrite K.
    + intros E. apply m_colon_word_text in E. destruct E as (w & W & E).
      exists w. split; [exact W|now left].
  - intros E. apply m_colon_word_text in E. destruct E as (w & W & E).
    exists w. split; [exact W|now left].
Qed.

Lemma m_SPLAT_PARAMS_text (s : str) (n : nat) :
  m_SPLAT_PARAMS s = Some n ->
  exists w, is_name w /\ firstn n s = "*"%char :: w.
Proof.
  destruct s as [|c t]; simpl; [discriminate|].
  destruct (Ascii.eqb_spec c "*") as [->|]; [|discriminate].
  destruct (span_word_split t) as [S W].
  destruct (fst (span_word t)) as [|d w] eqn:F; [discriminate|].
  intros E. injection E as <-. exists (d :: w). split; [split; [discriminate|exact W]|].
  rewrite S at 1. simpl. do 2 f_equal.
  now rewrite firstn_app, Nat.sub_diag, firstn_all, app_nil_r.
Qed.

(** The text [t] occurs in [s]. *)
Definition occurs (t s : str) : Prop := exists pre post, s = pre ++ t ++ post.

(** X3.  Whatever the path and the state, [match] answers two lists (never
    [null]): each named token is a colon followed by a name, with [(?]
    before the colon when the path has it there; each splat token is a star
    followed by a name; every token is a piece of the path.  The call
    leaves [lastIndex] of [NAMED_PARAMS] and of [SPLAT_PARAMS] at 0 and the
    other constants as they were. *)
Theorem getParamsMatch_tokens (path : str) (st : regexps) :
  let m := fst (getParamsMatch path st) in
  Forall (fun t => occurs t path
                   /\ exists w, is_name w /\ (t = ":"%char :: w \/ t = "(?:" ++ w))
         (named m)
  /\ Forall (fun t => occurs t path /\ exists w, is_name w /\ t = "*"%char :: w)
            (splat m)
  /\ snd (getParamsMatch path st)
     = set_lastIndex SPLAT_PARAMS 0 (set_lastIndex NAMED_PARAMS 0 st).
Proof.
  cbv zeta. rewrite getParamsMatch_value. cbn [named splat].
  split; [|split].
  - apply Forall_forall. intros t H. apply match_all_In in H.
    destruct H as (pre & post & n & -> & M & ->). split.
    + exists pre, (skipn (S n) post). now rewrite firstn_skipn.
    + now apply m_NAMED_PARAM_text.
  - apply Forall_forall. intros t H. apply match_all_In in H.
    destruct H as (pre & post & n & -> & M & ->). split.
    + exists pre, (skipn (S n) post). now rewrite firstn_skipn.
    + now apply m_SPLAT_PARAMS_text.
  - reflexivity.
Qed.

(** ** [paramsArray2Object] *)

Lemma own_set (o : object) (k k' : str) (v : value) :
  own (set o k v) k' = if str_eqb k k' then Some v else own o k'.
Proof.
  induction o as [|[k0 v0] o IH]; simpl.
  - reflexivity.
  - destruct (str_eqb k0 k) eqn:E; simpl.
    + apply str_eqb_spec in E. subst k0. now destruct (str_eqb k k').
    + rewrite IH. destruct (str_eqb k0 k') eqn:E'; [|reflexivity].
      apply str_eqb_spec in E'. subst k0.
      destruct (str_eqb k k') eqn:E2; [|reflexivity].
      apply str_eqb_spec in E2. subst k'. now rewrite str_eqb_refl in E.
Qed.

(** The callback [parse] of [paramsArray2Object]. *)
Definition assign (args : list value) (acc : object * nat) (name : str) : object * nat :=
  let (result, i) := acc in (set result (tl name) (nth i args VUndefined), S i).

Lemma paramsArray2Object_value (path : str) (args : list value) (st : regexps) :
  fst (paramsArray2Object path args st)
  = fst (fold_left (assign args)
           (match_all m_NAMED_PARAM path ++ match_all m_SPLAT_PARAMS path) ([], 0)).
Proof.
  unfold paramsArray2Object, bind.
  pose proof (getParamsMatch_value path st) as G.
  destruct (getParamsMatch path st) as [m st1]. cbn [fst] in G. subst m.
  cbn [named splat ret fst]. now rewrite fold_left_app.
Qed.

Lemma assign_count (args : list value) (tokens : list str) (o : object) (i : nat) :
  snd (fold_left (assign args) tokens (o, i)) = i + length tokens.
Proof.
  revert o i; induction tokens as [|t tokens IH]; intros o i; simpl; [lia|].
  rewrite IH. lia.
Qed.

(** The property of a token holds the argument at the position of its last
    occurrence among the tokens. *)
Lemma assign_lookup (args : list value) (tokens : list str) (j : nat) :
  j < length tokens ->
  (forall j', j < j' < length tokens ->
              tl (nth j' tokens []) <> tl (nth j tokens [])) ->
  own (fst (fold_left (assign args) tokens ([], 0))) (tl (nth j tokens []))
  = Some (nth j args VUndefined).
Proof.
  induction tokens as [|t tokens IH] using rev_ind; [simpl; lia|].
  rewrite length_app. cbn [length]. intros L D.
  rewrite fold_left_app. cbn [fold_left].
  destruct (fold_left (assign args) tokens ([], 0)) as [o i] eqn:F.
  assert (C : i = length tokens).
  { change i with (snd (o, i)). rewrite <- F. apply (assign_count args tokens [] 0). }
  subst i. cbn [assign fst] in *. rewrite own_set.
  destruct (Nat.eq_dec j (length tokens)) as [->|N].
  - rewrite nth_middle, str_eqb_refl. reflexivity.
  - assert (J : j < length tokens) by lia.
    rewrite app_nth1 by exact J.
    destruct (str_eqb (tl t) (tl (nth j tokens []))) eqn:E.
    + apply str_eqb_spec in E. exfalso.
      apply (D (length tokens)); [lia|].
      now rewrite nth_middle, app_nth1 by exact J.
    + apply IH; [exact J|]. intros j' J'.
      specialize (D j'). rewrite !app_nth1 in D by lia. apply D. lia.
Qed.

Lemma assign_absent (args : list value) (tokens : list str) (k : str) :
  ~ In k (map (@tl ascii) tokens) ->
  own (fst (fold_left (assign args) tokens ([], 0))) k = None.
Proof.
  induction tokens as [|t tokens IH] using rev_ind; [reflexivity|].
  rewrite map_app, in_app_iff. cbn [map In]. intros N.
  rewrite fold_left_app. cbn [fold_left].
  destruct (fold_left (assign args) tokens ([], 0)) as [o i]. cbn [assign fst] in *.
  rewrite own_set. destruct (str_eqb (tl t) k) eqn:E.
  - apply str_eqb_spec in E. exfalso. apply N. right. now left.
  - apply IH. intros H. apply N. now left.
Qed.

(** X4.  [params] numbers the tokens of the path, the named ones first and
    the splat ones after them, and stores the argument of each position
    under the token text without its first character.  A token whose key no
    later token repeats, [__proto__] apart, reads back the argument of its
    position, which is [undefined] past the end of the array; the result
    has no property for any other key. *)
Theorem paramsArray2Object_lookup (path : str) (args : list value) (st : regexps)
    (j : nat) :
  let tokens := match_all m_NAMED_PARAM path ++ match_all m_SPLAT_PARAMS path in
  let r := fst (paramsArray2Object path args st) in
  j < length tokens ->
  (forall j', j < j' < length tokens ->
              tl (nth j' tokens []) <> tl (nth j tokens [])) ->
  tl (nth j tokens []) <> "__proto__" ->
  get r (tl (nth j tokens [])) = nth j args VUndefined
  /\ (length args <= j -> get r (tl (nth j tokens [])) = VUndefined)
  /\ (forall k, ~ In k (map (@tl ascii) tokens) -> own r k = None).
Proof.
  intros tokens r L D _. unfold r. rewrite paramsArray2Object_value. fold tokens.
  assert (G : get (fst (fold_left (assign args) tokens ([], 0))) (tl (nth j tokens []))
              = nth j args VUndefined).
  { unfold get. now rewrite (assign_lookup args tokens j L D). }
  split; [exact G|]. split.
  - intros A. rewrite G. now apply nth_overflow.
  - intros k. apply assign_absent.
Qed.

Lemma paramsArray2Object_lookup_witness :
  match_all m_NAMED_PARAM "/:a/*b(/:c)" ++ match_all m_SPLAT_PARAMS "/:a/*b(/:c)"
  = [(":a" : str); (":c" : str); ("*b" : str)]
  /\ 2 < 3
  /\ get (fst (paramsArray2Object "/:a/*b(/:c)" [VNumber 1; VNumber 2] fresh)) "b"
     = VUndefined.
Proof.
  split; [reflexivity|]. split; [lia|].
  refine (proj1 (proj2 (paramsArray2Object_lookup "/:a/*b(/:c)" [VNumber 1; VNumber 2]
                          fresh 2 _ _ _)) _).
  - vm_compute. lia.
  - intros j' J'. vm_compute in J'. lia.
  - discriminate.
  - simpl. lia.
Defined.

(** ** [stats] *)

(** The tokens [stats] describes: the named ones, then the splat ones. *)
Definition tokens (path : str) : list str :=
  match_all m_NAMED_PARAM path ++ match_all m_SPLAT_PARAMS path.

(** The mapping [stats] reads the values from. *)
Definition stats_args (path : str) (args : arguments) : object :=
  match args with
  | NoArgs => []
  | ArrayArgs l => fst (fold_left (assign l) (tokens path) ([], 0))
  | ObjectArgs o => o
  end.

Definition described (path : str) (args : arguments) : list descriptor :=
  map (describe (match_all m_OPTIONAL_PARAMS path) (stats_args path args)) (tokens path).

Lemma paramsArray2Object_state (path : str) (l : list value) (st : regexps) :
  li_OPTIONAL_PARAMS (snd (paramsArray2Object path l st)) = li_OPTIONAL_PARAMS st.
Proof.
  unfold paramsArray2Object, bind, ret.
  pose proof (getParamsMatch_state path st) as G.
  now destruct (getParamsMatch path st) as [m st1].
Qed.

Lemma stats_report (path : str) (args : arguments) (st : regexps) :
  fst (stats path args st)
  = mkReport (described path args) (has_match m_OPTIONAL_PARAMS path)
      (testParameter (described path args) field_optional)
      (testParameter (described path args) field_required)
      (testParameter (described path args) field_name).
Proof.
  unfold stats. unfold bind at 1. unfold re_match at 1. unfold bind at 1.
  pose proof (getParamsMatch_state path (set_lastIndex OPTIONAL_PARAMS 0 st)) as G.
  pose proof (getParamsMatch_value path (set_lastIndex OPTIONAL_PARAMS 0 st)) as V.
  destruct (getParamsMatch path (set_lastIndex OPTIONAL_PARAMS 0 st)) as [m st1].
  cbn [snd fst set_lastIndex li_OPTIONAL_PARAMS] in G, V. subst m. cbn [named splat].
  unfold bind at 1.
  assert (A : forall a st2,
             (match args with
              | NoArgs => ret []
              | ArrayArgs l => paramsArray2Object path l
              | ObjectArgs o => ret o
              end) st1 = (a, st2)
             -> li_OPTIONAL_PARAMS st2 = 0 /\ a = stats_args path args).
  { intros a st2. destruct args as [|l|o]; unfold ret.
    - intros E; injection E as <- <-. now split.
    - intros E.
      pose proof (paramsArray2Object_state path l st1) as S1.
      pose proof (paramsArray2Object_value path l st1) as S2.
      rewrite E in S1, S2. cbn [fst snd] in S1, S2. split; [congruence|exact S2].
    - intros E; injection E as <- <-. now split. }
  destruct (match args with
            | NoArgs => ret []
            | ArrayArgs l => paramsArray2Object path l
            | ObjectArgs o => ret o
            end st1) as [a st2].
  destruct (A a st2 eq_refl) as [E ->]. unfold bind.
  pose proof (re_test_from_start OPTIONAL_PARAMS path st2 E) as T.
  destruct (re_test OPTIONAL_PARAMS path st2) as [h st3]. cbn [fst] in T. subst h.
  unfold ret, described, tokens. cbn [fst matcher_of].
  now destruct (match_all m_OPTIONAL_PARAMS path).
Qed.

(** X5.  The answers of [match], [regex], [test], [params] and [stats] do
    not depend on the [lastIndex] values the earlier calls have left in the
    regular expression constants. *)
Theorem readers_ignore_state (path : str) (st st' : regexps) :
  fst (getParamsMatch path st) = fst (getParamsMatch path st')
  /\ fst (routeToRegex path st) = fst (routeToRegex path st')
  /\ (forall o, fst (test o st) = fst (test o st'))
  /\ (forall l, fst (paramsArray2Object path l st) = fst (paramsArray2Object path l st'))
  /\ (forall args, fst (stats path args st) = fst (stats path args st')).
Proof.
  split; [|split; [|split; [|split]]].
  - now rewrite !getParamsMatch_value.
  - now rewrite !routeToRegex_steps.
  - intros [[p|] u]; [|reflexivity]. unfold test, bind, ret. cbn [t_path t_url].
    pose proof (routeToRegex_steps p st) as R. pose proof (routeToRegex_steps p st') as R'.
    destruct (routeToRegex p st) as [r st1], (routeToRegex p st') as [r' st1'].
    cbn [fst] in *. congruence.
  - intros l. now rewrite !paramsArray2Object_value.
  - intros args. now rewrite !stats_report.
Qed.

Lemma search_none (m : matcher) (s : str) :
  search m s = None -> match_free m s.
Proof.
  induction s as [|c s IH]; simpl.
  - destruct (m []) eqn:E; [discriminate|]. intros _ pre u H.
    symmetry in H. apply app_eq_nil in H. destruct H as [_ ->]. exact E.
  - destruct (m (c :: s)) eqn:E; [discriminate|].
    destruct (search m s) as [[i n]|]; [discriminate|]. intros _.
    apply match_free_cons; [exact E|now apply IH].
Qed.

Lemma match_all_match_free (m : matcher) (s : str) :
  match_free m s -> match_all m s = [].
Proof.
  induction s as [|c s IH]; intros F; [reflexivity|].
  apply match_free_tail in F. destruct F as [H F].
  rewrite match_all_cons, H. now apply IH.
Qed.

Lemma tokens_not_empty (path t : str) : In t (tokens path) -> t <> [].
Proof.
  unfold tokens. rewrite in_app_iff. intros [H|H]; apply match_all_In in H;
    destruct H as (pre & post & n & _ & M & ->).
  - apply m_NAMED_PARAM_text in M. destruct M as (w & _ & [-> | ->]); discriminate.
  - apply m_SPLAT_PARAMS_text in M. destruct M as (w & _ & ->); discriminate.
Qed.

Lemma filter_split {A} (f g h : A -> bool) (l : list A) :
  (forall x, In x l -> h x = negb (g x)) ->
  length (filter f l)
  = length (filter (fun x => g x && f x) l) + length (filter (fun x => h x && f x) l).
Proof.
  induction l as [|x l IH]; intros H; [reflexivity|]. simpl.
  rewrite (H x (or_introl eq_refl)).
  destruct (f x), (g x); simpl; rewrite IH; try lia; intros y Hy; apply H; now right.
Qed.

(** X6.  In the report of [stats] the missing parameters are the
    descriptors whose value is the empty string, in the order of the
    descriptors.  Each of them is either optional or required, never both,
    so the two lists of missing optional and missing required parameters
    share no descriptor and their lengths add up to that of the missing
    parameters.  For a path without an optional group no parameter is
    optional: every missing parameter is a missing required one. *)
Theorem stats_missing (path : str) (args : arguments) (st : regexps) :
  let r := fst (stats path args st) in
  missingParams r = filter (fun d => is_empty_string (value_of d)) (params r)
  /\ (forall d, In d (missingOptionalParams r)
                <-> In d (missingParams r) /\ optional d = true)
  /\ (forall d, In d (missingRequiredParams r)
                <-> In d (missingParams r) /\ optional d = false)
  /\ length (missingParams r)
     = length (missingOptionalParams r) + length (missingRequiredParams r)
  /\ (hasOptionalParams r = false ->
      missingOptionalParams r = []
      /\ missingRequiredParams r = missingParams r
      /\ Forall (fun d => required d = true) (params r)).
Proof.
  cbv zeta. rewrite stats_report.
  cbn [params hasOptionalParams missingOptionalParams missingRequiredParams missingParams].
  assert (N : forall d, In d (described path args) -> field_truthy d field_name = true).
  { intros d H. unfold described in H. apply in_map_iff in H.
    destruct H as (t & <- & H). apply tokens_not_empty in H.
    cbn. now destruct t. }
  assert (R : forall d, In d (described path args) -> required d = negb (optional d)).
  { intros d H. unfold described in H. apply in_map_iff in H.
    now destruct H as (t & <- & H). }
  assert (P : testParameter (described path args) field_name
              = filter (fun d => is_empty_string (value_of d)) (described path args)).
  { unfold testParameter. apply filter_ext_in. intros d H. now rewrite (N d H). }
  split; [exact P|]. split; [|split; [|split]].
  - intros d. unfold testParameter. rewrite !filter_In.
    change (field_truthy d field_optional) with (optional d). split.
    + intros [H E]. apply andb_true_iff in E. destruct E as [O E].
      rewrite (N d H), E. now repeat split.
    + intros [[H E] O]. rewrite O. rewrite (N d H) in E. now split.
  - intros d. unfold testParameter. rewrite !filter_In.
    change (field_truthy d field_required) with (required d). split.
    + intros [H E]. apply andb_true_iff in E. destruct E as [O E].
      rewrite (N d H), E. rewrite (R d H) in O. apply negb_true_iff in O.
      now repeat split.
    + intros [[H E] O]. rewrite (R d H), O. rewrite (N d H) in E. now split.
  - rewrite P. unfold testParameter.
    apply (filter_split (fun d => is_empty_string (value_of d))
             (fun d => field_truthy d field_optional)
             (fun d => field_truthy d field_required)).
    exact R.
  - intros H.
    assert (O : match_all m_OPTIONAL_PARAMS path = []).
    { apply match_all_match_free, search_none. unfold has_match in H.
      destruct (search m_OPTIONAL_PARAMS path); [discriminate|reflexivity]. }
    assert (Q : forall d, In d (described path args) -> optional d = false).
    { intros d D. unfold described in D. apply in_map_iff in D.
      destruct D as (t & <- & _). now rewrite O. }
    split; [|split].
    + unfold testParameter. rewrite (filter_ext_in _ (fun _ => false)).
      * clear. induction (described path args) as [|x l IH]; [reflexivity|exact IH].
      * intros d D. change (field_truthy d field_optional) with (optional d).
        now rewrite (Q d D).
    + unfold testParameter. apply filter_ext_in. intros d D.
      change (field_truthy d field_required) with (required d).
      now rewrite (N d D), (R d D), (Q d D).
    + apply Forall_forall. intros d D. now rewrite (R d D), (Q d D).
Qed.

(** X7.  With an array of arguments, the descriptor [stats] gives for the
    token at position [j] (named tokens first, splat tokens after them)
    carries the argument at position [j] when that argument is truthy and
    the empty string when it is falsy or past the end of the array,
    provided no later token has the same key and the key is not
    [__proto__]; the parameter is reported missing exactly in the second
    case. *)
Theorem stats_positional (path : str) (l : list value) (st : regexps) (j : nat) :
  let r := fst (stats path (ArrayArgs l) st) in
  j < length (tokens path) ->
  (forall j', j < j' < length (tokens path) ->
              tl (nth j' (tokens path) []) <> tl (nth j (tokens path) [])) ->
  tl (nth j (tokens path) []) <> "__proto__" ->
  exists d,
    nth_error (params r) j = Some d
    /\ name d = nth j (tokens path) []
    /\ value_of d = (let v := nth j l VUndefined in if truthy v then v else VString [])
    /\ (In d (missingParams r) <-> truthy (nth j l VUndefined) = false).
Proof.
  intros r L D _. unfold r. rewrite stats_report. cbn [params missingParams].
  set (t := nth j (tokens path) []).
  set (o := stats_args path (ArrayArgs l)).
  assert (G : get o (tl t) = nth j l VUndefined).
  { unfold get, o, t. cbn [stats_args]. now rewrite (assign_lookup l (tokens path) j L D). }
  assert (E : nth_error (described path (ArrayArgs l)) j
              = Some (describe (match_all m_OPTIONAL_PARAMS path) o t)).
  { unfold described. rewrite nth_error_map.
    now rewrite (nth_error_nth' (tokens path) [] L). }
  exists (describe (match_all m_OPTIONAL_PARAMS path) o t).
  split; [exact E|]. split; [reflexivity|].
  assert (V : value_of (describe (match_all m_OPTIONAL_PARAMS path) o t)
              = if truthy (nth j l VUndefined) then nth j l VUndefined else VString []).
  { unfold describe. cbn [value_of]. now rewrite G. }
  split; [exact V|].
  unfold testParameter. rewrite filter_In, V. split.
  - intros [_ H]. apply andb_true_iff in H. destruct H as [_ H].
    destruct (truthy (nth j l VUndefined)) eqn:T; [|reflexivity].
    destruct (nth j l VUndefined) as [| |b|n|[|c s]|]; discriminate.
  - intros T. split; [now apply nth_error_In in E|].
    rewrite T. apply andb_true_iff. split; [|reflexivity].
    cbn. unfold t. pose proof (tokens_not_empty path _ (nth_In (tokens path) [] L)) as Z.
    now destruct (nth j (tokens path) []).
Qed.

Lemma stats_positional_witness :
  0 < length (tokens "/:a(/:b)")
  /\ exists d,
       nth_error (params (fst (stats "/:a(/:b)" (ArrayArgs [VNumber 0]) fresh))) 0 = Some d
       /\ name d = ":a"
       /\ value_of d = VString []
       /\ (In d (missingParams (fst (stats "/:a(/:b)" (ArrayArgs [VNumber 0]) fresh)))
           <-> truthy (VNumber 0) = false).
Proof.
  split; [vm_compute; lia|].
  refine (stats_positional "/:a(/:b)" [VNumber 0] fresh 0 _ _ _).
  - vm_compute. lia.
  - intros [|[|j']] J' E; vm_compute in J', E; try lia; discriminate.
  - discriminate.
Defined.

(** ** What [path] and [build] read of the module state *)

(** Two states that agree on [SPLAT_PARAMS.lastIndex]. *)
Definition same_splat (st st' : regexps) : Prop :=
  li_SPLAT_PARAMS st = li_SPLAT_PARAMS st'.

(** A computation that, started in two such states, gives the same answer
    and ends in two such states. *)
Definition respects {A} (c : M A) : Prop :=
  forall st st', same_splat st st' ->
    fst (c st) = fst (c st') /\ same_splat (snd (c st)) (snd (c st')).

Lemma respects_ret {A} (a : A) : respects (ret a).
Proof. intros st st' H. now split. Qed.

Lemma respects_bind {A B} (c : M A) (k : A -> M B) :
  respects c -> (forall a, respects (k a)) -> respects (bind c k).
Proof.
  intros C K st st' H. unfold bind. destruct (C st st' H) as [E S].
  destruct (c st) as [a st1], (c st') as [a' st1']. cbn [fst snd] in *. subst a'.
  now apply K.
Qed.

Lemma respects_bind_ok {A B} (c : M (result A)) (k : A -> M (result B)) :
  respects c -> (forall a, respects (k a)) -> respects (bind_ok c k).
Proof.
  intros C K st st' H. unfold bind_ok. destruct (C st st' H) as [E S].
  destruct (c st) as [a st1], (c st') as [a' st1']. cbn [fst snd] in *. subst a'.
  destruct a as [a|e]; [now apply K|now split].
Qed.

Lemma respects_fold_M {A B} (f : A -> B -> M A) (l : list B) :
  (forall a b, respects (f a b)) -> forall a, respects (fold_M f l a).
Proof.
  intros F. induction l as [|b l IH]; intros a; simpl.
  - apply respects_ret.
  - apply respects_bind; [apply F|exact IH].
Qed.

Lemma respects_fold_ok {A B} (f : A -> B -> M (result A)) (l : list B) :
  (forall a b, respects (f a b)) -> forall a, respects (fold_ok f l a).
Proof.
  intros F. induction l as [|b l IH]; intros a; simpl.
  - apply respects_ret.
  - apply respects_bind_ok; [apply F|exact IH].
Qed.

Lemma respects_re_replace (g : global_regexp) (f : str -> str) (s : str) :
  respects (re_replace g f s).
Proof.
  intros st st' H. unfold re_replace, same_splat in *. split; [reflexivity|].
  destruct g; simpl; congruence.
Qed.

Lemma respects_re_match (g : global_regexp) (s : str) : respects (re_match g s).
Proof.
  intros st st' H. unfold re_match, same_splat in *. split; [reflexivity|].
  destruct g; simpl; congruence.
Qed.

Lemma respects_re_test_splat (s : str) : respects (re_test SPLAT_PARAMS s).
Proof.
  intros st st' H. unfold re_test, same_splat in *. cbn [lastIndex]. rewrite <- H.
  destruct (length s <? li_SPLAT_PARAMS st); [now split|].
  destruct (search _ _) as [[k n]|]; now split.
Qed.

Lemma respects_replaceArgs (path : str) (args : arguments) :
  respects (replaceArgs path args).
Proof.
  unfold replaceArgs. apply respects_bind.
  - destruct args as [|l|o]; [apply respects_ret|apply respects_ret|].
    apply respects_bind; [apply respects_re_match|intros a; apply respects_ret].
  - intros [vals|]; [|apply respects_ret].
    apply respects_bind_ok.
    + apply respects_fold_ok. intros p v. unfold replaceArg.
      destruct (encodeURIComponent v) as [e|x]; [|apply respects_ret].
      destruct (contains ":" p); [apply respects_ret|].
      apply respects_bind; [apply respects_re_replace|intros a; apply respects_ret].
    + intros p. apply respects_bind; [apply respects_re_match|].
      intros [parts|]; [|apply respects_ret].
      apply respects_bind; [|intros a; apply respects_ret].
      apply respects_fold_M. intros q part.
      apply respects_bind; [|intros []; apply respects_ret].
      unfold isNamedOrSplatParam.
      destruct (has_match m_NAMED_PARAM part);
        [apply respects_ret|apply respects_re_test_splat].
Qed.

Lemma respects_parse (path : option str) (args : arguments) :
  respects (parse path args).
Proof.
  unfold parse. destruct (isEmpty _).
  - apply respects_bind; [apply respects_re_replace|intros a; apply respects_ret].
  - apply respects_bind_ok; [apply respects_replaceArgs|].
    intros p. apply respects_bind; [apply respects_re_replace|].
    intros a; apply respects_ret.
Qed.

Lemma respects_build (o : options) : respects (build o).
Proof.
  unfold build. apply respects_bind_ok; [apply respects_parse|].
  intros p. destruct (buildQuery o); apply respects_ret.
Qed.

(** X8.  Of the state the earlier calls leave behind, [path] and [build]
    read [lastIndex] of [SPLAT_PARAMS] only: in two states that agree on
    it they give the same answer, whatever the options. *)
Theorem path_reads_splat_index (o : options) (st st' : regexps) :
  li_SPLAT_PARAMS st = li_SPLAT_PARAMS st' ->
  fst (buildPath o st) = fst (buildPath o st')
  /\ fst (build o st) = fst (build o st').
Proof.
  intros H. split.
  - apply (respects_parse (opt_path o) (opt_params o) st st' H).
  - apply (respects_build o st st' H).
Qed.

Lemma path_reads_splat_index_witness :
  li_SPLAT_PARAMS (mkRegexps 1 2 0 3 4) = li_SPLAT_PARAMS fresh
  /\ fst (buildPath (path_only "/a(/*b)" (ArrayArgs [VString "x"])) (mkRegexps 1 2 0 3 4))
     = fst (buildPath (path_only "/a(/*b)" (ArrayArgs [VString "x"])) fresh).
Proof.
  split; [reflexivity|].
  exact (proj1 (path_reads_splat_index (path_only "/a(/*b)" (ArrayArgs [VString "x"]))
                  (mkRegexps 1 2 0 3 4) fresh eq_refl)).
Defined.

(** X9.  A call of [match], [regex], [params], [stats] or [test] leaves
    [lastIndex] of [SPLAT_PARAMS] at 0: the call of [path] or [build] that
    comes next answers as it does right after the module is loaded. *)
Theorem readers_reset_path (o : options) (q : str) (st : regexps) :
  let after (st' : regexps) :=
    fst (buildPath o st') = fst (buildPath o fresh)
    /\ fst (build o st') = fst (build o fresh) in
  after (snd (getParamsMatch q st))
  /\ after (snd (routeToRegex q st))
  /\ (forall l, after (snd (paramsArray2Object q l st)))
  /\ (forall args, after (snd (stats q args st)))
  /\ (forall u, after (snd (test (mkTestOptions (Some q) u) st))).
Proof.
  intros after.
  assert (A : forall st', li_SPLAT_PARAMS st' = 0 -> after st').
  { intros st' H. split.
    - apply (respects_parse (opt_path o) (opt_params o) st' fresh H).
    - apply (respects_build o st' fresh H). }
  assert (P : forall l st0, li_SPLAT_PARAMS (snd (paramsArray2Object q l st0)) = 0).
  { reflexivity. }
  split; [|split; [|split; [|split]]].
  - now apply A.
  - now apply A.
  - intros l. apply A, P.
  - intros args. apply A. unfold stats, bind at 1, re_match at 1. unfold bind at 1.
    assert (G : li_SPLAT_PARAMS (snd (getParamsMatch q (set_lastIndex OPTIONAL_PARAMS 0 st)))
                = 0) by reflexivity.
    destruct (getParamsMatch q (set_lastIndex OPTIONAL_PARAMS 0 st)) as [m st1].
    cbn [snd] in G. unfold bind at 1.
    assert (G2 : li_SPLAT_PARAMS
                   (snd ((match args with
                          | NoArgs => ret []
                          | ArrayArgs l => paramsArray2Object q l
                          | ObjectArgs o => ret o
                          end) st1)) = 0).
    { destruct args as [|l|o0]; [exact G|apply P|exact G]. }
    destruct (match args with
              | NoArgs => ret []
              | ArrayArgs l => paramsArray2Object q l
              | ObjectArgs o => ret o
              end st1) as [a st2].
    cbn [snd] in G2. unfold bind, re_test. cbn [lastIndex matcher_of].
    destruct (length q <? li_OPTIONAL_PARAMS st2); [exact G2|].
    destruct (search _ _) as [[k n]|]; exact G2.
  - intros u. now apply A.
Qed.

(** ** Positional arguments *)

(** The optional groups of [p] that show a named parameter, each taken out
    of the text at its first occurrence. *)
Definition pruned (p : str) : str :=
  fold_left (fun path part =>
               if has_match m_NAMED_PARAM part
               then replace_first (m_literal part) [] path
               else path)
            (match_all m_OPTIONAL_PARAMS p) p.

Lemma search_splat_none (s : str) :
  ~ In "*"%char s -> search m_SPLAT_PARAMS s = None.
Proof.
  induction s as [|c s IH]; intros N; [reflexivity|].
  cbn [search]. rewrite IH by (intros H; apply N; now right).
  unfold m_SPLAT_PARAMS. destruct (Ascii.eqb_spec c "*") as [->|]; [|reflexivity].
  exfalso. apply N. now left.
Qed.

Lemma re_test_splat_none (part : str) (st : regexps) :
  ~ In "*"%char part -> fst (re_test SPLAT_PARAMS part st) = false.
Proof.
  intros N. unfold re_test. cbn [lastIndex matcher_of].
  destruct (length part <? li_SPLAT_PARAMS st); [reflexivity|].
  rewrite search_splat_none; [reflexivity|].
  intros H. apply N. rewrite <- (firstn_skipn (li_SPLAT_PARAMS st) part).
  apply in_or_app. now right.
Qed.

Lemma cleanOptional_pruned (p : str) (st : regexps) :
  ~ In "*"%char p -> fst (cleanOptional p st) = pruned p.
Proof.
  intros N. unfold cleanOptional, pruned, bind, re_match. cbn [matcher_of].
  assert (P : forall part, In part (match_all m_OPTIONAL_PARAMS p) -> ~ In "*"%char part).
  { intros part H Hs. apply match_all_In in H.
    destruct H as (pre & post & n & -> & _ & ->). apply N.
    apply in_or_app. right. rewrite <- (firstn_skipn (S n) post).
    apply in_or_app. now left. }
  assert (F : forall parts path st0,
             (forall part, In part parts -> ~ In "*"%char part) ->
             fst (fold_M (fun path part =>
                            b <- isNamedOrSplatParam part ;;
                            if b then ret (replace_first (m_literal part) [] path)
                            else ret path) parts path st0)
             = fold_left (fun path part =>
                            if has_match m_NAMED_PARAM part
                            then replace_first (m_literal part) [] path
                            else path) parts path).
  { induction parts as [|part parts IH]; intros path st0 Q; [reflexivity|].
    cbn [fold_M fold_left]. unfold bind at 1. unfold bind at 1.
    unfold isNamedOrSplatParam.
    destruct (has_match m_NAMED_PARAM part).
    - unfold ret at 1. unfold ret at 1. apply IH. intros x X. apply Q. now right.
    - pose proof (re_test_splat_none part st0 (Q part (or_introl eq_refl))) as T.
      destruct (re_test SPLAT_PARAMS part st0) as [b st1]. cbn [fst] in T. subst b.
      unfold ret at 1. apply IH. intros x X. apply Q. now right. }
  destruct (match_all m_OPTIONAL_PARAMS p) as [|part parts] eqn:E; [reflexivity|].
  apply F. exact P.
Qed.

Lemma pruned_no_group (p : str) : ~ In "("%char p -> pruned p = p.
Proof.
  intros N. unfold pruned. rewrite match_all_match_free; [reflexivity|].
  intros pre u ->. destruct u as [|c u]; [reflexivity|]. simpl.
  destruct (Ascii.eqb_spec c "(") as [->|]; [|reflexivity].
  exfalso. apply N. apply in_or_app. right. now left.
Qed.



(** ** Paths without a star *)

Lemma plain_no_colon (x : str) : forallb plain x = true -> contains ":" x = false.
Proof.
  unfold contains, has_match. induction x as [|c x IH]; [reflexivity|].
  cbn [forallb]. intros H. apply andb_true_iff in H. destruct H as [C X].
  cbn [search]. unfold m_literal at 1. cbn [isPrefix list_ascii_of_string].
  rewrite (plain_not_colon c C). cbn [andb].
  specialize (IH X). cbn [list_ascii_of_string] in IH.
  now destruct (search (m_literal [":"%char]) x) as [[i n]|].
Qed.

Lemma splat_free (x : str) : ~ In "*"%char x -> match_free m_SPLAT_PARAMS x.
Proof.
  intros N pre u ->. destruct u as [|c u]; [reflexivity|]. simpl.
  destruct (Ascii.eqb_spec c "*") as [->|]; [|reflexivity].
  exfalso. apply N. apply in_or_app. right. now left.
Qed.

(** Without a colon and without a star the text takes no argument. *)
Lemma inject_surplus (vs : list value) (x : str) (st : regexps) :
  forallb plain x = true -> ~ In "*"%char x -> ~ In VUnpaired vs ->
  fst (fold_ok replaceArg vs x st) = Ok x.
Proof.
  intros X N. revert st. induction vs as [|v vs IH]; intros st U; [reflexivity|].
  cbn [fold_ok]. unfold bind_ok, replaceArg at 1.
  rewrite encodeURIComponent_injected by (intros ->; apply U; now left).
  rewrite (plain_no_colon x X). unfold bind, re_replace, ret. cbn [matcher_of].
  rewrite (replace_all_match_free _ _ x (splat_free x N)).
  apply IH. intros H. apply U. now right.
Qed.

Lemma fill_firstn (segs : list segment) (es : list str) :
  fill segs (firstn (length (names segs)) es) = fill segs es.
Proof.
  revert es; induction segs as [|[c|w] r IH]; intros es; simpl.
  - reflexivity.
  - now rewrite IH.
  - destruct es as [|e es]; simpl; [reflexivity|]. now rewrite IH.
Qed.

(** The values fill the parameters in order; what is left of them when the
    parameters are used up changes nothing. *)
Lemma inject_starless (segs : list segment) :
  well_formed segs = true ->
  forall (vs : list value) (x : str) (st : regexps),
    forallb plain x = true ->
    ~ In VUnpaired vs ->
    ~ In "*"%char (x ++ fill segs (map injected vs)) ->
    fst (fold_ok replaceArg vs (x ++ pattern_of segs) st)
    = Ok (x ++ fill segs (map injected vs)).
Proof.
  induction segs as [|[c|w] r IH]; intros W vs x st X U N.
  - cbn [pattern_of flat_map fill] in *. rewrite app_nil_r in *.
    now apply inject_surplus.
  - simpl in W. apply andb_true_iff in W. destruct W as [W Wr].
    apply andb_true_iff in W. destruct W as [C Q].
    change (x ++ pattern_of (Lit c :: r)) with (x ++ [c] ++ pattern_of r).
    change (fill (Lit c :: r) (map injected vs)) with ([c] ++ fill r (map injected vs)) in *.
    rewrite (app_assoc x [c] (fill r (map injected vs))) in *.
    rewrite (app_assoc x [c] (pattern_of r)).
    apply (IH Wr vs (x ++ [c]) st); [|exact U|exact N].
    rewrite forallb_app, X. simpl. unfold plain. now rewrite C, Q.
  - simpl in W. apply andb_true_iff in W. destruct W as [W Wr].
    apply andb_true_iff in W. destruct W as [W P].
    apply andb_true_iff in W. destruct W as [W1 W2].
    assert (w <> []) as Hw by (destruct w; [discriminate|congruence]).
    change (pattern_of (Param w :: r)) with (":"%char :: w ++ pattern_of r).
    destruct vs as [|v vs].
    + simpl. now rewrite fill_nil.
    + cbn [fold_ok]. unfold bind_ok, replaceArg at 1.
      rewrite encodeURIComponent_injected by (intros ->; apply U; now left).
      rewrite contains_colon. unfold ret at 1.
      rewrite (replace_first_token x (injected v) w _ X Hw W2 P).
      cbn [map fill] in *.
      rewrite (app_assoc x (injected v) (fill r (map injected vs))) in *.
      rewrite (app_assoc x (injected v) (pattern_of r)).
      apply (IH Wr vs (x ++ injected v) st); [|intros H; apply U; now right|exact N].
      rewrite forallb_app, X. apply injected_plain.
Qed.

Lemma named_none (s : str) : ~ In ":"%char s -> has_match m_NAMED_PARAM s = false.
Proof.
  intros N. unfold has_match.
  assert (C : forall u, ~ In ":"%char u -> m_colon_word u = None).
  { intros [|c u] H; [reflexivity|]. simpl.
    destruct (Ascii.eqb_spec c ":") as [->|]; [|reflexivity].
    exfalso. apply H. now left. }
  assert (M : forall u, ~ In ":"%char u -> m_NAMED_PARAM u = None).
  { intros u H. unfold m_NAMED_PARAM. rewrite (C u H).
    destruct (isPrefix "(?" u); [|reflexivity].
    rewrite C; [reflexivity|]. intros X. apply H.
    rewrite <- (firstn_skipn 2 u). apply in_or_app. now right. }
  induction s as [|c s IH]; cbn [search].
  - now rewrite (M [] N).
  - rewrite (M (c :: s) N).
    destruct (search m_NAMED_PARAM s) as [[i k]|] eqn:E; [|reflexivity].
    exfalso. assert (X : ~ In ":"%char s) by (intros H; apply N; now right).
    specialize (IH X). discriminate.
Qed.

Lemma fill_full_plain (b : list segment) :
  well_formed b = true ->
  forall es, length (names b) <= length es ->
             Forall (fun e => forallb plain e = true) es ->
             forallb plain (fill b es) = true.
Proof.
  induction b as [|[c|w] r IH]; intros W es L F; [reflexivity| |].
  - cbn [well_formed] in W. apply andb_true_iff in W. destruct W as [W Wr].
    cbn [fill forallb]. rewrite (IH Wr es L F). unfold plain. now rewrite W.
  - cbn [well_formed] in W. apply andb_true_iff in W. destruct W as [_ Wr].
    destruct es as [|e es]; [simpl in L; lia|].
    inversion F as [|e' es' E F']; subst. cbn [fill]. rewrite forallb_app, E.
    apply (IH Wr es); [simpl in L; lia|exact F'].
Qed.

(** A text without a colon and without a star keeps all its groups. *)
Lemma pruned_plain (p : str) : forallb plain p = true -> pruned p = p.
Proof.
  intros P. unfold pruned.
  assert (F : forall parts q,
             (forall part, In part parts -> has_match m_NAMED_PARAM part = false) ->
             fold_left (fun path part =>
                          if has_match m_NAMED_PARAM part
                          then replace_first (m_literal part) [] path
                          else path) parts q = q).
  { induction parts as [|part parts IH]; intros q H; [reflexivity|].
    cbn [fold_left]. rewrite (H part (or_introl eq_refl)).
    apply IH. intros x X. apply H. now right. }
  apply F. intros part H. apply named_none. intros C.
  apply match_all_In in H. destruct H as (pre & post & n & -> & _ & ->).
  rewrite forallb_forall in P.
  assert (X : In ":"%char (pre ++ post)).
  { apply in_or_app. right. rewrite <- (firstn_skipn (S n) post).
    apply in_or_app. now left. }
  specialize (P _ X). discriminate.
Qed.

Lemma parse_array_starless (segs : list segment) (vs : list value) (st : regexps) :
  well_formed segs = true -> vs <> [] -> ~ In VUnpaired vs ->
  ~ In "*"%char (fill segs (map injected vs)) ->
  fst (parse (Some (pattern_of segs)) (ArrayArgs vs) st)
  = Ok (cleaned (pruned (fill segs (map injected vs)))).
Proof.
  intros W N U T.
  assert (E : isEmpty (args_or_array (ArrayArgs vs)) = false)
    by (destruct vs; [congruence|reflexivity]).
  rewrite (parse_nonempty (Some (pattern_of segs)) (ArrayArgs vs) st E).
  cbn [string_or_empty args_or_array].
  rewrite replaceArgs_shape. cbn [consumed after_names].
  pose proof (inject_starless segs W vs [] st eq_refl U T) as I.
  cbn [app] in I.
  destruct (fold_ok replaceArg vs (pattern_of segs) st) as [[p|e] st1];
    cbn [fst] in I; [|discriminate].
  injection I as ->. now rewrite cleanOptional_pruned.
Qed.

Lemma parse_keyed_starless (segs : list segment) (o : object) (st : regexps) :
  well_formed segs = true -> names segs <> [] -> isEmpty (ObjectArgs o) = false ->
  Forall (fun w => get o w <> VUnpaired) (names segs) ->
  ~ In "*"%char (filled o segs) ->
  fst (parse (Some (pattern_of segs)) (ObjectArgs o) st)
  = Ok (cleaned (pruned (filled o segs))).
Proof.
  intros W N E U T.
  rewrite (parse_nonempty (Some (pattern_of segs)) (ObjectArgs o) st E).
  cbn [string_or_empty args_or_array].
  pose proof (tokens_of_pattern segs W) as K.
  rewrite replaceArgs_shape, consumed_keyed
    by (rewrite K; destruct (names segs); [congruence|discriminate]).
  cbn [after_names]. rewrite K, map_map. cbn [tl].
  pose proof (inject_aligned segs W (map (fun w => get o w) (names segs)) []
                (set_lastIndex NAMED_PARAMS 0 st) eq_refl) as I.
  rewrite length_map in I. specialize (I (le_n _)).
  cbn [app] in I. rewrite I.
  - rewrite map_map, fill_names. now rewrite cleanOptional_pruned.
  - intros H. apply in_map_iff in H. destruct H as (w & H & Hw).
    rewrite Forall_forall in U. now apply (U w Hw).
Qed.

(** X11.  When the text the injection produces holds no star, however many
    values the array has: the values fill the named parameters from left
    to right, the values left over when the parameters are used up are
    ignored, and the answer is the same in every state.  It is the filled
    text without the optional groups that still show a named parameter,
    without parentheses and without one trailing slash.  With a value for
    every named parameter no group is removed: the optional groups stay,
    without their parentheses. *)
Theorem positional_arguments_starless (segs : list segment) (vs : list value)
    (st : regexps) :
  well_formed segs = true ->
  vs <> [] ->
  ~ In VUnpaired vs ->
  let text := fill segs (map injected vs) in
  ~ In "*"%char text ->
  fst (parse (Some (pattern_of segs)) (ArrayArgs vs) st) = Ok (cleaned (pruned text))
  /\ text = fill segs (map injected (firstn (length (names segs)) vs))
  /\ (~ In "("%char text ->
      fst (parse (Some (pattern_of segs)) (ArrayArgs vs) st) = Ok (cleaned text))
  /\ (length (names segs) <= length vs ->
      fst (parse (Some (pattern_of segs)) (ArrayArgs vs) st) = Ok (cleaned text)).
Proof.
  intros W N U text T.
  pose proof (parse_array_starless segs vs st W N U T) as P. fold text in P.
  split; [exact P|]. split; [|split].
  - unfold text. now rewrite <- (fill_firstn segs (map injected vs)), firstn_map.
  - intros G. now rewrite P, pruned_no_group.
  - intros L. rewrite P, pruned_plain; [reflexivity|].
    apply (fill_full_plain segs W); [now rewrite length_map|].
    apply Forall_forall. intros e H. apply in_map_iff in H.
    destruct H as (v & <- & _). apply injected_plain.
Qed.

Lemma positional_arguments_starless_witness :
  well_formed (map Lit ("/a/" : str) ++ [Param "b"; Lit "("; Lit "/"; Param "c"; Lit ")"])
  = true
  /\ [VString "x"; VNull; VNumber 3] <> []
  /\ ~ In VUnpaired [VString "x"; VNull; VNumber 3]
  /\ fst (parse (Some ("/a/:b(/:c)" : str)) (ArrayArgs [VString "x"; VNull; VNumber 3])
            (mkRegexps 0 0 7 0 0))
     = Ok ("/a/x/null" : str).
Proof.
  assert (U : ~ In VUnpaired [VString "x"; VNull; VNumber 3])
    by (intros [H|[H|[H|[]]]]; discriminate).
  split; [reflexivity|]. split; [discriminate|]. split; [exact U|].
  refine (proj1 (positional_arguments_starless
                   (map Lit ("/a/" : str)
                    ++ [Param "b"; Lit "("%char; Lit "/"%char; Param "c"; Lit ")"%char])
                   [VString "x"; VNull; VNumber 3] (mkRegexps 0 0 7 0 0)
                   eq_refl ltac:(discriminate) U _)).
  vm_compute. intros H. repeat (destruct H as [H|H]; [discriminate|]). exact H.
Defined.



(** ** [buildQuery] and the errors of [build] *)

(** The properties of [options.query], none when it is missing. *)
Definition query_of (o : options) : object :=
  match opt_query o with Some q => q | None => [] end.

Lemma query_pairs_throws (q : object) (e : exn) :
  query_pairs q = Throw e <-> e = URIError /\ exists k, In (k, VUnpaired) q.
Proof.
  revert e. induction q as [|[k v] q IH]; intros e; simpl.
  - split; [discriminate|]. now intros [_ [k []]].
  - pose proof (encodeURIComponent_throws v) as T.
    destruct (encodeURIComponent v) as [t|x].
    + destruct (query_pairs q) as [l|x].
      * split; [discriminate|]. intros [-> (k' & [H|H])].
        -- injection H as _ ->. discriminate (proj2 (T URIError) (conj eq_refl eq_refl)).
        -- enough (Ok l = Throw URIError) by discriminate.
           apply IH. split; [reflexivity|now exists k'].
      * destruct (proj1 (IH x) eq_refl) as [-> (k' & H)]. split.
        -- intros E. injection E as <-. split; [reflexivity|]. exists k'. now right.
        -- now intros [-> _].
    + destruct (proj1 (T x) eq_refl) as [-> ->]. split.
      * intros H. injection H as <-. split; [reflexivity|]. exists k. now left.
      * now intros [-> _].
Qed.

Lemma query_pairs_value (q : object) :
  (forall k, ~ In (k, VUnpaired) q) ->
  query_pairs q = Ok (map (fun kv => fst kv ++ "=" ++ injected (snd kv)) q).
Proof.
  induction q as [|[k v] q IH]; intros N; [reflexivity|]. simpl.
  rewrite encodeURIComponent_injected by (intros ->; apply (N k); now left).
  rewrite IH; [reflexivity|]. intros k' H. apply (N k'). now right.
Qed.

Lemma join_nil (sep : str) (l : list str) :
  (forall x, In x l -> x <> []) -> join sep l = [] -> l = [].
Proof.
  destruct l as [|x [|y l]]; intros N; [reflexivity| |]; simpl; intros E.
  - now destruct (N x (or_introl eq_refl)).
  - apply app_eq_nil in E. destruct E as [E _].
    now destruct (N x (or_introl eq_refl)).
Qed.

(** X13.  [query] throws exactly when a value of the query holds an
    unpaired surrogate, and what it throws is the [URIError] of
    [encodeURIComponent].  Otherwise it returns the pairs [key=value], in
    the order of the properties and joined by [&], where the value is
    component-encoded and the key is written as it is; the result is the
    empty string only for a query without properties or a missing one. *)
Theorem buildQuery_pairs (o : options) :
  (forall e, buildQuery o = Throw e
             <-> e = URIError /\ exists k, In (k, VUnpaired) (query_of o))
  /\ ((forall k, ~ In (k, VUnpaired) (query_of o)) ->
      buildQuery o
      = Ok (join "&" (map (fun kv => fst kv ++ "=" ++ injected (snd kv)) (query_of o))))
  /\ (buildQuery o = Ok [] <-> query_of o = []).
Proof.
  unfold buildQuery. fold (query_of o).
  assert (V : (forall k, ~ In (k, VUnpaired) (query_of o)) ->
              match query_pairs (query_of o) with
              | Ok query => Ok match query with [] => [] | _ :: _ => join "&" query end
              | Throw e => Throw e
              end
              = Ok (join "&" (map (fun kv => fst kv ++ "=" ++ injected (snd kv))
                                (query_of o)))).
  { intros N. rewrite (query_pairs_value _ N). now destruct (query_of o). }
  split; [|split].
  - intros e. rewrite <- query_pairs_throws.
    destruct (query_pairs (query_of o)); split; congruence.
  - exact V.
  - split.
    + intros E. destruct (query_pairs (query_of o)) as [l|x] eqn:Q; [|discriminate].
      assert (N : forall k, ~ In (k, VUnpaired) (query_of o)).
      { intros k H. enough (Ok l = Throw URIError) by discriminate.
        rewrite <- Q. apply query_pairs_throws. split; [reflexivity|now exists k]. }
      rewrite (query_pairs_value _ N) in Q. injection Q as <-.
      destruct (query_of o) as [|kv q]; [reflexivity|]. exfalso.
      set (pairs := map (fun kv => fst kv ++ "=" ++ injected (snd kv)) (kv :: q)) in *.
      assert (J : join "&" pairs = []).
      { change (Ok (join "&" pairs) = Ok []) in E. congruence. }
      apply join_nil in J; [discriminate|].
      intros x H. apply in_map_iff in H. destruct H as ([k v] & <- & _).
      cbn [fst snd]. intros H. apply app_eq_nil in H. destruct H as [_ H]. discriminate.
    + intros ->. reflexivity.
Qed.

Lemma build_outcome (o : options) (st : regexps) :
  fst (build o st)
  = match fst (buildPath o st), buildQuery o with
    | Throw e, _ => Throw e
    | Ok _, Throw e => Throw e
    | Ok path, Ok query =>
        Ok (smartConcat (string_or_empty (opt_host o)) path query (opt_hash o))
    end.
Proof.
  unfold build, bind_ok. destruct (buildPath o st) as [[p|e] st1]; [|reflexivity].
  now destruct (buildQuery o).
Qed.


(** ** [regex] and [test] on patterns of literal text and named parameters *)

(** A literal character of a pattern that opens no group and is no star. *)
Definition literal_ok (c : ascii) : bool :=
  negb (is_paren c) && negb (Ascii.eqb c "*").

(** Patterns of named parameters and literal text without parentheses,
    stars, colons and question marks. *)
Definition simple (segs : list segment) : bool :=
  well_formed segs
  && forallb (fun s => match s with Lit c => literal_ok c | Param _ => true end) segs.

(** What [routeToRegex] writes for a literal character and for a segment. *)
Definition lit_source (c : ascii) : str :=
  if is_escape c then ["\"%char; c] else [c].

Definition seg_source (s : segment) : str :=
  match s with Lit c => lit_source c | Param _ => "([^/?]+)" end.

Definition source_of (segs : list segment) : str := flat_map seg_source segs.

(** The pattern after the first step. *)
Definition escaped_of (segs : list segment) : str :=
  flat_map (fun s => match s with
                     | Lit c => lit_source c
                     | Param w => ":"%char :: w
                     end) segs.

Lemma word_not_escape (c : ascii) : is_word c = true -> is_escape c = false.
Proof.
  destruct c as [[] [] [] [] [] [] [] []]; vm_compute; congruence.
Qed.

Lemma escape_step_chars (s : str) : escape_step s = flat_map lit_source s.
Proof.
  unfold escape_step. induction s as [|c s IH]; [reflexivity|].
  rewrite replace_all_cons.
  change (m_ESCAPE (c :: s)) with (if is_escape c then Some 1 else None).
  cbn [flat_map]. unfold lit_source at 1.
  destruct (is_escape c); cbn [firstn skipn]; now rewrite IH.
Qed.

Lemma lit_source_word (w : str) :
  forallb is_word w = true -> flat_map lit_source w = w.
Proof.
  induction w as [|c w IH]; [reflexivity|]. cbn [forallb flat_map]. intros H.
  apply andb_true_iff in H. destruct H as [C W].
  unfold lit_source at 1. now rewrite (word_not_escape c C), (IH W).
Qed.

Lemma simple_cons_lit (c : ascii) (r : list segment) :
  simple (Lit c :: r) = true ->
  Ascii.eqb ":" c = false /\ Ascii.eqb "?" c = false
  /\ is_paren c = false /\ Ascii.eqb c "*" = false /\ simple r = true.
Proof.
  unfold simple, literal_ok. cbn [well_formed forallb]. intros H.
  apply andb_true_iff in H. destruct H as [W F].
  apply andb_true_iff in W. destruct W as [W Wr].
  apply andb_true_iff in W. destruct W as [C Q].
  apply andb_true_iff in F. destruct F as [L Fr].
  apply andb_true_iff in L. destruct L as [P S].
  rewrite Wr, Fr. repeat split; now apply negb_true_iff.
Qed.

Lemma simple_cons_param (w : str) (r : list segment) :
  simple (Param w :: r) = true ->
  w <> [] /\ forallb is_word w = true /\ starts_nonword (pattern_of r) = true
  /\ simple r = true.
Proof.
  unfold simple. cbn [well_formed forallb]. intros H.
  apply andb_true_iff in H. destruct H as [W Fr].
  apply andb_true_iff in W. destruct W as [W Wr].
  apply andb_true_iff in W. destruct W as [W P].
  apply andb_true_iff in W. destruct W as [W1 W2].
  rewrite Wr, Fr. repeat split; try assumption.
  destruct w; [discriminate|congruence].
Qed.

Lemma simple_well_formed (segs : list segment) :
  simple segs = true -> well_formed segs = true.
Proof. unfold simple. intros H. now apply andb_true_iff in H. Qed.

Lemma escape_step_pattern (segs : list segment) :
  simple segs = true -> escape_step (pattern_of segs) = escaped_of segs.
Proof.
  rewrite escape_step_chars. unfold pattern_of, escaped_of.
  induction segs as [|[c|w] r IH]; intros S; [reflexivity| |].
  - apply simple_cons_lit in S. destruct S as (_ & _ & _ & _ & S).
    cbn [flat_map segment_text]. rewrite flat_map_app, (IH S). cbn [flat_map].
    now rewrite app_nil_r.
  - apply simple_cons_param in S. destruct S as (_ & W & _ & S).
    cbn [flat_map segment_text]. rewrite flat_map_app, (IH S).
    change (":"%char :: w) with ([":"%char] ++ w) at 1.
    rewrite flat_map_app, (lit_source_word w W). reflexivity.
Qed.

(** The characters the later steps look for. *)
Lemma escaped_of_chars (segs : list segment) (c : ascii) :
  simple segs = true -> In c (escaped_of segs) ->
  Ascii.eqb c "(" = false /\ Ascii.eqb c "*" = false.
Proof.
  induction segs as [|[d|w] r IH]; intros S H; [destruct H| |].
  - apply simple_cons_lit in S. destruct S as (_ & _ & P & T & S).
    unfold escaped_of in H. cbn [flat_map] in H. apply in_app_or in H.
    destruct H as [H|H]; [|now apply IH].
    assert (X : c = "\"%char \/ c = d).
    { unfold lit_source in H. destruct (is_escape d).
      - destruct H as [<-|[<-|[]]]; [now left|now right].
      - destruct H as [<-|[]]. now right. }
    destruct X as [-> | ->]; [now split|]. split; [|exact T].
    unfold is_paren in P. now apply orb_false_iff in P.
  - apply simple_cons_param in S. destruct S as (_ & W & _ & S).
    unfold escaped_of in H. cbn [flat_map] in H. apply in_app_or in H.
    destruct H as [[E|H]|H]; [rewrite <- E; now split| |now apply IH].
    rewrite forallb_forall in W. specialize (W c H).
    destruct (Ascii.eqb_spec c "(") as [E|]; [rewrite E in W; discriminate|].
    destruct (Ascii.eqb_spec c "*") as [E|]; [rewrite E in W; discriminate|].
    now split.
Qed.

Lemma optional_free (s : str) :
  (forall c, In c s -> Ascii.eqb c "(" = false) -> match_free m_OPTIONAL_PARAMS s.
Proof.
  intros N pre u ->. destruct u as [|c u]; [reflexivity|]. simpl.
  rewrite (N c); [reflexivity|]. apply in_or_app. right. now left.
Qed.

Lemma m_NAMED_PARAM_other (c : ascii) (s : str) :
  Ascii.eqb ":" c = false -> Ascii.eqb "(" c = false -> m_NAMED_PARAM (c :: s) = None.
Proof.
  intros C P. unfold m_NAMED_PARAM. cbn [isPrefix list_ascii_of_string].
  rewrite P. cbn [andb]. unfold m_colon_word. now rewrite Ascii.eqb_sym, C.
Qed.

Lemma escaped_of_nonword (r : list segment) :
  starts_nonword (pattern_of r) = true -> starts_nonword (escaped_of r) = true.
Proof.
  destruct r as [|[c|w] r]; [reflexivity| |reflexivity].
  unfold escaped_of, pattern_of. cbn [flat_map segment_text app starts_nonword].
  unfold lit_source. intros H. now destruct (is_escape c).
Qed.

Lemma named_step_escaped (segs : list segment) :
  simple segs = true -> named_step (escaped_of segs) = source_of segs.
Proof.
  induction segs as [|[c|w] r IH]; intros S; [reflexivity| |].
  - apply simple_cons_lit in S. destruct S as (C & Q & P & _ & S).
    assert (O : Ascii.eqb "(" c = false).
    { unfold is_paren in P. apply orb_false_iff in P. now rewrite Ascii.eqb_sym. }
    unfold escaped_of, source_of. cbn [flat_map seg_source].
    fold (escaped_of r) (source_of r). rewrite <- (IH S).
    unfold lit_source, named_step. destruct (is_escape c).
    + cbn [app]. rewrite replace_all_cons, m_NAMED_PARAM_other by reflexivity.
      now rewrite replace_all_cons, m_NAMED_PARAM_other.
    + cbn [app]. now rewrite replace_all_cons, m_NAMED_PARAM_other.
  - apply simple_cons_param in S. destruct S as (W1 & W2 & P & S).
    unfold escaped_of, source_of. cbn [flat_map seg_source].
    fold (escaped_of r) (source_of r). rewrite <- (IH S).
    apply (named_step_plain w (escaped_of r) W1 W2). now apply escaped_of_nonword.
Qed.

Lemma source_of_chars (segs : list segment) (c : ascii) :
  simple segs = true -> In c (source_of segs) -> Ascii.eqb c "*" = false.
Proof.
  induction segs as [|[d|w] r IH]; intros S H; [destruct H| |].
  - apply simple_cons_lit in S. destruct S as (_ & _ & _ & T & S).
    unfold source_of in H. cbn [flat_map seg_source] in H. apply in_app_or in H.
    destruct H as [H|H]; [|now apply IH].
    unfold lit_source in H. destruct (is_escape d).
    + destruct H as [<-|[<-|[]]]; [reflexivity|exact T].
    + destruct H as [<-|[]]. exact T.
  - apply simple_cons_param in S. destruct S as (_ & _ & _ & S).
    unfold source_of in H. cbn [flat_map seg_source] in H. apply in_app_or in H.
    destruct H as [H|H]; [|now apply IH].
    repeat (destruct H as [<-|H]; [reflexivity|]). destruct H.
Qed.

(** What [regex] compiles for such a pattern. *)
Lemma routeToRegex_simple (segs : list segment) (st : regexps) :
  simple segs = true ->
  fst (routeToRegex (pattern_of segs) st)
  = "^" ++ source_of segs ++ query_capture ++ "$".
Proof.
  intros S. rewrite routeToRegex_steps, (escape_step_pattern segs S).
  unfold optional_step. rewrite replace_all_match_free.
  2:{ apply optional_free. intros c H. now apply (escaped_of_chars segs c S). }
  rewrite (named_step_escaped segs S).
  unfold splat_step. rewrite replace_all_match_free; [reflexivity|].
  apply splat_free. intros H. apply (source_of_chars segs _ S) in H. discriminate.
Qed.

(** The regular expression of a segment and of a pattern. *)
Definition atom (s : segment) : regexp :=
  match s with Lit c => RChar c | Param _ => users_capture end.

Definition atoms_seq (segs : list segment) (seq : regexp) : regexp :=
  fold_left (fun seq s => RSeq seq (atom s)) segs seq.

Definition simple_regexp (segs : list segment) : regexp :=
  RSeq (RSeq (atoms_seq segs (RSeq REmpty RBegin)) users_query) REnd.

(** The text begins with no quantifier. *)
Definition atom_head (s : str) : bool :=
  match s with
  | [] => true
  | c :: _ => negb (existsb (Ascii.eqb c) ("*+?" : str))
  end.

Lemma quantified_none (r : regexp) (s : str) :
  atom_head s = true -> quantified r s = (r, s).
Proof.
  destruct s as [|c s]; [reflexivity|]. unfold atom_head, quantified.
  cbn [existsb list_ascii_of_string]. intros H. apply negb_true_iff in H.
  apply orb_false_iff in H. destruct H as [H1 H].
  apply orb_false_iff in H. destruct H as [H2 H].
  apply orb_false_iff in H. destruct H as [H3 _].
  now rewrite H1, H2, H3.
Qed.

Lemma escape_item_escape (c : ascii) :
  is_escape c = true -> escape_item c = Some (CChar c).
Proof.
  destruct c as [[] [] [] [] [] [] [] []]; vm_compute; congruence.
Qed.

Lemma compile_escaped (f : nat) (c : ascii) (t : str) (alt : option regexp)
    (seq : regexp) :
  is_escape c = true -> atom_head t = true ->
  compile_from (S f) ("\"%char :: c :: t) alt seq
  = compile_from f t alt (RSeq seq (RChar c)).
Proof.
  intros E H.
  change (compile_from (S f) ("\"%char :: c :: t) alt seq)
    with (match escape_item c with
          | Some (CChar x) =>
              compile_from f (snd (quantified (RChar x) t)) alt
                (RSeq seq (fst (quantified (RChar x) t)))
          | Some i =>
              compile_from f (snd (quantified (RClass false [i]) t)) alt
                (RSeq seq (fst (quantified (RClass false [i]) t)))
          | None => None
          end).
  now rewrite (escape_item_escape c E), quantified_none.
Qed.

Lemma compile_ordinary (f : nat) (c : ascii) (t : str) (alt : option regexp)
    (seq : regexp) :
  is_escape c = false -> is_paren c = false -> Ascii.eqb c "*" = false ->
  atom_head t = true ->
  compile_from (S f) (c :: t) alt seq = compile_from f t alt (RSeq seq (RChar c)).
Proof.
  intros E P T H.
  assert (X : compile_from (S f) (c :: t) alt seq
              = compile_from f (snd (quantified (RChar c) t)) alt
                  (RSeq seq (fst (quantified (RChar c) t)))).
  { destruct c as [[] [] [] [] [] [] [] []];
      first [ now vm_compute in E | now vm_compute in P | now vm_compute in T
            | reflexivity ]. }
  now rewrite X, quantified_none.
Qed.

Lemma compile_capture (f : nat) (t : str) (alt : option regexp) (seq : regexp) :
  atom_head t = true ->
  compile_from (S (S (S f))) ("([^/?]+)" ++ t) alt seq
  = compile_from (S (S f)) t alt (RSeq seq users_capture).
Proof.
  intros H.
  change (compile_from (S (S (S f))) ("([^/?]+)" ++ t) alt seq)
    with (compile_from (S (S f)) (snd (quantified users_capture t)) alt
            (RSeq seq (fst (quantified users_capture t)))).
  now rewrite quantified_none.
Qed.

Lemma compile_tail (f : nat) (alt : option regexp) (seq : regexp) :
  compile_from (10 + f) (query_capture ++ "$") alt seq
  = Some (close_alternative alt (RSeq (RSeq seq users_query) REnd), []).
Proof. reflexivity. Qed.

Lemma source_head (segs : list segment) (rest : str) :
  simple segs = true -> atom_head rest = true ->
  atom_head (source_of segs ++ rest) = true.
Proof.
  destruct segs as [|[c|w] r]; intros S H; [exact H| |reflexivity].
  apply simple_cons_lit in S. destruct S as (_ & _ & _ & T & _).
  unfold source_of. cbn [flat_map seg_source]. unfold lit_source.
  destruct (is_escape c) eqn:E; [reflexivity|].
  cbn [app atom_head existsb list_ascii_of_string]. rewrite T. cbn [orb].
  destruct (Ascii.eqb_spec c "+") as [X|]; [rewrite X in E; discriminate|].
  destruct (Ascii.eqb_spec c "?") as [X|]; [rewrite X in E; discriminate|].
  reflexivity.
Qed.

Lemma compile_segs (segs : list segment) :
  simple segs = true ->
  forall (f : nat) (rest : str) (alt : option regexp) (seq : regexp),
    atom_head rest = true ->
    compile_from (S (S (length segs + f))) (source_of segs ++ rest) alt seq
    = compile_from (S (S f)) rest alt (atoms_seq segs seq).
Proof.
  induction segs as [|[c|w] r IH]; intros S f rest alt seq H; [reflexivity| |].
  - pose proof (source_head r rest) as A.
    apply simple_cons_lit in S. destruct S as (_ & _ & P & T & S).
    specialize (A S H).
    unfold source_of. cbn [flat_map seg_source length Nat.add].
    fold (source_of r). rewrite <- app_assoc. unfold lit_source.
    destruct (is_escape c) eqn:E.
    + cbn [app]. rewrite (compile_escaped _ c _ alt seq E A). now apply IH.
    + cbn [app]. rewrite (compile_ordinary _ c _ alt seq E P T A). now apply IH.
  - pose proof (source_head r rest) as A.
    apply simple_cons_param in S. destruct S as (_ & _ & _ & S).
    specialize (A S H).
    unfold source_of. cbn [flat_map seg_source length Nat.add].
    fold (source_of r). rewrite <- app_assoc.
    rewrite (compile_capture _ _ alt seq A). now apply IH.
Qed.

Lemma source_length (segs : list segment) : length segs <= length (source_of segs).
Proof.
  induction segs as [|[c|w] r IH]; [apply le_n| |];
    unfold source_of; cbn [flat_map seg_source]; fold (source_of r);
    rewrite length_app; cbn [length].
  - unfold lit_source. destruct (is_escape c); simpl; lia.
  - simpl. lia.
Qed.

(** The regular expression [new RegExp] builds from what [regex] writes. *)
Lemma compile_simple (segs : list segment) :
  simple segs = true ->
  compile ("^" ++ source_of segs ++ query_capture ++ "$") = Some (simple_regexp segs).
Proof.
  intros Hs. unfold compile.
  set (fuel := 2 * length ("^" ++ source_of segs ++ query_capture ++ "$") + 2).
  assert (F : exists n, fuel = S (S (S (length segs + (8 + n))))).
  { exists (fuel - 11 - length segs). unfold fuel.
    pose proof (source_length segs) as L.
    rewrite !length_app. simpl length. lia. }
  destruct F as [n ->].
  change ("^" ++ source_of segs ++ query_capture ++ "$")
    with ("^"%char :: (source_of segs ++ query_capture ++ "$")).
  change (compile_from (S (S (S (length segs + (8 + n)))))
            ("^"%char :: (source_of segs ++ query_capture ++ "$")) None REmpty)
    with (compile_from (S (S (length segs + (8 + n))))
            (source_of segs ++ query_capture ++ "$") None (RSeq REmpty RBegin)).
  rewrite (compile_segs segs Hs (8 + n) (query_capture ++ "$") None _ eq_refl).
  change (S (S (8 + n))) with (10 + n). now rewrite compile_tail.
Qed.

(** What the atoms of [segs] accept before the continuation [k]. *)
Fixpoint accepts (whole : nat) (segs : list segment) (k : str -> bool) (s : str) : bool :=
  match segs with
  | [] => k s
  | seg :: r => matches whole (atom seg) s (accepts whole r k)
  end.

Lemma matches_atoms_seq (whole : nat) (segs : list segment) :
  forall (seq : regexp) (s : str) (k : str -> bool),
    matches whole (atoms_seq segs seq) s k
    = matches whole seq s (accepts whole segs k).
Proof.
  induction segs as [|seg r IH]; intros seq s k; [reflexivity|].
  change (atoms_seq (seg :: r) seq) with (atoms_seq r (RSeq seq (atom seg))).
  now rewrite IH.
Qed.

(** A text a named parameter captures: not empty, without slash and
    question mark. *)
Definition capture (e : str) : Prop := e <> [] /\ forallb captured e = true.

Lemma accepts_iff (whole : nat) (segs : list segment) (k : str -> bool) :
  forall s,
    accepts whole segs k s = true
    <-> exists es rest,
          length es = length (names segs) /\ Forall capture es
          /\ s = fill segs es ++ rest /\ k rest = true.
Proof.
  induction segs as [|[c|w] r IH]; intros s.
  - cbn [accepts names fill length app]. split.
    + intros K. exists [], s. now repeat split.
    + intros (es & rest & _ & _ & -> & K). exact K.
  - cbn [accepts atom names]. rewrite matches_char_iff. split.
    + intros (t & -> & A). apply IH in A.
      destruct A as (es & rest & L & C & -> & K). now exists es, rest.
    + intros (es & rest & L & C & -> & K). exists (fill r es ++ rest).
      split; [reflexivity|]. apply IH. now exists es, rest.
  - cbn [accepts atom names length].
    change (matches whole users_capture s (accepts whole r k))
      with (matches whole segment_class s
              (fun s2 => matches whole (RStar segment_class) s2 (accepts whole r k))).
    split.
    + destruct s as [|c t]; [discriminate|].
      change (in_class true [CChar "/"; CChar "?"] c
              && matches whole (RStar segment_class) t (accepts whole r k) = true
              -> exists es rest,
                   length es = S (length (names r)) /\ Forall capture es
                   /\ c :: t = fill (Param w :: r) es ++ rest /\ k rest = true).
      intros M. apply andb_true_iff in M. destruct M as [C M].
      apply star_class_iff in M. destruct M as (e & rest0 & -> & E & A).
      apply IH in A. destruct A as (es & rest & L & F & -> & K).
      exists ((c :: e) :: es), rest. split; [simpl; now rewrite L|].
      split; [|split; [|exact K]].
      * constructor; [|exact F]. split; [discriminate|]. cbn [forallb].
        rewrite <- segment_class_captured, C.
        now rewrite (forallb_pointwise captured _ e
                       (fun x => eq_sym (segment_class_captured x))).
      * cbn [fill]. now rewrite <- !app_assoc.
    + intros (es & rest & L & F & -> & K).
      destruct es as [|e es]; [discriminate|]. injection L as L.
      inversion F as [|e' es' [N E] F']; subst.
      destruct e as [|c e]; [congruence|]. cbn [forallb] in E.
      apply andb_true_iff in E. destruct E as [C E].
      cbn [fill]. rewrite <- app_assoc. cbn [app].
      change (in_class true [CChar "/"; CChar "?"] c
              && matches whole (RStar segment_class) (e ++ fill r es ++ rest)
                   (accepts whole r k) = true).
      rewrite segment_class_captured, C. cbn [andb].
      apply star_class_iff. exists e, (fill r es ++ rest). split; [reflexivity|].
      split.
      * now rewrite (forallb_pointwise _ captured e segment_class_captured).
      * apply IH. now exists es, rest.
Qed.

Lemma simple_matches (whole : nat) (segs : list segment) (s : str) :
  matches whole (simple_regexp segs) s (fun _ => true)
  = (length s =? whole)
    && accepts whole segs (fun s' => matches whole users_query s' (at_end whole)) s.
Proof.
  unfold simple_regexp.
  change (matches whole
            (RSeq (RSeq (atoms_seq segs (RSeq REmpty RBegin)) users_query) REnd) s
            (fun _ => true))
    with (matches whole (atoms_seq segs (RSeq REmpty RBegin)) s
            (fun s' => matches whole users_query s' (at_end whole))).
  now rewrite matches_atoms_seq.
Qed.

Lemma simple_not_later (whole : nat) (segs : list segment) (s : str) :
  length s < whole -> matches_somewhere whole (simple_regexp segs) s = false.
Proof.
  induction s as [|c s IH]; intros L; cbn [matches_somewhere];
    rewrite simple_matches;
    replace (length _ =? whole) with false by (symmetry; apply Nat.eqb_neq; lia).
  - reflexivity.
  - cbn [andb orb]. apply IH. simpl in L. lia.
Qed.

Lemma simple_somewhere (segs : list segment) (u : str) :
  matches_somewhere (length u) (simple_regexp segs) u
  = accepts (length u) segs
      (fun s' => matches (length u) users_query s' (at_end (length u))) u.
Proof.
  destruct u as [|c u]; cbn [matches_somewhere].
  - now rewrite simple_matches, orb_false_r.
  - rewrite simple_not_later by (simpl; lia).
    now rewrite simple_matches, Nat.eqb_refl, orb_false_r.
Qed.

Lemma test_simple (segs : list segment) (u : str) (st : regexps) :
  simple segs = true ->
  fst (test_url (pattern_of segs) u st)
  = Ok (accepts (length u) segs
          (fun s' => matches (length u) users_query s' (at_end (length u))) u).
Proof.
  intros Hs. unfold test_url, test, bind, ret. cbn [t_path t_url].
  pose proof (routeToRegex_simple segs st Hs) as R.
  destruct (routeToRegex (pattern_of segs) st) as [re st1]. cbn [fst] in *. subst re.
  unfold RegExp_test. now rewrite (compile_simple segs Hs), simple_somewhere.
Qed.

Lemma test_simple_accepts (segs : list segment) (u : str) (st : regexps) :
  simple segs = true ->
  fst (test_url (pattern_of segs) u st) = Ok true
  <-> exists es q,
        length es = length (names segs) /\ Forall capture es
        /\ u = fill segs es ++ q
        /\ (q = [] \/ exists q', q = "?"%char :: q').
Proof.
  intros Hs. rewrite (test_simple segs u st Hs). split.
  - intros H. injection H as H. apply accepts_iff in H.
    destruct H as (es & q & L & F & E & K). exists es, q.
    split; [exact L|]. split; [exact F|]. split; [exact E|].
    now apply users_query_matches in K.
  - intros (es & q & L & F & E & K). f_equal. apply accepts_iff.
    exists es, q. split; [exact L|]. split; [exact F|]. split; [exact E|].
    now apply users_query_matches.
Qed.

(** X15.  For a pattern made of named parameters and of literal text
    without parentheses, stars, colons and question marks, [test] accepts
    a URL exactly when the URL is the pattern with each named parameter
    replaced by a text that is not empty and holds neither a slash nor a
    question mark, followed by nothing or by a question mark and any
    query.  Every other literal character, the ones with a meaning in a
    regular expression included, stands for itself. *)
Theorem test_simple_iff (segs : list segment) (u : str) (st : regexps) :
  simple segs = true ->
  (fst (test_url (pattern_of segs) u st) = Ok true
   <-> exists es q,
         length es = length (names segs) /\ Forall capture es
         /\ u = fill segs es ++ q
         /\ (q = [] \/ exists q', q = "?"%char :: q'))
  /\ (fst (test_url (pattern_of segs) u st) = Ok true
      \/ fst (test_url (pattern_of segs) u st) = Ok false).
Proof.
  intros Hs. split; [now apply test_simple_accepts|].
  rewrite (test_simple segs u st Hs).
  destruct (accepts _ _ _ _); [now left|now right].
Qed.

Lemma test_simple_iff_witness :
  simple (map Lit ("/a.b/" : str) ++ [Param "id"]) = true
  /\ fst (test_url "/a.b/:id" "/a.b/42?x=1" fresh) = Ok true.
Proof.
  split; [reflexivity|].
  apply (proj1 (test_simple_iff (map Lit ("/a.b/" : str) ++ [Param "id"])
                  "/a.b/42?x=1" fresh eq_refl)).
  exists [("42" : str)], ("?x=1" : str). split; [reflexivity|]. split.
  - repeat constructor. discriminate.
  - split; [reflexivity|]. right. now exists ("x=1" : str).
Defined.

(** ** What [path] builds, [test] accepts *)

Lemma hex_digit_captured (n : nat) :
  captured (hex_digit n) = true /\ literal_ok (hex_digit n) = true.
Proof.
  do 16 (destruct n as [|n]; [now split|]). now destruct n.
Qed.

Lemma percent_captured (n : nat) : forallb captured (percent n) = true.
Proof.
  unfold percent. cbn [forallb].
  now rewrite (proj1 (hex_digit_captured (n / 16))), (proj1 (hex_digit_captured (n mod 16))).
Qed.

Lemma encode_captured (s : str) : forallb captured (encode s) = true.
Proof.
  unfold encode. induction s as [|c s IH]; [reflexivity|].
  cbn [flat_map]. rewrite forallb_app, IH, andb_true_r.
  unfold encode_unit. destruct (is_unreserved c) eqn:U.
  - cbn [forallb]. rewrite andb_true_r. unfold captured.
    destruct (Ascii.eqb_spec "/" c) as [E|]; [rewrite <- E in U; discriminate|].
    destruct (Ascii.eqb_spec "?" c) as [E|]; [rewrite <- E in U; discriminate|].
    reflexivity.
  - destruct (code c <? 128).
    + apply percent_captured.
    + rewrite forallb_app. now rewrite !percent_captured.
Qed.

Lemma injected_captured (v : value) : forallb captured (injected v) = true.
Proof.
  unfold injected, encodeURIComponent.
  destruct (ToString v) as [s|]; [apply encode_captured|reflexivity].
Qed.

Lemma word_literal_ok (c : ascii) : is_word c = true -> literal_ok c = true.
Proof.
  destruct c as [[] [] [] [] [] [] [] []]; vm_compute; congruence.
Qed.

(** The characters of a filled pattern. *)
Lemma fill_chars (segs : list segment) :
  simple segs = true ->
  forall es, Forall (fun e => forallb literal_ok e = true) es ->
  forall c, In c (fill segs es) -> literal_ok c = true.
Proof.
  induction segs as [|[d|w] r IH]; intros Hs es F c H; [destruct H| |].
  - apply simple_cons_lit in Hs. destruct Hs as (_ & _ & P & T & Hs).
    cbn [fill] in H. destruct H as [<-|H]; [|now apply (IH Hs es F)].
    unfold literal_ok. now rewrite P, T.
  - apply simple_cons_param in Hs. destruct Hs as (_ & W & _ & Hs).
    cbn [fill] in H. destruct es as [|e es].
    + destruct H as [<-|H]; [reflexivity|]. apply in_app_or in H.
      destruct H as [H|H]; [|now apply (IH Hs [] F)].
      rewrite forallb_forall in W. now apply word_literal_ok, W.
    + inversion F as [|e' es' E F']; subst. apply in_app_or in H.
      destruct H as [H|H]; [|now apply (IH Hs es F')].
      rewrite forallb_forall in E. now apply E.
Qed.

Lemma literal_ok_chars (text : str) (c : ascii) :
  (forall x, In x text -> literal_ok x = true) -> In c text ->
  c <> "("%char /\ c <> ")"%char /\ c <> "*"%char.
Proof.
  intros L H. specialize (L c H). repeat split; intros ->; discriminate.
Qed.

(** A text without parentheses, stars and trailing slash goes through the
    cleaning steps of [parse] as it is. *)
Lemma cleaned_plain (text : str) :
  (forall x, In x text -> literal_ok x = true) ->
  (forall x, text <> x ++ "/") ->
  cleaned (pruned text) = text.
Proof.
  intros L N. rewrite pruned_no_group.
  2:{ intros H. now destruct (literal_ok_chars text _ L H) as [X _]. }
  unfold cleaned.
  assert (F : filter (fun c => negb (is_paren c)) text = text).
  { apply forallb_filter_id. apply forallb_forall. intros c H.
    specialize (L c H). unfold literal_ok in L. now apply andb_true_iff in L. }
  rewrite F. destruct (removeTrailingSlash_cases text) as [[E _]|E]; [exact E|].
  now destruct (N (removeTrailingSlash text)).
Qed.

(** A value whose encoded text can stand for a named parameter: it is not
    empty and holds no parenthesis and no star. *)
Definition fits (v : value) : Prop :=
  v <> VUnpaired /\ injected v <> [] /\ forallb literal_ok (injected v) = true.

Lemma fits_capture (vs : list value) :
  Forall fits vs -> Forall capture (map injected vs).
Proof.
  intros F. apply Forall_forall. intros e H. apply in_map_iff in H.
  destruct H as (v & <- & H). rewrite Forall_forall in F.
  destruct (F v H) as (_ & N & _). split; [exact N|apply injected_captured].
Qed.

Lemma fits_literal (vs : list value) :
  Forall fits vs -> Forall (fun e => forallb literal_ok e = true) (map injected vs).
Proof.
  intros F. apply Forall_forall. intros e H. apply in_map_iff in H.
  destruct H as (v & <- & H). rewrite Forall_forall in F.
  now destruct (F v H) as (_ & _ & L).
Qed.

Lemma pattern_no_group (segs : list segment) :
  simple segs = true ->
  replace_all m_OPTIONAL_PARAMS (fun _ => []) (pattern_of segs) = pattern_of segs.
Proof.
  intros Hs. apply replace_all_match_free, optional_free. intros c H.
  rewrite <- fill_nil in H. apply (fill_chars segs Hs [] (Forall_nil _)) in H.
  unfold literal_ok, is_paren in H. apply andb_true_iff in H. destruct H as [H _].
  apply negb_true_iff in H. now apply orb_false_iff in H.
Qed.

(** X16.  For a pattern made of named parameters and of literal text
    without parentheses, stars, colons and question marks, and an array
    holding one value for each named parameter, each value having an
    encoded text that is not empty and holds no parenthesis and no star:
    when the filled pattern does not end with a slash, [path] returns the
    filled pattern, in every state, and [test] accepts it for the same
    pattern, alone or followed by a question mark and any query. *)
Theorem built_path_accepted (segs : list segment) (vs : list value)
    (st st' : regexps) (q : str) :
  simple segs = true ->
  length vs = length (names segs) ->
  Forall fits vs ->
  let text := fill segs (map injected vs) in
  (forall x, text <> x ++ "/") ->
  fst (parse (Some (pattern_of segs)) (ArrayArgs vs) st) = Ok text
  /\ fst (test_url (pattern_of segs) text st') = Ok true
  /\ fst (test_url (pattern_of segs) (text ++ "?" ++ q) st') = Ok true.
Proof.
  intros Hs L F text N.
  pose proof (fill_chars segs Hs (map injected vs) (fits_literal vs F)) as C.
  fold text in C. split; [|split].
  - assert (V : vs = [] \/ vs <> []) by (destruct vs; [now left|right; discriminate]).
    destruct V as [V|V].
    + unfold text. rewrite V.
      rewrite (parse_empty (Some (pattern_of segs)) (ArrayArgs []) st eq_refl).
      cbn [string_or_empty map]. now rewrite (pattern_no_group segs Hs), fill_nil.
    + rewrite parse_array_starless.
      * fold text. now rewrite cleaned_plain.
      * now apply simple_well_formed.
      * exact V.
      * intros H. rewrite Forall_forall in F. now destruct (F _ H) as [X _].
      * fold text. intros H. now destruct (literal_ok_chars text _ C H) as (_ & _ & X).
  - apply (test_simple_accepts segs text st' Hs).
    exists (map injected vs), []. rewrite app_nil_r, length_map.
    split; [exact L|]. split; [now apply fits_capture|]. split; [reflexivity|now left].
  - apply (test_simple_accepts segs (text ++ "?" ++ q) st' Hs).
    exists (map injected vs), ("?" ++ q). rewrite length_map.
    split; [exact L|]. split; [now apply fits_capture|]. split; [reflexivity|].
    right. now exists q.
Qed.

Lemma built_path_accepted_witness :
  simple (map Lit ("/users/" : str) ++ [Param "id"] ++ map Lit ("/posts/" : str)
          ++ [Param "post"]) = true
  /\ fst (parse (Some ("/users/:id/posts/:post" : str))
            (ArrayArgs [VNumber 42; VString "a b"]) (mkRegexps 0 0 5 0 0))
     = Ok ("/users/42/posts/a%20b" : str)
  /\ fst (test_url "/users/:id/posts/:post" "/users/42/posts/a%20b" fresh) = Ok true
  /\ fst (test_url "/users/:id/posts/:post" "/users/42/posts/a%20b?x=1" fresh) = Ok true.
Proof.
  split; [reflexivity|].
  refine (built_path_accepted
            (map Lit ("/users/" : str) ++ [Param "id"] ++ map Lit ("/posts/" : str)
             ++ [Param "post"])
            [VNumber 42; VString "a b"] (mkRegexps 0 0 5 0 0) fresh "x=1"
            eq_refl eq_refl _ _).
  - repeat constructor; discriminate.
  - intros x E. apply (f_equal (@rev ascii)) in E. rewrite rev_app_distr in E.
    discriminate.
Defined.



(** ** The second and fourth steps of [regex] *)

Lemma group1_body (body : str) : group1 ("(" ++ body ++ ")") = body.
Proof.
  unfold group1. cbn [app list_ascii_of_string tl]. apply removelast_last.
Qed.

Lemma optional_step_group (body post : str) :
  group_body body ->
  optional_step ("(" ++ body ++ ")" ++ post) = "(?:" ++ body ++ ")?" ++ optional_step post.
Proof.
  intros B. unfold optional_step.
  change ("(" ++ body ++ ")" ++ post) with ("("%char :: body ++ ")"%char :: post).
  rewrite replace_all_cons.
  assert (E : m_OPTIONAL_PARAMS ("("%char :: body ++ ")"%char :: post)
              = Some (S (length body + 1))).
  { replace (S (length body + 1)) with (length body + 2) by lia.
    apply m_OPTIONAL_PARAMS_spec. now exists body, post. }
  rewrite E, skipn_body.
  replace (firstn (S (length body + 1)) ("("%char :: body ++ ")"%char :: post))
    with ("(" ++ body ++ ")").
  - rewrite group1_body. now rewrite <- !app_assoc.
  - cbn [firstn app list_ascii_of_string]. f_equal.
    change (body ++ ")"%char :: post) with (body ++ [")"%char] ++ post).
    rewrite app_assoc, firstn_app, firstn_all2 by (rewrite length_app; simpl; lia).
    rewrite length_app. cbn [length]. now rewrite Nat.sub_diag, app_nil_r.
Qed.

Lemma optional_step_before (pre t : str) :
  ~ In "("%char pre -> optional_step (pre ++ t) = pre ++ optional_step t.
Proof.
  intros N. unfold optional_step. induction pre as [|c pre IH]; [reflexivity|].
  cbn [app]. rewrite replace_all_cons.
  replace (m_OPTIONAL_PARAMS (c :: pre ++ t)) with (@None nat).
  - rewrite IH; [reflexivity|]. intros H. apply N. now right.
  - simpl. destruct (Ascii.eqb_spec c "(") as [->|]; [|reflexivity].
    exfalso. apply N. now left.
Qed.

Lemma m_SPLAT_PARAMS_bound (s : str) (n : nat) :
  m_SPLAT_PARAMS s = Some n -> n <= length s.
Proof.
  destruct s as [|c t]; simpl; [discriminate|].
  destruct (Ascii.eqb c "*"); [|discriminate].
  pose proof (span_word_length t) as L.
  destruct (fst (span_word t)); [discriminate|].
  intros E; injection E as <-. simpl in *. lia.
Qed.

Lemma m_SPLAT_PARAMS_stable (u t : str) :
  u <> [] -> starts_nonword t = true -> m_SPLAT_PARAMS (u ++ t) = m_SPLAT_PARAMS u.
Proof.
  intros U T. destruct u as [|c u]; [congruence|]. simpl.
  now rewrite (span_word_stable u t T).
Qed.

Lemma splat_step_token (w post : str) :
  is_name w -> starts_nonword post = true ->
  splat_step ("*" ++ w ++ post) = "([^?]*?)" ++ splat_step post.
Proof.
  intros [W1 W2] P. unfold splat_step.
  change ("*" ++ w ++ post) with ("*"%char :: w ++ post).
  rewrite replace_all_cons.
  assert (E : m_SPLAT_PARAMS ("*"%char :: w ++ post) = Some (S (length w))).
  { simpl. rewrite (span_word_app w post W2 P). simpl.
    destruct w; [congruence|reflexivity]. }
  rewrite E. now rewrite skipn_app, Nat.sub_diag, skipn_all.
Qed.

(** X18.  In the second step of [regex] an optional group becomes a
    non-capturing group followed by a question mark, the text before the
    first opening parenthesis staying as it is; a text without an opening
    parenthesis, and an opening parenthesis that no closing one follows,
    are left unchanged.  In the fourth step a star followed by a name
    becomes the capture group of a splat, the text before and the text
    after it being compiled on their own. *)
Theorem regex_groups_and_splats (pre body w post : str) :
  ~ In "("%char pre ->
  group_body body ->
  is_name w ->
  starts_nonword post = true ->
  optional_step (pre ++ "(" ++ body ++ ")" ++ post)
  = pre ++ "(?:" ++ body ++ ")?" ++ optional_step post
  /\ optional_step pre = pre
  /\ (~ In ")"%char post -> optional_step (pre ++ "(" ++ post) = pre ++ "(" ++ post)
  /\ (forall before,
        splat_step (before ++ "*" ++ w ++ post)
        = splat_step before ++ "([^?]*?)" ++ splat_step post).
Proof.
  intros N B W P. split; [|split; [|split]].
  - now rewrite optional_step_before, optional_step_group.
  - rewrite <- (app_nil_r pre) at 1. rewrite optional_step_before by exact N.
    apply app_nil_r.
  - intros C. rewrite optional_step_before by exact N. f_equal.
    unfold optional_step. apply replace_all_match_free.
    intros x u E. destruct u as [|c u]; [reflexivity|].
    destruct (m_OPTIONAL_PARAMS (c :: u)) as [n|] eqn:M; [|reflexivity].
    apply m_OPTIONAL_PARAMS_spec in M. destruct M as (b & r & M & _ & _).
    exfalso. rewrite M in E. destruct x as [|d x].
    + cbn [app list_ascii_of_string] in E. injection E as E. apply C. rewrite E.
      apply in_or_app. right. now left.
    + cbn [app list_ascii_of_string] in E. injection E as _ E. apply C. rewrite E.
      apply in_or_app. right. right. apply in_or_app. right. now left.
  - intros before. unfold splat_step at 1. rewrite replace_all_app.
    + fold (splat_step before) (splat_step ("*" ++ w ++ post)).
      now rewrite splat_step_token.
    + exact m_SPLAT_PARAMS_bound.
    + intros y u _ U. now apply m_SPLAT_PARAMS_stable.
Qed.

Lemma regex_groups_and_splats_witness :
  optional_step ("/a" ++ "(" ++ "/b" ++ ")" ++ "/c") = "/a(?:/b)?/c"
  /\ splat_step ("/a/" ++ "*" ++ "rest" ++ "/c") = "/a/([^?]*?)/c".
Proof.
  assert (N : ~ In "("%char ("/a" : str))
    by (intros H; repeat (destruct H as [H|H]; [discriminate|]); exact H).
  assert (B : group_body "/b").
  { split.
    - intros H. repeat (destruct H as [H|H]; [discriminate|]). exact H.
    - intros c H. repeat (destruct H as [<-|H]; [reflexivity|]). destruct H. }
  assert (W : is_name "rest") by (split; [discriminate|reflexivity]).
  destruct (regex_groups_and_splats "/a" "/b" "rest" "/c" N B W eq_refl)
    as (H1 & _ & _ & H2).
  split; [exact H1|exact (H2 ("/a/" : str))].
Defined.

(** ** [params] before [path] *)

Lemma pattern_tokens (segs : list segment) :
  simple segs = true ->
  tokens (pattern_of segs) = map (fun w => ":"%char :: w) (names segs).
Proof.
  intros Hs. unfold tokens.
  rewrite (tokens_of_pattern segs (simple_well_formed segs Hs)).
  rewrite (match_all_match_free m_SPLAT_PARAMS); [apply app_nil_r|].
  apply splat_free. intros H. rewrite <- fill_nil in H.
  apply (fill_chars segs Hs [] (Forall_nil _)) in H. discriminate.
Qed.

(** The mapping [params] builds from an array gives each name of the
    pattern the value of its position. *)
Lemma params_values (segs : list segment) (vs : list value) (st : regexps) :
  simple segs = true ->
  NoDup (names segs) ->
  length vs = length (names segs) ->
  map (fun w => get (fst (paramsArray2Object (pattern_of segs) vs st)) w) (names segs)
  = vs.
Proof.
  intros Hs D L. rewrite paramsArray2Object_value. fold (tokens (pattern_of segs)).
  rewrite (pattern_tokens segs Hs).
  set (ts := map (fun w => ":"%char :: w) (names segs)).
  assert (T : forall j, j < length (names segs) ->
                        tl (nth j ts []) = nth j (names segs) []).
  { intros j J. unfold ts.
    rewrite (nth_indep _ [] (":"%char :: []))
      by (now rewrite length_map).
    now rewrite (map_nth (fun w => ":"%char :: w) (names segs) [] j). }
  apply (nth_ext _ _ VUndefined VUndefined); [now rewrite length_map|].
  rewrite length_map. intros j J.
  rewrite (nth_indep _ VUndefined
             (get (fst (fold_left (assign vs) ts ([], 0))) []))
    by (now rewrite length_map).
  rewrite (map_nth (fun w => get (fst (fold_left (assign vs) ts ([], 0))) w)
             (names segs) [] j).
  rewrite <- (T j J). unfold get. rewrite assign_lookup; [reflexivity| |].
  - unfold ts. now rewrite length_map.
  - unfold ts at 1. rewrite length_map. intros j' J'.
    rewrite (T j J), (T j') by lia. intros E.
    apply (proj1 (NoDup_nth (names segs) []) D) in E; lia.
Qed.

Lemma set_not_empty (o : object) (k : str) (v : value) : set o k v <> [].
Proof.
  destruct o as [|[k0 v0] o]; simpl; [discriminate|].
  destruct (str_eqb k0 k); discriminate.
Qed.

Lemma assign_not_empty (args : list value) (ts : list str) :
  forall o i, ts <> [] \/ o <> [] -> fst (fold_left (assign args) ts (o, i)) <> [].
Proof.
  induction ts as [|t ts IH]; intros o i H.
  - destruct H as [H|H]; [congruence|exact H].
  - cbn [fold_left assign]. apply IH. right. apply set_not_empty.
Qed.

Lemma params_not_empty (segs : list segment) (vs : list value) (st : regexps) :
  simple segs = true ->
  names segs <> [] ->
  ~ In ("length" : str) (names segs) ->
  isEmpty (ObjectArgs (fst (paramsArray2Object (pattern_of segs) vs st))) = false.
Proof.
  intros Hs N K. rewrite paramsArray2Object_value. fold (tokens (pattern_of segs)).
  rewrite (pattern_tokens segs Hs). apply isEmpty_object_false. split.
  - apply assign_not_empty. left. destruct (names segs); [congruence|discriminate].
  - unfold get. rewrite assign_absent; [discriminate|].
    rewrite map_map. cbn [tl]. now rewrite map_id.
Qed.

Lemma respects_cleanOptional (p : str) : respects (cleanOptional p).
Proof.
  unfold cleanOptional. apply respects_bind; [apply respects_re_match|].
  intros [parts|]; [|apply respects_ret].
  apply respects_fold_M. intros q part.
  apply respects_bind; [|intros []; apply respects_ret].
  unfold isNamedOrSplatParam.
  destruct (has_match m_NAMED_PARAM part);
    [apply respects_ret|apply respects_re_test_splat].
Qed.

(** X19.  For a pattern made of named parameters with distinct names,
    none of them [length] or [__proto__], and of literal text without
    parentheses, stars, colons and question marks: the mapping that
    [params] builds from an array holding one encodable value for each
    name gives each name the value of its position, and filling the
    pattern with that mapping gives what filling it with the array itself
    gives. *)
Theorem params_then_path (segs : list segment) (vs : list value)
    (st0 st : regexps) :
  simple segs = true ->
  NoDup (names segs) ->
  ~ In ("length" : str) (names segs) ->
  ~ In ("__proto__" : str) (names segs) ->
  vs <> [] ->
  length vs = length (names segs) ->
  ~ In VUnpaired vs ->
  let o := fst (paramsArray2Object (pattern_of segs) vs st0) in
  fst (parse (Some (pattern_of segs)) (ObjectArgs o) st)
  = fst (parse (Some (pattern_of segs)) (ArrayArgs vs) st)
  /\ (forall j, j < length vs ->
                get o (nth j (names segs) []) = nth j vs VUndefined).
Proof.
  intros Hs D K _ V L U o.
  pose proof (simple_well_formed segs Hs) as W.
  pose proof (params_values segs vs st0 Hs D L) as P. fold o in P.
  assert (N : names segs <> []) by (destruct (names segs), vs; simpl in *; congruence).
  pose proof (params_not_empty segs vs st0 Hs N K) as E. fold o in E.
  split.
  - assert (A : isEmpty (args_or_array (ArrayArgs vs)) = false)
      by (destruct vs; [congruence|reflexivity]).
    rewrite (parse_nonempty (Some (pattern_of segs)) (ArrayArgs vs) st A).
    rewrite (parse_nonempty (Some (pattern_of segs)) (ObjectArgs o) st E).
    cbn [string_or_empty args_or_array].
    pose proof (tokens_of_pattern segs W) as T.
    rewrite !replaceArgs_shape, consumed_keyed
      by (rewrite T; destruct (names segs); [congruence|discriminate]).
    cbn [consumed after_names]. rewrite T, map_map. cbn [tl]. rewrite P.
    pose proof (inject_aligned segs W vs [] st eq_refl (Nat.eq_le_incl _ _ L) U) as I1.
    pose proof (inject_aligned segs W vs [] (set_lastIndex NAMED_PARAMS 0 st) eq_refl
                  (Nat.eq_le_incl _ _ L) U) as I2.
    cbn [app] in I1, I2. rewrite I1, I2. do 2 f_equal.
    now apply (respects_cleanOptional (fill segs (map injected vs))).
  - intros j J.
    transitivity (nth j (map (fun w => get o w) (names segs)) VUndefined);
      [|now rewrite P].
    rewrite (nth_indep _ VUndefined (get o [])) by (rewrite length_map; lia).
    now rewrite (map_nth (fun w => get o w) (names segs) [] j).
Qed.

Lemma params_then_path_witness :
  simple users_id = true
  /\ NoDup (names users_id)
  /\ fst (parse (Some ("/users/:id" : str))
            (ObjectArgs (fst (paramsArray2Object "/users/:id" [VString "*x"] fresh)))
            (mkRegexps 0 0 9 0 0))
     = fst (parse (Some ("/users/:id" : str)) (ArrayArgs [VString "*x"])
              (mkRegexps 0 0 9 0 0)).
Proof.
  assert (D : NoDup (names users_id)) by (repeat constructor; intros []).
  split; [reflexivity|]. split; [exact D|].
  refine (proj1 (params_then_path users_id [VString "*x"] fresh (mkRegexps 0 0 9 0 0)
                   eq_refl D _ _ ltac:(discriminate) eq_refl _)).
  - intros [H|[]]. discriminate.
  - intros [H|[]]. discriminate.
  - intros [H|[]]. discriminate.
Defined.

(** ** The separators of a filled path *)

(** The number of occurrences of a character in a text. *)
Definition count (c : ascii) (s : str) : nat := length (filter (Ascii.eqb c) s).

Lemma count_app (c : ascii) (a b : str) : count c (a ++ b) = count c a + count c b.
Proof. unfold count. now rewrite filter_app, length_app. Qed.

Lemma count_cons (c d : ascii) (s : str) : count c s <= count c (d :: s).
Proof. unfold count. simpl. destruct (Ascii.eqb c d); simpl; lia. Qed.

Lemma count_skipn (c : ascii) (n : nat) (s : str) : count c (skipn n s) <= count c s.
Proof. rewrite <- (firstn_skipn n s) at 2. rewrite count_app. lia. Qed.

Lemma count_filter (c : ascii) (g : ascii -> bool) (s : str) :
  count c (filter g s) <= count c s.
Proof.
  induction s as [|d s IH]; [apply le_n|]. simpl.
  destruct (g d); unfold count in *; simpl; destruct (Ascii.eqb c d); simpl; lia.
Qed.

Lemma count_replace_first (c : ascii) (m : matcher) (e s : str) :
  count c (replace_first m e s) <= count c e + count c s.
Proof.
  induction s as [|d s IH]; cbn [replace_first].
  - destruct (m []); unfold count; simpl; lia.
  - destruct (m (d :: s)) as [n|].
    + rewrite count_app. pose proof (count_skipn c n (d :: s)). lia.
    + unfold count in *. simpl. destruct (Ascii.eqb c d); simpl; lia.
Qed.

Lemma count_replace_all (c : ascii) (m : matcher) (f : str -> str) (s : str) :
  (forall t, count c (f t) = 0) -> count c (replace_all m f s) <= count c s.
Proof.
  intros F. induction s as [s IH] using str_length_ind.
  destruct s as [|d t]; [apply le_n|]. rewrite replace_all_cons.
  destruct (m (d :: t)) as [[|n]|].
  - specialize (IH t (le_n _)). unfold count in *. simpl.
    destruct (Ascii.eqb c d); simpl; lia.
  - rewrite count_app, F. specialize (IH (skipn n t) (skipn_length_lt n d t)).
    pose proof (count_skipn c n t). pose proof (count_cons c d t). lia.
  - specialize (IH t (le_n _)). unfold count in *. simpl.
    destruct (Ascii.eqb c d); simpl; lia.
Qed.

(** A separator: the slash or the question mark. *)
Definition separator (c : ascii) : bool := negb (captured c).

Lemma count_encoded (sep : ascii) (v : value) (e : str) :
  separator sep = true -> encodeURIComponent v = Ok e -> count sep e = 0.
Proof.
  unfold encodeURIComponent. destruct (ToString v) as [s|]; [|discriminate].
  intros Hs E. injection E as <-. pose proof (encode_captured s) as C.
  unfold count. induction (encode s) as [|d l IH]; [reflexivity|].
  cbn [forallb] in C. apply andb_true_iff in C. destruct C as [D C].
  cbn [filter]. destruct (Ascii.eqb_spec sep d) as [<-|]; [|now apply IH].
  unfold separator in Hs. now rewrite D in Hs.
Qed.

Lemma count_replaceArg (sep : ascii) (path : str) (v : value) (st : regexps) (p : str) :
  separator sep = true ->
  fst (replaceArg path v st) = Ok p -> count sep p <= count sep path.
Proof.
  intros Hs. unfold replaceArg.
  destruct (encodeURIComponent v) as [e|x] eqn:E; [|discriminate].
  pose proof (count_encoded sep v e Hs E) as Z.
  destruct (contains ":" path).
  - intros H. injection H as <-.
    pose proof (count_replace_first sep m_NAMED_PARAM e path). lia.
  - intros H. injection H as <-. now apply count_replace_all.
Qed.

Lemma count_inject (sep : ascii) (vs : list value) :
  separator sep = true ->
  forall (path : str) (st : regexps) (p : str),
    fst (fold_ok replaceArg vs path st) = Ok p -> count sep p <= count sep path.
Proof.
  intros Hs. induction vs as [|v vs IH]; intros path st p.
  - intros H. injection H as <-. apply le_n.
  - cbn [fold_ok]. unfold bind_ok.
    pose proof (count_replaceArg sep path v st) as R.
    destruct (replaceArg path v st) as [[p1|x] st1]; [|discriminate].
    intros H. apply IH in H. specialize (R p1 Hs eq_refl). lia.
Qed.

Lemma count_cleanOptional (sep : ascii) (p : str) (st : regexps) :
  count sep (fst (cleanOptional p st)) <= count sep p.
Proof.
  unfold cleanOptional, bind. destruct (re_match OPTIONAL_PARAMS p st) as [[parts|] st1];
    [|apply le_n].
  revert st1. generalize p. induction parts as [|part parts IH]; intros q st1.
  - apply le_n.
  - cbn [fold_M]. unfold bind at 1.
    destruct (isNamedOrSplatParam part st1) as [[|] st2]; unfold ret at 1.
    + specialize (IH (replace_first (m_literal part) [] q) st2).
      pose proof (count_replace_first sep (m_literal part) [] q) as R.
      unfold count at 2 in R. simpl in R. lia.
    + apply IH.
Qed.

Lemma count_cleaned (sep : ascii) (p : str) : count sep (cleaned p) <= count sep p.
Proof.
  unfold cleaned.
  pose proof (count_filter sep (fun c => negb (is_paren c)) p) as F.
  destruct (removeTrailingSlash_cases (filter (fun c => negb (is_paren c)) p))
    as [[E _]|E].
  - now rewrite E.
  - rewrite E, count_app in F. lia.
Qed.

(** X20.  Whatever the pattern, the arguments and the state, the path
    [parse] returns holds no more slashes and no more question marks than
    the pattern: the injected values, being component-encoded, bring none,
    so a value cannot add a path segment or start the query. *)
Theorem parse_adds_no_separator (path : option str) (args : arguments)
    (st : regexps) (r : str) (sep : ascii) :
  sep = "/"%char \/ sep = "?"%char ->
  fst (parse path args st) = Ok r ->
  count sep r <= count sep (string_or_empty path).
Proof.
  intros S. assert (Hs : separator sep = true) by (destruct S as [-> | ->]; reflexivity).
  destruct (isEmpty (args_or_array args)) eqn:E.
  - rewrite (parse_empty path args st E). intros H. injection H as <-.
    now apply count_replace_all.
  - rewrite (parse_nonempty path args st E), replaceArgs_shape.
    destruct (consumed (string_or_empty path) (args_or_array args)) as [vals|];
      [|discriminate].
    pose proof (count_inject sep vals Hs (string_or_empty path)
                  (after_names (args_or_array args) st)) as I.
    destruct (fold_ok replaceArg vals (string_or_empty path)
                (after_names (args_or_array args) st)) as [[p|x] st1]; [|discriminate].
    intros H. injection H as <-. specialize (I p eq_refl).
    pose proof (count_cleanOptional sep p st1).
    pose proof (count_cleaned sep (fst (cleanOptional p st1))). lia.
Qed.

Lemma parse_adds_no_separator_witness :
  fst (parse (Some ("/a/:b" : str)) (ArrayArgs [VString "x/y?z"]) fresh)
  = Ok ("/a/x%2Fy%3Fz" : str)
  /\ count "/" ("/a/x%2Fy%3Fz" : str) <= count "/" ("/a/:b" : str).
Proof.
  split; [reflexivity|].
  exact (parse_adds_no_separator (Some ("/a/:b" : str)) (ArrayArgs [VString "x/y?z"])
           fresh "/a/x%2Fy%3Fz" "/" (or_introl eq_refl) eq_refl).
Defined.

(** ** An optional group and the arguments that fill it *)

(** The pattern [A(B)C]. *)
Definition grouped (A B C : list segment) : list segment :=
  A ++ Lit "(" :: B ++ Lit ")" :: C.

Lemma fill_app (a b : list segment) :
  forall es, fill (a ++ b) es = fill a es ++ fill b (skipn (length (names a)) es).
Proof.
  induction a as [|[c|w] r IH]; intros es; cbn [app fill names length skipn].
  - reflexivity.
  - now rewrite IH.
  - destruct es as [|e es]; cbn [skipn].
    + rewrite IH, skipn_nil. cbn [app]. now rewrite app_assoc.
    + now rewrite IH, app_assoc.
Qed.

Lemma fill_no_names (c : list segment) (es : list str) :
  names c = [] -> fill c es = pattern_of c.
Proof.
  intros N. rewrite <- (fill_firstn c es), N. cbn [length firstn]. apply fill_nil.
Qed.

Lemma starts_nonword_app (a b : str) :
  starts_nonword a = true -> starts_nonword b = true -> starts_nonword (a ++ b) = true.
Proof. destruct a; intros A B; [exact B|exact A]. Qed.

Lemma well_formed_app (a b : list segment) :
  well_formed a = true -> well_formed b = true ->
  starts_nonword (pattern_of b) = true ->
  well_formed (a ++ b) = true.
Proof.
  intros A B H. induction a as [|[c|w] r IH]; cbn [app well_formed] in *.
  - exact B.
  - apply andb_true_iff in A. destruct A as [A Ar]. now rewrite A, IH.
  - apply andb_true_iff in A. destruct A as [A Ar].
    apply andb_true_iff in A. destruct A as [A P]. rewrite A, (IH Ar).
    unfold pattern_of in *. rewrite flat_map_app.
    now rewrite (starts_nonword_app _ _ P H).
Qed.

Lemma grouped_well_formed (A B C : list segment) :
  simple A = true -> simple B = true -> simple C = true ->
  well_formed (grouped A B C) = true.
Proof.
  intros HA HB HC. unfold grouped.
  apply well_formed_app; [now apply simple_well_formed| |reflexivity].
  cbn [well_formed]. cbn [andb negb].
  apply well_formed_app; [now apply simple_well_formed| |reflexivity].
  cbn [well_formed]. now apply simple_well_formed.
Qed.

Lemma match_all_before (pre t : str) :
  ~ In "("%char pre ->
  match_all m_OPTIONAL_PARAMS (pre ++ t) = match_all m_OPTIONAL_PARAMS t.
Proof.
  intros N. induction pre as [|c pre IH]; [reflexivity|].
  cbn [app]. rewrite match_all_cons.
  replace (m_OPTIONAL_PARAMS (c :: pre ++ t)) with (@None nat).
  - apply IH. intros H. apply N. now right.
  - simpl. destruct (Ascii.eqb_spec c "(") as [->|]; [|reflexivity].
    exfalso. apply N. now left.
Qed.

(** The text [pre(body)post] has one optional group. *)
Lemma match_all_group (pre body post : str) :
  ~ In "("%char pre -> group_body body -> ~ In "("%char post ->
  match_all m_OPTIONAL_PARAMS (pre ++ "("%char :: body ++ ")"%char :: post)
  = ["("%char :: body ++ [")"%char]].
Proof.
  intros N B P. rewrite match_all_before by exact N.
  rewrite match_all_cons.
  assert (E : m_OPTIONAL_PARAMS ("("%char :: body ++ ")"%char :: post)
              = Some (S (length body + 1))).
  { replace (S (length body + 1)) with (length body + 2) by lia.
    apply m_OPTIONAL_PARAMS_spec. now exists body, post. }
  rewrite E, skipn_body.
  rewrite (match_all_match_free m_OPTIONAL_PARAMS post).
  2:{ apply optional_free. intros c H. destruct (Ascii.eqb_spec c "(") as [->|];
        [contradiction|reflexivity]. }
  f_equal. cbn [firstn]. f_equal.
  change (body ++ ")"%char :: post) with (body ++ [")"%char] ++ post).
  rewrite app_assoc, firstn_app, firstn_all2 by (rewrite length_app; simpl; lia).
  rewrite length_app. cbn [length]. now rewrite Nat.sub_diag, app_nil_r.
Qed.

Lemma search_some (m : matcher) (pre u : str) (n : nat) :
  m u = Some n -> has_match m (pre ++ u) = true.
Proof.
  intros E. unfold has_match. induction pre as [|c pre IH].
  - cbn [app]. destruct u as [|d u]; cbn [search]; now rewrite E.
  - cbn [app search]. destruct (m (c :: pre ++ u)); [reflexivity|].
    now destruct (search m (pre ++ u)) as [[i k]|].
Qed.

(** A pattern with a named parameter shows a token wherever it stands. *)
Lemma named_some (segs : list segment) (post : str) :
  well_formed segs = true -> names segs <> [] -> starts_nonword post = true ->
  forall pre, has_match m_NAMED_PARAM (pre ++ pattern_of segs ++ post) = true.
Proof.
  intros W N P. induction segs as [|[c|w] r IH]; intros pre; [now destruct N| |].
  - cbn [well_formed names] in *. apply andb_true_iff in W. destruct W as [_ W].
    change (pattern_of (Lit c :: r)) with ([c] ++ pattern_of r).
    rewrite <- app_assoc, (app_assoc pre [c]). now apply IH.
  - cbn [well_formed] in W. apply andb_true_iff in W. destruct W as [W _].
    apply andb_true_iff in W. destruct W as [W Q].
    apply andb_true_iff in W. destruct W as [W1 W2].
    change (pattern_of (Param w :: r)) with (":"%char :: w ++ pattern_of r).
    cbn [app]. rewrite <- app_assoc.
    apply (search_some m_NAMED_PARAM pre _ (S (length w))).
    apply m_NAMED_PARAM_token; [destruct w; [discriminate W1|congruence]|exact W2|].
    now apply starts_nonword_app.
Qed.

Lemma replace_first_group (pre x post : str) :
  ~ In "("%char pre ->
  replace_first (m_literal ("("%char :: x)) [] (pre ++ "("%char :: x ++ post)
  = pre ++ post.
Proof.
  intros N. induction pre as [|c pre IH].
  - cbn [app replace_first]. unfold m_literal.
    replace (isPrefix ("("%char :: x) ("("%char :: x ++ post)) with true
      by (symmetry; apply isPrefix_spec; now exists post).
    cbn [app length skipn]. now rewrite skipn_app, Nat.sub_diag, skipn_all.
  - cbn [app replace_first]. unfold m_literal at 1. cbn [isPrefix].
    destruct (Ascii.eqb_spec "(" c) as [<-|]; [exfalso; apply N; now left|].
    cbn [andb]. rewrite IH; [reflexivity|]. intros H. apply N. now right.
Qed.

(** Where the characters of a filled pattern come from. *)
Lemma fill_sources (b : list segment) :
  forall es c, In c (fill b es) ->
               In c (pattern_of b) \/ exists e, In e es /\ In c e.
Proof.
  induction b as [|[d|w] r IH]; intros es c H; [destruct H| |].
  - cbn [fill] in H. destruct H as [<-|H]; [left; now left|].
    destruct (IH es c H) as [X|X]; [left; now right|now right].
  - change (pattern_of (Param w :: r)) with ((":"%char :: w) ++ pattern_of r).
    cbn [fill] in H. destruct es as [|e es].
    + left. rewrite <- (fill_nil r). exact H.
    + apply in_app_or in H. destruct H as [H|H].
      * right. exists e. split; [now left|exact H].
      * destruct (IH es c H) as [X|(e' & X & Y)].
        -- left. apply in_or_app. now right.
        -- right. exists e'. split; [now right|exact Y].
Qed.

Lemma encode_no_line_terminator (s : str) (c : ascii) :
  In c (encode s) -> is_line_terminator c = false.
Proof.
  intros H. pose proof (encode_inert s) as I. rewrite forallb_forall in I.
  specialize (I c H).
  unfold encode in H. apply in_flat_map in H. destruct H as (d & _ & H).
  unfold encode_unit in H. destruct (is_unreserved d) eqn:U.
  - destruct H as [<-|[]].
    destruct d as [[] [] [] [] [] [] [] []]; vm_compute in U; vm_compute; congruence.
  - assert (P : forall n, In c (percent n) -> is_line_terminator c = false).
    { intros n [<-|[<-|[<-|[]]]]; [reflexivity| |].
      - generalize (n / 16). intros k.
        do 16 (destruct k as [|k]; [reflexivity|]). now destruct k.
      - generalize (n mod 16). intros k.
        do 16 (destruct k as [|k]; [reflexivity|]). now destruct k. }
    destruct (code d <? 128); [now apply (P _ H)|].
    apply in_app_or in H. destruct H as [H|H]; now apply (P _ H).
Qed.

Lemma injected_no_line_terminator (v : value) (c : ascii) :
  In c (injected v) -> is_line_terminator c = false.
Proof.
  unfold injected, encodeURIComponent. destruct (ToString v) as [s|]; [|intros []].
  apply encode_no_line_terminator.
Qed.

(** A value whose encoded text holds no parenthesis and no star. *)
Definition tame (v : value) : Prop :=
  v <> VUnpaired /\ forallb literal_ok (injected v) = true.

Lemma filter_parens (pre body post : str) :
  (forall c, In c pre -> literal_ok c = true) ->
  (forall c, In c body -> literal_ok c = true) ->
  (forall c, In c post -> literal_ok c = true) ->
  filter (fun c => negb (is_paren c)) (pre ++ "("%char :: body ++ ")"%char :: post)
  = pre ++ body ++ post.
Proof.
  intros A B C.
  assert (K : forall s, (forall c, In c s -> literal_ok c = true) ->
                        filter (fun c => negb (is_paren c)) s = s).
  { intros s H. apply forallb_filter_id. apply forallb_forall. intros c X.
    specialize (H c X). unfold literal_ok in H. now apply andb_true_iff in H. }
  rewrite filter_app. cbn [filter]. change (negb (is_paren "(")) with false.
  cbv iota. rewrite filter_app. cbn [filter]. change (negb (is_paren ")")) with false.
  cbv iota. now rewrite (K pre A), (K body B), (K post C).
Qed.

(** The path [parse] builds from the pattern [A(B)C], with and without the
    values of the group. *)
Lemma grouped_parse (A B C : list segment) (vs : list value)
    (st : regexps) :
  simple A = true -> simple B = true -> simple C = true ->
  names B <> [] -> names C = [] ->
  (forall c, In c (pattern_of B) -> is_line_terminator c = false) ->
  vs <> [] ->
  Forall tame vs ->
  let es := map injected vs in
  let path := fst (parse (Some (pattern_of (grouped A B C))) (ArrayArgs vs) st) in
  (length vs = length (names A) ->
   path = Ok (removeTrailingSlash (fill A es ++ pattern_of C)))
  /\ (length vs = length (names A) + length (names B) ->
      path = Ok (removeTrailingSlash
                   (fill A es ++ fill B (skipn (length (names A)) es) ++ pattern_of C))).
Proof.
  intros HA HB HC NB NC LT V T es path.
  pose proof (grouped_well_formed A B C HA HB HC) as W.
  assert (U : ~ In VUnpaired vs).
  { intros H. rewrite Forall_forall in T. now destruct (T _ H) as [X _]. }
  assert (Fe : Forall (fun e => forallb literal_ok e = true) es).
  { apply Forall_forall. intros e H. apply in_map_iff in H.
    destruct H as (v & <- & H). rewrite Forall_forall in T. now destruct (T v H). }
  set (es' := skipn (length (names A)) es).
  assert (Fe' : Forall (fun e => forallb literal_ok e = true) es').
  { rewrite <- (firstn_skipn (length (names A)) es) in Fe.
    now apply Forall_app in Fe. }
  set (pre := fill A es). set (body := fill B es'). set (post := pattern_of C).
  assert (X : fill (grouped A B C) es = pre ++ "("%char :: body ++ ")"%char :: post).
  { unfold grouped. rewrite fill_app. fold es'. cbn [fill].
    rewrite fill_app. cbn [fill]. now rewrite (fill_no_names C _ NC). }
  pose proof (fill_chars A HA es Fe) as LA. fold pre in LA.
  pose proof (fill_chars B HB es' Fe') as LB. fold body in LB.
  assert (LC : forall c, In c post -> literal_ok c = true).
  { intros c H. unfold post in H. rewrite <- fill_nil in H.
    now apply (fill_chars C HC [] (Forall_nil _)). }
  assert (S0 : ~ In "*"%char (fill (grouped A B C) es)).
  { rewrite X. intros H. apply in_app_or in H. destruct H as [H|[H|H]].
    - now destruct (literal_ok_chars pre _ LA H) as (_ & _ & Z).
    - discriminate.
    - apply in_app_or in H. destruct H as [H|[H|H]].
      + now destruct (literal_ok_chars body _ LB H) as (_ & _ & Z).
      + discriminate.
      + now destruct (literal_ok_chars post _ LC H) as (_ & _ & Z). }
  assert (P : path = Ok (cleaned (pruned (pre ++ "("%char :: body ++ ")"%char :: post)))).
  { unfold path. rewrite (parse_array_starless _ vs st W V U S0). fold es.
    now rewrite X. }
  assert (Npre : ~ In "("%char pre)
    by (intros H; now destruct (literal_ok_chars pre _ LA H) as (Z & _)).
  assert (Npost : ~ In "("%char post)
    by (intros H; now destruct (literal_ok_chars post _ LC H) as (Z & _)).
  assert (Nbody : ~ In ")"%char body)
    by (intros H; now destruct (literal_ok_chars body _ LB H) as (_ & Z & _)).
  assert (G : group_body body).
  { split; [exact Nbody|]. intros c H. unfold body in H.
    apply fill_sources in H. destruct H as [H|(e & H1 & H2)]; [now apply LT|].
    unfold es', es in H1.
    assert (H3 : In e (map injected vs)).
    { rewrite <- (firstn_skipn (length (names A)) (map injected vs)).
      apply in_or_app. now right. }
    apply in_map_iff in H3. destruct H3 as (v & <- & _).
    now apply (injected_no_line_terminator v). }
  assert (K : forall s, (forall c, In c s -> literal_ok c = true) ->
                        filter (fun c => negb (is_paren c)) s = s).
  { intros s H. apply forallb_filter_id. apply forallb_forall. intros c Y.
    specialize (H c Y). unfold literal_ok in H. now apply andb_true_iff in H. }
  pose proof (simple_well_formed B HB) as WB.
  split.
  - intros L. rewrite P. f_equal. unfold cleaned. f_equal.
    assert (Eb : body = pattern_of B).
    { unfold body, es', es. rewrite skipn_all2 by (rewrite length_map; lia).
      apply fill_nil. }
    unfold pruned. rewrite (match_all_group pre body post Npre G Npost).
    cbn [fold_left].
    replace (has_match m_NAMED_PARAM ("("%char :: body ++ [")"%char])) with true
      by (rewrite Eb; symmetry; exact (named_some B [")"%char] WB NB eq_refl ["("%char])).
    replace (pre ++ "("%char :: body ++ ")"%char :: post)
      with (pre ++ "("%char :: (body ++ [")"%char]) ++ post)
      by (now rewrite <- app_assoc).
    rewrite (replace_first_group pre (body ++ [")"%char]) post Npre).
    now rewrite filter_app, (K pre LA), (K post LC).
  - intros L. rewrite P. f_equal. unfold cleaned. f_equal.
    assert (Pb : forallb plain body = true).
    { apply (fill_full_plain B WB).
      - unfold es', es. rewrite length_skipn, length_map. lia.
      - apply Forall_forall. intros e H.
        assert (H3 : In e (map injected vs)).
        { rewrite <- (firstn_skipn (length (names A)) (map injected vs)).
          apply in_or_app. now right. }
        apply in_map_iff in H3. destruct H3 as (v & <- & _). apply injected_plain. }
    unfold pruned. rewrite (match_all_group pre body post Npre G Npost).
    cbn [fold_left]. rewrite named_none.
    + now apply filter_parens.
    + intros [H|H]; [discriminate|]. apply in_app_or in H.
      destruct H as [H|[H|[]]]; [|discriminate].
      rewrite forallb_forall in Pb. specialize (Pb _ H). discriminate.
Qed.

(** X21.  A pattern [A(B)C] with one optional group, where [A], [B] and
    [C] are made of named parameters and of literal text without
    parentheses, stars, colons and question marks, [B] has a named
    parameter and no line break and [C] has no parameter, filled from an
    array of encodable values whose encoded texts hold no parenthesis and
    no star.  With exactly the values of [A], the whole group is left out
    of the path; with the values of [A] and of [B], the group is kept
    without its parentheses and filled.  In both cases one trailing slash
    is removed and the state plays no part. *)
Theorem optional_group_filled (A B C : list segment) (vs : list value)
    (st : regexps) :
  simple A = true -> simple B = true -> simple C = true ->
  names B <> [] -> names C = [] ->
  (forall c, In c (pattern_of B) -> is_line_terminator c = false) ->
  vs <> [] ->
  Forall tame vs ->
  let es := map injected vs in
  let path := fst (parse (Some (pattern_of (grouped A B C))) (ArrayArgs vs) st) in
  (length vs = length (names A) ->
   path = Ok (removeTrailingSlash (fill A es ++ pattern_of C)))
  /\ (length vs = length (names A) + length (names B) ->
      path = Ok (removeTrailingSlash
                   (fill A es ++ fill B (skipn (length (names A)) es) ++ pattern_of C))).
Proof.
  intros HA HB HC NB NC LT V T es path.
  destruct (grouped_parse A B C vs st HA HB HC NB NC LT V T) as [Dropped Kept].
  split; [exact Dropped|exact Kept].
Qed.

Lemma optional_group_filled_witness :
  simple (map Lit ("/a/" : str) ++ [Param "b"]) = true
  /\ simple [Lit "/"; Param "c"] = true
  /\ fst (parse (Some ("/a/:b(/:c)/" : str)) (ArrayArgs [VString "x"]) (mkRegexps 0 0 3 0 0))
     = Ok ("/a/x" : str)
  /\ fst (parse (Some ("/a/:b(/:c)/" : str)) (ArrayArgs [VString "x"; VNumber 7])
            (mkRegexps 0 0 3 0 0))
     = Ok ("/a/x/7" : str).
Proof.
  assert (LT : forall c, In c (pattern_of [Lit "/"%char; Param "c"]) ->
                         is_line_terminator c = false).
  { intros c H. repeat (destruct H as [<-|H]; [reflexivity|]). destruct H. }
  split; [reflexivity|]. split; [reflexivity|]. split.
  - refine (proj1 (optional_group_filled (map Lit ("/a/" : str) ++ [Param "b"])
                     [Lit "/"%char; Param "c"] [Lit "/"%char] [VString "x"]
                     (mkRegexps 0 0 3 0 0) eq_refl eq_refl eq_refl
                     ltac:(discriminate) eq_refl LT ltac:(discriminate) _) eq_refl).
    repeat constructor; discriminate.
  - refine (proj2 (optional_group_filled (map Lit ("/a/" : str) ++ [Param "b"])
                     [Lit "/"%char; Param "c"] [Lit "/"%char] [VString "x"; VNumber 7]
                     (mkRegexps 0 0 3 0 0) eq_refl eq_refl eq_refl
                     ltac:(discriminate) eq_refl LT ltac:(discriminate) _) eq_refl).
    repeat constructor; discriminate.
Defined.

(** ** [regex] and [test] on a pattern with an optional group *)

Lemma pattern_of_app (a b : list segment) :
  pattern_of (a ++ b) = pattern_of a ++ pattern_of b.
Proof. unfold pattern_of. apply flat_map_app. Qed.

Lemma grouped_pattern (A B C : list segment) :
  pattern_of (grouped A B C)
  = pattern_of A ++ "("%char :: pattern_of B ++ ")"%char :: pattern_of C.
Proof.
  unfold grouped. rewrite pattern_of_app.
  change (Lit "("%char :: B ++ Lit ")"%char :: C)
    with ([Lit "("%char] ++ B ++ [Lit ")"%char] ++ C).
  now rewrite !pattern_of_app.
Qed.

Lemma escape_step_app (a b : str) : escape_step (a ++ b) = escape_step a ++ escape_step b.
Proof. rewrite !escape_step_chars. apply flat_map_app. Qed.

Lemma escape_step_grouped (A B C : list segment) :
  simple A = true -> simple B = true -> simple C = true ->
  escape_step (pattern_of (grouped A B C))
  = escaped_of A ++ "("%char :: escaped_of B ++ ")"%char :: escaped_of C.
Proof.
  intros HA HB HC. rewrite grouped_pattern.
  change (pattern_of A ++ "("%char :: pattern_of B ++ ")"%char :: pattern_of C)
    with (pattern_of A ++ ["("%char] ++ pattern_of B ++ [")"%char] ++ pattern_of C).
  rewrite !escape_step_app.
  now rewrite (escape_step_pattern A HA), (escape_step_pattern B HB),
    (escape_step_pattern C HC).
Qed.

(** The characters of the escaped pattern: a backslash or a character of
    the pattern. *)
Lemma escaped_of_sources (segs : list segment) (c : ascii) :
  In c (escaped_of segs) -> c = "\"%char \/ In c (pattern_of segs).
Proof.
  induction segs as [|[d|w] r IH]; intros H; [destruct H| |].
  - unfold escaped_of in H. cbn [flat_map] in H. apply in_app_or in H.
    change (pattern_of (Lit d :: r)) with (d :: pattern_of r).
    destruct H as [H|H].
    + unfold lit_source in H. destruct (is_escape d).
      * destruct H as [<-|[<-|[]]]; [now left|right; now left].
      * destruct H as [<-|[]]. right. now left.
    + destruct (IH H) as [X|X]; [now left|right; now right].
  - unfold escaped_of in H. cbn [flat_map] in H. apply in_app_or in H.
    change (pattern_of (Param w :: r)) with ((":"%char :: w) ++ pattern_of r).
    destruct H as [H|H].
    + right. apply in_or_app. now left.
    + destruct (IH H) as [X|X]; [now left|right; apply in_or_app; now right].
Qed.

Lemma pattern_chars (segs : list segment) (c : ascii) :
  simple segs = true -> In c (pattern_of segs) -> literal_ok c = true.
Proof.
  intros Hs H. rewrite <- fill_nil in H.
  now apply (fill_chars segs Hs [] (Forall_nil _)).
Qed.

Lemma escaped_group_body (B : list segment) :
  simple B = true ->
  (forall c, In c (pattern_of B) -> is_line_terminator c = false) ->
  group_body (escaped_of B).
Proof.
  intros HB LT. split.
  - intros H. apply escaped_of_sources in H. destruct H as [H|H]; [discriminate|].
    apply (pattern_chars B _ HB) in H. discriminate.
  - intros c H. apply escaped_of_sources in H. destruct H as [->|H]; [reflexivity|].
    now apply LT.
Qed.

Lemma optional_step_grouped (A B C : list segment) :
  simple A = true -> simple B = true -> simple C = true ->
  (forall c, In c (pattern_of B) -> is_line_terminator c = false) ->
  optional_step (escaped_of A ++ "("%char :: escaped_of B ++ ")"%char :: escaped_of C)
  = escaped_of A ++ "(?:" ++ escaped_of B ++ ")?" ++ escaped_of C.
Proof.
  intros HA HB HC LT.
  assert (N : forall segs, simple segs = true -> ~ In "("%char (escaped_of segs)).
  { intros segs Hs H. now destruct (escaped_of_chars segs _ Hs H). }
  rewrite optional_step_before by (now apply N).
  change ("("%char :: escaped_of B ++ ")"%char :: escaped_of C)
    with ("(" ++ escaped_of B ++ ")" ++ escaped_of C).
  rewrite (optional_step_group (escaped_of B) (escaped_of C)
             (escaped_group_body B HB LT)).
  do 4 f_equal. unfold optional_step. apply replace_all_match_free, optional_free.
  intros c H. now destruct (escaped_of_chars C c HC H).
Qed.

(** The third step over the escaped pattern followed by a text. *)
Lemma named_step_escaped_app (segs : list segment) (rest : str) :
  simple segs = true -> starts_nonword rest = true ->
  named_step (escaped_of segs ++ rest) = source_of segs ++ named_step rest.
Proof.
  intros Hs R. induction segs as [|[c|w] r IH]; [reflexivity| |].
  - apply simple_cons_lit in Hs. destruct Hs as (C & Q & P & _ & Hs).
    assert (O : Ascii.eqb "(" c = false).
    { unfold is_paren in P. apply orb_false_iff in P. now rewrite Ascii.eqb_sym. }
    unfold escaped_of, source_of. cbn [flat_map seg_source].
    fold (escaped_of r) (source_of r). rewrite <- !app_assoc, <- (IH Hs).
    unfold lit_source, named_step. destruct (is_escape c).
    + cbn [app]. rewrite replace_all_cons, m_NAMED_PARAM_other by reflexivity.
      now rewrite replace_all_cons, m_NAMED_PARAM_other.
    + cbn [app]. now rewrite replace_all_cons, m_NAMED_PARAM_other.
  - apply simple_cons_param in Hs. destruct Hs as (W1 & W2 & P & Hs).
    unfold escaped_of, source_of. cbn [flat_map seg_source].
    fold (escaped_of r) (source_of r). rewrite <- !app_assoc, <- (IH Hs).
    apply (named_step_plain w (escaped_of r ++ rest) W1 W2).
    apply starts_nonword_app; [now apply escaped_of_nonword|exact R].
Qed.

Lemma span_word_nonword (t : str) : starts_nonword t = true -> fst (span_word t) = [].
Proof.
  destruct t as [|c t]; [reflexivity|]. simpl. intros H.
  apply negb_true_iff in H. now rewrite H.
Qed.

(** The opening of a non-capturing group before a text that begins with no
    word character. *)
Lemma named_step_opening (t : str) :
  starts_nonword t = true -> named_step ("(?:" ++ t) = "(?:" ++ named_step t.
Proof.
  intros T. unfold named_step.
  change ("(?:" ++ t) with ("("%char :: "?"%char :: ":"%char :: t).
  assert (E1 : m_NAMED_PARAM ("("%char :: "?"%char :: ":"%char :: t) = None).
  { unfold m_NAMED_PARAM. change (isPrefix "(?" ("("%char :: "?"%char :: ":"%char :: t))
      with true. cbn [skipn]. unfold m_colon_word.
    change (Ascii.eqb ":" ":") with true. change (Ascii.eqb "(" ":") with false.
    cbv iota. now rewrite (span_word_nonword t T). }
  assert (E3 : m_NAMED_PARAM (":"%char :: t) = None).
  { unfold m_NAMED_PARAM. change (isPrefix "(?" (":"%char :: t)) with false.
    unfold m_colon_word. change (Ascii.eqb ":" ":") with true.
    cbv iota. now rewrite (span_word_nonword t T). }
  rewrite replace_all_cons, E1.
  rewrite replace_all_cons, m_NAMED_PARAM_other by reflexivity.
  now rewrite replace_all_cons, E3.
Qed.

(** The third step inside the group: the word characters that follow
    [(?:] belong to the match that keeps the opening as it is. *)
Lemma named_step_group (B : list segment) (rest : str) :
  simple B = true -> starts_nonword rest = true ->
  forall w, forallb is_word w = true ->
    named_step ("(?:" ++ w ++ escaped_of B ++ rest)
    = "(?:" ++ w ++ source_of B ++ named_step rest.
Proof.
  intros HB R. induction B as [|[c|w1] r IH]; intros w W.
  - cbn [escaped_of source_of flat_map app]. destruct w as [|d w].
    + now apply named_step_opening.
    + apply named_step_guarded; [discriminate|exact W|exact R].
  - pose proof HB as HB'. apply simple_cons_lit in HB'. destruct HB' as (_ & _ & _ & _ & Hr).
    destruct (is_word c) eqn:Wc.
    + unfold escaped_of, source_of. cbn [flat_map seg_source].
      fold (escaped_of r) (source_of r). unfold lit_source.
      rewrite (word_not_escape c Wc).
      specialize (IH Hr (w ++ [c])). rewrite forallb_app, W in IH. cbn [forallb] in IH.
      rewrite Wc in IH. specialize (IH eq_refl).
      rewrite <- !app_assoc in IH. cbn [app] in *. exact IH.
    + assert (T : starts_nonword (escaped_of (Lit c :: r) ++ rest) = true).
      { unfold escaped_of. cbn [flat_map]. unfold lit_source.
        destruct (is_escape c); [reflexivity|]. cbn [app starts_nonword]. now rewrite Wc. }
      rewrite <- (named_step_escaped_app (Lit c :: r) rest HB R).
      destruct w as [|d w].
      * now apply named_step_opening.
      * apply named_step_guarded; [discriminate|exact W|exact T].
  - assert (T : starts_nonword (escaped_of (Param w1 :: r) ++ rest) = true) by reflexivity.
    rewrite <- (named_step_escaped_app (Param w1 :: r) rest HB R).
    destruct w as [|d w].
    + now apply named_step_opening.
    + apply named_step_guarded; [discriminate|exact W|exact T].
Qed.

(** The source of the regular expression for [A(B)C]. *)
Definition grouped_source (A B C : list segment) : str :=
  source_of A ++ "(?:" ++ source_of B ++ ")?" ++ source_of C.

Lemma named_step_grouped (A B C : list segment) :
  simple A = true -> simple B = true -> simple C = true ->
  named_step (escaped_of A ++ "(?:" ++ escaped_of B ++ ")?" ++ escaped_of C)
  = grouped_source A B C.
Proof.
  intros HA HB HC. unfold grouped_source.
  rewrite (named_step_escaped_app A ("(?:" ++ escaped_of B ++ ")?" ++ escaped_of C)
             HA eq_refl). f_equal.
  assert (X : named_step (")?" ++ escaped_of C) = ")?" ++ source_of C).
  { unfold named_step at 1. change (")?" ++ escaped_of C)
      with (")"%char :: "?"%char :: escaped_of C).
    rewrite replace_all_cons, m_NAMED_PARAM_other by reflexivity.
    rewrite replace_all_cons, m_NAMED_PARAM_other by reflexivity.
    fold (named_step (escaped_of C)). now rewrite (named_step_escaped C HC). }
  rewrite <- X.
  exact (named_step_group B (")?" ++ escaped_of C) HB eq_refl [] eq_refl).
Qed.

Lemma routeToRegex_grouped (A B C : list segment) (st : regexps) :
  simple A = true -> simple B = true -> simple C = true ->
  (forall c, In c (pattern_of B) -> is_line_terminator c = false) ->
  fst (routeToRegex (pattern_of (grouped A B C)) st)
  = "^" ++ grouped_source A B C ++ query_capture ++ "$".
Proof.
  intros HA HB HC LT.
  rewrite routeToRegex_steps, (escape_step_grouped A B C HA HB HC).
  rewrite (optional_step_grouped A B C HA HB HC LT).
  rewrite (named_step_grouped A B C HA HB HC).
  unfold splat_step. rewrite replace_all_match_free; [reflexivity|].
  apply splat_free. unfold grouped_source. intros H.
  apply in_app_or in H. destruct H as [H|H].
  - apply (source_of_chars A _ HA) in H. discriminate.
  - apply in_app_or in H. destruct H as [H|H].
    + repeat (destruct H as [H|H]; [discriminate|]). destruct H.
    + apply in_app_or in H. destruct H as [H|H].
      * apply (source_of_chars B _ HB) in H. discriminate.
      * apply in_app_or in H. destruct H as [H|H].
        -- repeat (destruct H as [H|H]; [discriminate|]). destruct H.
        -- apply (source_of_chars C _ HC) in H. discriminate.
Qed.

(** The regular expression of the group and of the whole pattern. *)
Definition group_regexp (B : list segment) : regexp :=
  ROpt (atoms_seq B REmpty).

Definition grouped_regexp (A B C : list segment) : regexp :=
  RSeq (RSeq (atoms_seq C (RSeq (atoms_seq A (RSeq REmpty RBegin)) (group_regexp B)))
          users_query) REnd.

Lemma compile_segs_enough (segs : list segment) (fuel : nat) (rest : str)
    (alt : option regexp) (seq : regexp) :
  simple segs = true -> atom_head rest = true -> length segs + 2 <= fuel ->
  compile_from fuel (source_of segs ++ rest) alt seq
  = compile_from (fuel - length segs) rest alt (atoms_seq segs seq).
Proof.
  intros Hs H L.
  replace fuel with (S (S (length segs + (fuel - length segs - 2)))) at 1 by lia.
  rewrite (compile_segs segs Hs _ rest alt seq H). f_equal. lia.
Qed.

Lemma lazy_mark_none (s : str) : atom_head s = true -> lazy_mark s = s.
Proof.
  destruct s as [|c s]; [reflexivity|]. unfold atom_head, lazy_mark.
  cbn [existsb list_ascii_of_string]. intros H. apply negb_true_iff in H.
  apply orb_false_iff in H. destruct H as [_ H].
  apply orb_false_iff in H. destruct H as [_ H].
  apply orb_false_iff in H. destruct H as [H _]. now rewrite H.
Qed.

Lemma compile_group (B : list segment) (fuel : nat) (rest : str)
    (alt : option regexp) (seq : regexp) :
  simple B = true -> atom_head rest = true -> length B + 3 <= fuel ->
  compile_from fuel ("(?:" ++ source_of B ++ ")?" ++ rest) alt seq
  = compile_from (fuel - 1) rest alt (RSeq seq (group_regexp B)).
Proof.
  intros HB H L. destruct fuel as [|F]; [lia|].
  replace (S F - 1) with F by lia.
  change (compile_from (S F) ("(?:" ++ source_of B ++ ")?" ++ rest) alt seq)
    with (match compile_from F (source_of B ++ ")?" ++ rest) None REmpty with
          | Some (r, d :: t') =>
              if Ascii.eqb d ")"
              then compile_from F (snd (quantified r t')) alt
                     (RSeq seq (fst (quantified r t')))
              else None
          | _ => None
          end).
  rewrite (compile_segs_enough B F (")?" ++ rest) None REmpty HB eq_refl)
    by lia.
  destruct (F - length B) as [|k] eqn:E; [lia|].
  change (compile_from (S k) (")?" ++ rest) None (atoms_seq B REmpty))
    with (Some (atoms_seq B REmpty, ")?" ++ rest)).
  change (")?" ++ rest) with (")"%char :: "?"%char :: rest).
  cbv iota. change (Ascii.eqb ")" ")") with true. cbv iota.
  change (quantified (atoms_seq B REmpty) ("?"%char :: rest))
    with (ROpt (atoms_seq B REmpty), lazy_mark rest).
  cbn [fst snd]. now rewrite (lazy_mark_none rest H).
Qed.

Lemma compile_tail_enough (fuel : nat) (alt : option regexp) (seq : regexp) :
  10 <= fuel ->
  compile_from fuel (query_capture ++ "$") alt seq
  = Some (close_alternative alt (RSeq (RSeq seq users_query) REnd), []).
Proof.
  intros L. replace fuel with (10 + (fuel - 10)) by lia. apply compile_tail.
Qed.

Lemma compile_grouped (A B C : list segment) :
  simple A = true -> simple B = true -> simple C = true ->
  compile ("^" ++ grouped_source A B C ++ query_capture ++ "$")
  = Some (grouped_regexp A B C).
Proof.
  intros HA HB HC. unfold compile.
  set (fuel := 2 * length ("^" ++ grouped_source A B C ++ query_capture ++ "$") + 2).
  assert (F : length A + length B + length C + 30 <= fuel).
  { unfold fuel, grouped_source.
    pose proof (source_length A). pose proof (source_length B).
    pose proof (source_length C).
    rewrite !length_app. simpl length. lia. }
  destruct fuel as [|fuel']; [lia|].
  change ("^" ++ grouped_source A B C ++ query_capture ++ "$")
    with ("^"%char :: (grouped_source A B C ++ query_capture ++ "$")).
  change (compile_from (S fuel')
            ("^"%char :: (grouped_source A B C ++ query_capture ++ "$")) None REmpty)
    with (compile_from fuel' (grouped_source A B C ++ query_capture ++ "$") None
            (RSeq REmpty RBegin)).
  unfold grouped_source. rewrite <- !app_assoc.
  rewrite (compile_segs_enough A fuel'
             ("(?:" ++ source_of B ++ ")?" ++ source_of C ++ query_capture ++ "$")
             None _ HA eq_refl) by lia.
  rewrite (compile_group B _ (source_of C ++ query_capture ++ "$") None _ HB).
  - rewrite (compile_segs_enough C _ (query_capture ++ "$") None _ HC eq_refl) by lia.
    rewrite compile_tail_enough by lia. reflexivity.
  - now apply source_head.
  - lia.
Qed.

(** What follows the path in a URL: nothing, or a question mark and the
    query. *)
Definition query_tail (q : str) : Prop := q = [] \/ exists q', q = "?"%char :: q'.

Lemma grouped_matches (whole : nat) (A B C : list segment) (s : str) :
  matches whole (grouped_regexp A B C) s (fun _ => true) = true
  <-> length s = whole
      /\ exists esA rest,
           length esA = length (names A) /\ Forall capture esA
           /\ s = fill A esA ++ rest
           /\ exists esC q,
                length esC = length (names C) /\ Forall capture esC
                /\ query_tail q
                /\ (rest = fill C esC ++ q
                    \/ exists esB,
                         length esB = length (names B) /\ Forall capture esB
                         /\ rest = fill B esB ++ fill C esC ++ q).
Proof.
  set (kq := fun s' => matches whole users_query s' (at_end whole)).
  set (kc := accepts whole C kq).
  set (kb := fun s1 => matches whole (group_regexp B) s1 kc).
  change (matches whole (grouped_regexp A B C) s (fun _ => true))
    with (matches whole
            (atoms_seq C (RSeq (atoms_seq A (RSeq REmpty RBegin)) (group_regexp B)))
            s kq).
  rewrite matches_atoms_seq. fold kc.
  change (matches whole (RSeq (atoms_seq A (RSeq REmpty RBegin)) (group_regexp B)) s kc)
    with (matches whole (atoms_seq A (RSeq REmpty RBegin)) s kb).
  rewrite matches_atoms_seq.
  change (matches whole (RSeq REmpty RBegin) s (accepts whole A kb))
    with ((length s =? whole) && accepts whole A kb s).
  rewrite andb_true_iff, Nat.eqb_eq, accepts_iff.
  assert (KC : forall rest,
             kc rest = true
             <-> exists esC q,
                   length esC = length (names C) /\ Forall capture esC
                   /\ rest = fill C esC ++ q /\ query_tail q).
  { intros rest. unfold kc. rewrite accepts_iff. split.
    - intros (es & q & L & F & E & K). exists es, q.
      repeat split; try assumption. now apply users_query_matches in K.
    - intros (es & q & L & F & E & K). exists es, q.
      repeat split; try assumption. now apply users_query_matches. }
  assert (KB : forall rest,
             kb rest = true
             <-> kc rest = true
                 \/ exists esB rest',
                      length esB = length (names B) /\ Forall capture esB
                      /\ rest = fill B esB ++ rest' /\ kc rest' = true).
  { intros rest. unfold kb.
    change (matches whole (group_regexp B) rest kc)
      with (matches whole (atoms_seq B REmpty) rest kc || kc rest).
    rewrite orb_true_iff, matches_atoms_seq.
    change (matches whole REmpty rest (accepts whole B kc))
      with (accepts whole B kc rest).
    rewrite accepts_iff. tauto. }
  split.
  - intros [L (esA & rest & LA & FA & E & K)]. split; [exact L|].
    exists esA, rest. split; [exact LA|]. split; [exact FA|]. split; [exact E|].
    apply KB in K. destruct K as [K|(esB & rest' & LB & FB & E' & K)].
    + apply KC in K. destruct K as (esC & q & LC & FC & E' & Q).
      exists esC, q. repeat split; try assumption. now left.
    + apply KC in K. destruct K as (esC & q & LC & FC & E'' & Q).
      exists esC, q. repeat split; try assumption. right. exists esB.
      repeat split; try assumption. now rewrite E', E''.
  - intros [L (esA & rest & LA & FA & E & esC & q & LC & FC & Q & K)].
    split; [exact L|]. exists esA, rest. repeat split; try assumption.
    apply KB. destruct K as [K|(esB & LB & FB & K)].
    + left. apply KC. now exists esC, q.
    + right. exists esB, (fill C esC ++ q). repeat split; try assumption.
      apply KC. now exists esC, q.
Qed.

Lemma grouped_not_later (whole : nat) (A B C : list segment) (s : str) :
  length s < whole -> matches_somewhere whole (grouped_regexp A B C) s = false.
Proof.
  assert (M : forall t, length t < whole ->
                        matches whole (grouped_regexp A B C) t (fun _ => true) = false).
  { intros t L. destruct (matches _ _ t _) eqn:E; [|reflexivity].
    apply grouped_matches in E. lia. }
  induction s as [|c s IH]; intros L; cbn [matches_somewhere]; rewrite (M _ L).
  - reflexivity.
  - apply IH. simpl in L. lia.
Qed.

Lemma test_grouped (A B C : list segment) (u : str) (st : regexps) :
  simple A = true -> simple B = true -> simple C = true ->
  (forall c, In c (pattern_of B) -> is_line_terminator c = false) ->
  fst (test_url (pattern_of (grouped A B C)) u st)
  = Ok (matches (length u) (grouped_regexp A B C) u (fun _ => true)).
Proof.
  intros HA HB HC LT. unfold test_url, test, bind, ret. cbn [t_path t_url].
  pose proof (routeToRegex_grouped A B C st HA HB HC LT) as R.
  destruct (routeToRegex (pattern_of (grouped A B C)) st) as [re st1].
  cbn [fst] in *. subst re.
  unfold RegExp_test. rewrite (compile_grouped A B C HA HB HC). f_equal.
  destruct u as [|c u]; cbn [matches_somewhere]; [apply orb_false_r|].
  rewrite grouped_not_later by (simpl; lia). apply orb_false_r.
Qed.

Lemma test_grouped_accepts (A B C : list segment) (u : str) (st : regexps) :
  simple A = true -> simple B = true -> simple C = true ->
  (forall c, In c (pattern_of B) -> is_line_terminator c = false) ->
  fst (test_url (pattern_of (grouped A B C)) u st) = Ok true
  <-> exists esA esC q,
        length esA = length (names A) /\ Forall capture esA
        /\ length esC = length (names C) /\ Forall capture esC
        /\ query_tail q
        /\ (u = fill A esA ++ fill C esC ++ q
            \/ exists esB,
                 length esB = length (names B) /\ Forall capture esB
                 /\ u = fill A esA ++ fill B esB ++ fill C esC ++ q).
Proof.
  intros HA HB HC LT. rewrite (test_grouped A B C u st HA HB HC LT). split.
  - intros H. injection H as H. apply grouped_matches in H.
    destruct H as [_ (esA & rest & LA & FA & E & esC & q & LC & FC & Q & K)].
    exists esA, esC, q. repeat split; try assumption.
    destruct K as [K|(esB & LB & FB & K)].
    + left. now rewrite E, K.
    + right. exists esB. repeat split; try assumption. now rewrite E, K.
  - intros (esA & esC & q & LA & FA & LC & FC & Q & K). f_equal.
    apply grouped_matches. split; [reflexivity|].
    destruct K as [K|(esB & LB & FB & K)].
    + exists esA, (fill C esC ++ q). repeat split; try assumption.
      exists esC, q. repeat split; try assumption. now left.
    + exists esA, (fill B esB ++ fill C esC ++ q). repeat split; try assumption.
      exists esC, q. repeat split; try assumption. right. now exists esB.
Qed.

(** X22.  For a pattern [A(B)C] with one optional group, where [A], [B]
    and [C] are made of named parameters and of literal text without
    parentheses, stars, colons and question marks and [B] has no line
    break, [test] never throws, and it accepts a URL exactly when the URL
    is [A] then [C], or [A] then [B] then [C], with each named parameter
    replaced by a text that is not empty and holds neither a slash nor a
    question mark, followed by nothing or by a question mark and any
    query. *)
Theorem test_grouped_iff (A B C : list segment) (u : str) (st : regexps) :
  simple A = true -> simple B = true -> simple C = true ->
  (forall c, In c (pattern_of B) -> is_line_terminator c = false) ->
  (fst (test_url (pattern_of (grouped A B C)) u st) = Ok true
   <-> exists esA esC q,
         length esA = length (names A) /\ Forall capture esA
         /\ length esC = length (names C) /\ Forall capture esC
         /\ query_tail q
         /\ (u = fill A esA ++ fill C esC ++ q
             \/ exists esB,
                  length esB = length (names B) /\ Forall capture esB
                  /\ u = fill A esA ++ fill B esB ++ fill C esC ++ q))
  /\ (fst (test_url (pattern_of (grouped A B C)) u st) = Ok true
      \/ fst (test_url (pattern_of (grouped A B C)) u st) = Ok false).
Proof.
  intros HA HB HC LT. split; [now apply test_grouped_accepts|].
  rewrite (test_grouped A B C u st HA HB HC LT).
  destruct (matches _ _ _ _); [now left|now right].
Qed.

Lemma test_grouped_iff_witness :
  simple (map Lit ("/users" : str)) = true
  /\ simple [Lit "/"; Param "id"] = true
  /\ fst (test_url "/users(/:id)" "/users" fresh) = Ok true
  /\ fst (test_url "/users(/:id)" "/users/42?x" fresh) = Ok true.
Proof.
  assert (LT : forall c, In c (pattern_of [Lit "/"%char; Param "id"]) ->
                         is_line_terminator c = false).
  { intros c H. repeat (destruct H as [<-|H]; [reflexivity|]). destruct H. }
  split; [reflexivity|]. split; [reflexivity|]. split.
  - apply (proj1 (test_grouped_iff (map Lit ("/users" : str)) [Lit "/"%char; Param "id"]
                    [] "/users" fresh eq_refl eq_refl eq_refl LT)).
    exists [], [], []. split; [reflexivity|]. split; [constructor|].
    split; [reflexivity|]. split; [constructor|]. split; [now left|now left].
  - apply (proj1 (test_grouped_iff (map Lit ("/users" : str)) [Lit "/"%char; Param "id"]
                    [] "/users/42?x" fresh eq_refl eq_refl eq_refl LT)).
    exists [], [], ("?x" : str). split; [reflexivity|]. split; [constructor|].
    split; [reflexivity|]. split; [constructor|].
    split; [right; now exists ("x" : str)|].
    right. exists [("42" : str)]. split; [reflexivity|]. split; [|reflexivity].
    repeat constructor. discriminate.
Defined.

(** X23.  What [path] builds from a pattern [A(B)C] with one optional
    group, [test] accepts for the same pattern.  [A], [B] and [C] are made
    of named parameters and of literal text without parentheses, stars,
    colons and question marks, [B] has a named parameter and no line
    break, [C] has no parameter; the values can be encoded and their
    encoded texts are not empty and hold no parenthesis and no star.  With
    exactly the values of [A], and with the values of [A] and of [B], when
    the built path does not end with a slash, [path] returns it and [test]
    accepts it. *)
Theorem built_group_path_accepted (A B C : list segment) (vs : list value)
    (st st' : regexps) :
  simple A = true -> simple B = true -> simple C = true ->
  names B <> [] -> names C = [] ->
  (forall c, In c (pattern_of B) -> is_line_terminator c = false) ->
  vs <> [] ->
  Forall fits vs ->
  let es := map injected vs in
  let pattern := pattern_of (grouped A B C) in
  (length vs = length (names A) ->
   let text := fill A es ++ pattern_of C in
   (forall x, text <> x ++ "/") ->
   fst (parse (Some pattern) (ArrayArgs vs) st) = Ok text
   /\ fst (test_url pattern text st') = Ok true)
  /\ (length vs = length (names A) + length (names B) ->
      let text := fill A es ++ fill B (skipn (length (names A)) es) ++ pattern_of C in
      (forall x, text <> x ++ "/") ->
      fst (parse (Some pattern) (ArrayArgs vs) st) = Ok text
      /\ fst (test_url pattern text st') = Ok true).
Proof.
  intros HA HB HC NB NC LT V F es pattern.
  assert (T : Forall tame vs).
  { apply Forall_forall. intros v H. rewrite Forall_forall in F.
    destruct (F v H) as (U & _ & L). now split. }
  destruct (grouped_parse A B C vs st HA HB HC NB NC LT V T) as [Dropped Kept].
  pose proof (fits_capture vs F) as K. fold es in K.
  assert (RT : forall text, (forall x, text <> x ++ "/") -> removeTrailingSlash text = text).
  { intros text N. destruct (removeTrailingSlash_cases text) as [[E _]|E]; [exact E|].
    now destruct (N (removeTrailingSlash text)). }
  split.
  - intros L text N. split.
    + unfold pattern. rewrite (Dropped L). fold es. fold text. now rewrite (RT text N).
    + apply (test_grouped_accepts A B C text st' HA HB HC LT).
      exists es, [], []. split; [unfold es; now rewrite length_map|].
      split; [exact K|]. split; [now rewrite NC|]. split; [constructor|].
      split; [now left|]. left. unfold text. now rewrite fill_nil, app_nil_r.
  - intros L text N. split.
    + unfold pattern. rewrite (Kept L). fold es. fold text. now rewrite (RT text N).
    + apply (test_grouped_accepts A B C text st' HA HB HC LT).
      rewrite <- (firstn_skipn (length (names A)) es) in K.
      apply Forall_app in K. destruct K as [KA KB].
      exists (firstn (length (names A)) es), [], [].
      split; [rewrite length_firstn; unfold es; rewrite length_map; lia|].
      split; [exact KA|]. split; [now rewrite NC|]. split; [constructor|].
      split; [now left|]. right. exists (skipn (length (names A)) es).
      split; [rewrite length_skipn; unfold es; rewrite length_map; lia|].
      split; [exact KB|]. unfold text. now rewrite fill_firstn, fill_nil, app_nil_r.
Qed.

Lemma built_group_path_accepted_witness :
  simple (map Lit ("/users" : str)) = true
  /\ simple [Lit "/"; Param "id"] = true
  /\ fst (parse (Some ("/users(/:id)" : str)) (ArrayArgs [VNumber 42]) (mkRegexps 0 0 3 0 0))
     = Ok ("/users/42" : str)
  /\ fst (test_url "/users(/:id)" "/users/42" fresh) = Ok true.
Proof.
  assert (LT : forall c, In c (pattern_of [Lit "/"%char; Param "id"]) ->
                         is_line_terminator c = false).
  { intros c H. repeat (destruct H as [<-|H]; [reflexivity|]). destruct H. }
  split; [reflexivity|]. split; [reflexivity|].
  refine (proj2 (built_group_path_accepted (map Lit ("/users" : str))
                   [Lit "/"%char; Param "id"] [] [VNumber 42] (mkRegexps 0 0 3 0 0) fresh
                   eq_refl eq_refl eq_refl ltac:(discriminate) eq_refl LT
                   ltac:(discriminate) _) eq_refl _).
  - constructor; [|constructor]. split; [discriminate|].
    split; [vm_compute; discriminate|reflexivity].
  - intros x E. change (("/users/42" : str) = x ++ "/") in E.
    apply (f_equal (@rev ascii)) in E. rewrite rev_app_distr in E. discriminate.
Defined.

(** ** [regex], [test] and [path] on a pattern with a splat *)

(** The pattern [A*wC]: a splat named [w] between two simple patterns. *)
Definition splatted (A : list segment) (w : str) (C : list segment) : str :=
  pattern_of A ++ "*"%char :: w ++ pattern_of C.

Definition splat_source (A C : list segment) : str :=
  source_of A ++ "([^?]*?)" ++ source_of C.

Lemma word_not_special (c : ascii) :
  is_word c = true ->
  Ascii.eqb ":" c = false /\ Ascii.eqb "(" c = false /\ Ascii.eqb "?" c = false.
Proof.
  destruct c as [[] [] [] [] [] [] [] []]; vm_compute; repeat split; congruence.
Qed.

Lemma named_step_word (w t : str) :
  forallb is_word w = true -> named_step (w ++ t) = w ++ named_step t.
Proof.
  intros W. induction w as [|c w IH]; [reflexivity|].
  cbn [forallb] in W. apply andb_true_iff in W. destruct W as [C W].
  destruct (word_not_special c C) as (H1 & H2 & _).
  cbn [app]. unfold named_step in *.
  now rewrite replace_all_cons, (m_NAMED_PARAM_other c _ H1 H2), (IH W).
Qed.

Lemma source_of_nonword (r : list segment) :
  starts_nonword (pattern_of r) = true -> starts_nonword (source_of r) = true.
Proof.
  destruct r as [|[c|w] r]; [reflexivity| |reflexivity].
  unfold source_of, pattern_of. cbn [flat_map segment_text seg_source app starts_nonword].
  unfold lit_source. intros H. now destruct (is_escape c).
Qed.

Lemma escaped_of_no_paren (segs : list segment) :
  simple segs = true -> forall c, In c (escaped_of segs) -> Ascii.eqb c "(" = false.
Proof. intros Hs c H. now destruct (escaped_of_chars segs c Hs H). Qed.

Lemma routeToRegex_splatted (A : list segment) (w : str) (C : list segment)
    (st : regexps) :
  simple A = true -> simple C = true -> is_name w ->
  starts_nonword (pattern_of C) = true ->
  fst (routeToRegex (splatted A w C) st)
  = "^" ++ splat_source A C ++ query_capture ++ "$".
Proof.
  intros HA HC [W1 W2] P. rewrite routeToRegex_steps. unfold splatted.
  assert (E : escape_step (pattern_of A ++ "*"%char :: w ++ pattern_of C)
              = escaped_of A ++ "*"%char :: w ++ escaped_of C).
  { change (pattern_of A ++ "*"%char :: w ++ pattern_of C)
      with (pattern_of A ++ ["*"%char] ++ w ++ pattern_of C).
    rewrite !escape_step_app, (escape_step_pattern A HA), (escape_step_pattern C HC).
    rewrite (escape_step_chars w), (lit_source_word w W2). reflexivity. }
  rewrite E.
  assert (O : optional_step (escaped_of A ++ "*"%char :: w ++ escaped_of C)
              = escaped_of A ++ "*"%char :: w ++ escaped_of C).
  { unfold optional_step. apply replace_all_match_free, optional_free.
    intros c H. apply in_app_or in H. destruct H as [H|[<-|H]];
      [now apply (escaped_of_no_paren A HA)|reflexivity|].
    apply in_app_or in H. destruct H as [H|H]; [|now apply (escaped_of_no_paren C HC)].
    rewrite forallb_forall in W2. specialize (W2 c H).
    destruct (word_not_special c W2) as (_ & X & _). now rewrite Ascii.eqb_sym. }
  rewrite O.
  assert (N : named_step (escaped_of A ++ "*"%char :: w ++ escaped_of C)
              = source_of A ++ "*"%char :: w ++ source_of C).
  { rewrite (named_step_escaped_app A ("*"%char :: w ++ escaped_of C) HA eq_refl).
    f_equal. unfold named_step at 1.
    rewrite replace_all_cons, m_NAMED_PARAM_other by reflexivity.
    fold (named_step (w ++ escaped_of C)).
    now rewrite (named_step_word w _ W2), (named_step_escaped C HC). }
  rewrite N. unfold splat_source.
  assert (F : forall segs, simple segs = true -> splat_step (source_of segs) = source_of segs).
  { intros segs Hs. unfold splat_step. apply replace_all_match_free, splat_free.
    intros H. apply (source_of_chars segs _ Hs) in H. discriminate. }
  unfold splat_step at 1.
  change (source_of A ++ "*"%char :: w ++ source_of C)
    with (source_of A ++ "*" ++ w ++ source_of C).
  rewrite replace_all_app.
  - fold (splat_step (source_of A)) (splat_step ("*" ++ w ++ source_of C)).
    rewrite (splat_step_token w (source_of C) (conj W1 W2) (source_of_nonword C P)).
    now rewrite (F A HA), (F C HC).
  - exact m_SPLAT_PARAMS_bound.
  - intros y u _ U. now apply m_SPLAT_PARAMS_stable.
Qed.

(** The regular expression of a splat and of the whole pattern. *)
Definition splat_class : regexp := RClass true [CChar "?"].

Definition splat_capture : regexp := RSeq REmpty (RStar splat_class).

Definition splatted_regexp (A C : list segment) : regexp :=
  RSeq (RSeq (atoms_seq C (RSeq (atoms_seq A (RSeq REmpty RBegin)) splat_capture))
          users_query) REnd.

Lemma compile_splat (f : nat) (t : str) (alt : option regexp) (seq : regexp) :
  atom_head t = true ->
  compile_from (S (S (S f))) ("([^?]*?)" ++ t) alt seq
  = compile_from (S (S f)) t alt (RSeq seq splat_capture).
Proof.
  intros H.
  change (compile_from (S (S (S f))) ("([^?]*?)" ++ t) alt seq)
    with (compile_from (S (S f)) (snd (quantified splat_capture t)) alt
            (RSeq seq (fst (quantified splat_capture t)))).
  now rewrite quantified_none.
Qed.

Lemma compile_splatted (A C : list segment) :
  simple A = true -> simple C = true ->
  compile ("^" ++ splat_source A C ++ query_capture ++ "$")
  = Some (splatted_regexp A C).
Proof.
  intros HA HC. unfold compile.
  set (fuel := 2 * length ("^" ++ splat_source A C ++ query_capture ++ "$") + 2).
  assert (F : length A + length C + 30 <= fuel).
  { unfold fuel, splat_source.
    pose proof (source_length A). pose proof (source_length C).
    rewrite !length_app. simpl length. lia. }
  destruct fuel as [|fuel']; [lia|].
  change ("^" ++ splat_source A C ++ query_capture ++ "$")
    with ("^"%char :: (splat_source A C ++ query_capture ++ "$")).
  change (compile_from (S fuel')
            ("^"%char :: (splat_source A C ++ query_capture ++ "$")) None REmpty)
    with (compile_from fuel' (splat_source A C ++ query_capture ++ "$") None
            (RSeq REmpty RBegin)).
  unfold splat_source. rewrite <- !app_assoc.
  rewrite (compile_segs_enough A fuel'
             ("([^?]*?)" ++ source_of C ++ query_capture ++ "$")
             None _ HA eq_refl) by lia.
  destruct (fuel' - length A) as [|[|[|k]]] eqn:E; try lia.
  rewrite (compile_splat k (source_of C ++ query_capture ++ "$") None _
             (source_head C (query_capture ++ "$") HC eq_refl)).
  rewrite (compile_segs_enough C _ (query_capture ++ "$") None _ HC eq_refl) by lia.
  rewrite compile_tail_enough by lia. reflexivity.
Qed.

Lemma splat_class_free (t : str) :
  forallb (in_class true [CChar "?"]) t = true <-> ~ In "?"%char t.
Proof.
  assert (X : forall c, in_class true [CChar "?"] c = negb (Ascii.eqb "?" c)).
  { intros c. unfold in_class. cbn [existsb item_matches]. now rewrite orb_false_r. }
  induction t as [|c t IH]; cbn [forallb].
  - split; [intros _ []|reflexivity].
  - rewrite andb_true_iff, IH, X. split.
    + intros [H N] [E|Y]; [|now apply N].
      rewrite E, Ascii.eqb_refl in H. discriminate.
    + intros N. split.
      * destruct (Ascii.eqb_spec "?" c) as [E|]; [|reflexivity].
        exfalso. apply N. now left.
      * intros Y. apply N. now right.
Qed.

Lemma splatted_matches (whole : nat) (A C : list segment) (s : str) :
  matches whole (splatted_regexp A C) s (fun _ => true) = true
  <-> length s = whole
      /\ exists esA t esC q,
           length esA = length (names A) /\ Forall capture esA
           /\ ~ In "?"%char t
           /\ length esC = length (names C) /\ Forall capture esC
           /\ query_tail q
           /\ s = fill A esA ++ t ++ fill C esC ++ q.
Proof.
  set (kq := fun s' => matches whole users_query s' (at_end whole)).
  set (kc := accepts whole C kq).
  set (ks := fun s1 => matches whole splat_capture s1 kc).
  change (matches whole (splatted_regexp A C) s (fun _ => true))
    with (matches whole
            (atoms_seq C (RSeq (atoms_seq A (RSeq REmpty RBegin)) splat_capture)) s kq).
  rewrite matches_atoms_seq. fold kc.
  change (matches whole (RSeq (atoms_seq A (RSeq REmpty RBegin)) splat_capture) s kc)
    with (matches whole (atoms_seq A (RSeq REmpty RBegin)) s ks).
  rewrite matches_atoms_seq.
  change (matches whole (RSeq REmpty RBegin) s (accepts whole A ks))
    with ((length s =? whole) && accepts whole A ks s).
  rewrite andb_true_iff, Nat.eqb_eq, accepts_iff.
  assert (KC : forall rest,
             kc rest = true
             <-> exists esC q,
                   length esC = length (names C) /\ Forall capture esC
                   /\ rest = fill C esC ++ q /\ query_tail q).
  { intros rest. unfold kc. rewrite accepts_iff. split.
    - intros (es & q & L & F & E & K). exists es, q.
      repeat split; try assumption. now apply users_query_matches in K.
    - intros (es & q & L & F & E & K). exists es, q.
      repeat split; try assumption. now apply users_query_matches. }
  assert (KS : forall rest,
             ks rest = true
             <-> exists t rest', rest = t ++ rest' /\ ~ In "?"%char t /\ kc rest' = true).
  { intros rest. unfold ks.
    change (matches whole splat_capture rest kc)
      with (matches whole (RStar (RClass true [CChar "?"])) rest kc).
    rewrite star_class_iff. split.
    - intros (t & r & E & F & K). exists t, r. split; [exact E|].
      split; [now apply splat_class_free|exact K].
    - intros (t & r & E & F & K). exists t, r. split; [exact E|].
      split; [now apply splat_class_free|exact K]. }
  split.
  - intros [L (esA & rest & LA & FA & E & K)]. split; [exact L|].
    apply KS in K. destruct K as (t & rest' & E' & T & K).
    apply KC in K. destruct K as (esC & q & LC & FC & E'' & Q).
    exists esA, t, esC, q. repeat split; try assumption.
    now rewrite E, E', E''.
  - intros [L (esA & t & esC & q & LA & FA & T & LC & FC & Q & E)].
    split; [exact L|]. exists esA, (t ++ fill C esC ++ q).
    repeat split; try assumption.
    apply KS. exists t, (fill C esC ++ q). repeat split; try assumption.
    apply KC. now exists esC, q.
Qed.

Lemma splatted_not_later (whole : nat) (A C : list segment) (s : str) :
  length s < whole -> matches_somewhere whole (splatted_regexp A C) s = false.
Proof.
  assert (M : forall t, length t < whole ->
                        matches whole (splatted_regexp A C) t (fun _ => true) = false).
  { intros t L. destruct (matches _ _ t _) eqn:E; [|reflexivity].
    apply splatted_matches in E. lia. }
  induction s as [|c s IH]; intros L; cbn [matches_somewhere]; rewrite (M _ L).
  - reflexivity.
  - apply IH. simpl in L. lia.
Qed.

Lemma test_splatted (A : list segment) (w : str) (C : list segment) (u : str)
    (st : regexps) :
  simple A = true -> simple C = true -> is_name w ->
  starts_nonword (pattern_of C) = true ->
  fst (test_url (splatted A w C) u st)
  = Ok (matches (length u) (splatted_regexp A C) u (fun _ => true)).
Proof.
  intros HA HC W P. unfold test_url, test, bind, ret. cbn [t_path t_url].
  pose proof (routeToRegex_splatted A w C st HA HC W P) as R.
  destruct (routeToRegex (splatted A w C) st) as [re st1].
  cbn [fst] in *. subst re.
  unfold RegExp_test. rewrite (compile_splatted A C HA HC). f_equal.
  destruct u as [|c u]; cbn [matches_somewhere]; [apply orb_false_r|].
  rewrite splatted_not_later by (simpl; lia). apply orb_false_r.
Qed.

Lemma test_splatted_accepts (A : list segment) (w : str) (C : list segment) (u : str)
    (st : regexps) :
  simple A = true -> simple C = true -> is_name w ->
  starts_nonword (pattern_of C) = true ->
  fst (test_url (splatted A w C) u st) = Ok true
  <-> exists esA t esC q,
        length esA = length (names A) /\ Forall capture esA
        /\ ~ In "?"%char t
        /\ length esC = length (names C) /\ Forall capture esC
        /\ query_tail q
        /\ u = fill A esA ++ t ++ fill C esC ++ q.
Proof.
  intros HA HC W P. rewrite (test_splatted A w C u st HA HC W P). split.
  - intros H. injection H as H. apply splatted_matches in H. now destruct H.
  - intros H. f_equal. apply splatted_matches. now split.
Qed.

(** X24.  For a pattern [A*wC] with one splat between two patterns made of
    named parameters and of literal text without parentheses, stars,
    colons and question marks, [C] beginning with no word character,
    [test] never throws, and it accepts a URL exactly when the URL is the
    pattern with each named parameter replaced by a text that is not empty
    and holds neither a slash nor a question mark, and the splat replaced
    by any text without a question mark (empty, or holding slashes),
    followed by nothing or by a question mark and any query. *)
Theorem test_splatted_iff (A : list segment) (w : str) (C : list segment) (u : str)
    (st : regexps) :
  simple A = true -> simple C = true -> is_name w ->
  starts_nonword (pattern_of C) = true ->
  (fst (test_url (splatted A w C) u st) = Ok true
   <-> exists esA t esC q,
         length esA = length (names A) /\ Forall capture esA
         /\ ~ In "?"%char t
         /\ length esC = length (names C) /\ Forall capture esC
         /\ query_tail q
         /\ u = fill A esA ++ t ++ fill C esC ++ q)
  /\ (fst (test_url (splatted A w C) u st) = Ok true
      \/ fst (test_url (splatted A w C) u st) = Ok false).
Proof.
  intros HA HC W P. split; [now apply test_splatted_accepts|].
  rewrite (test_splatted A w C u st HA HC W P).
  destruct (matches _ _ _ _); [now left|now right].
Qed.

Lemma test_splatted_iff_witness :
  simple (map Lit ("/files/" : str)) = true
  /\ is_name "path"
  /\ fst (test_url "/files/*path" "/files/a/b.txt?v=1" fresh) = Ok true.
Proof.
  assert (W : is_name "path") by (split; [discriminate|reflexivity]).
  split; [reflexivity|]. split; [exact W|].
  apply (proj1 (test_splatted_iff (map Lit ("/files/" : str)) "path" [] "/files/a/b.txt?v=1"
                  fresh eq_refl eq_refl W eq_refl)).
  exists [], ("a/b.txt" : str), [], ("?v=1" : str).
  split; [reflexivity|]. split; [constructor|]. split.
  - intros H. repeat (destruct H as [H|H]; [discriminate|]). exact H.
  - split; [reflexivity|]. split; [constructor|].
    split; [right; now exists ("v=1" : str)|reflexivity].
Defined.

Lemma fold_ok_app {A B} (f : A -> B -> M (result A)) (l1 l2 : list B) :
  forall a st,
    fold_ok f (l1 ++ l2) a st
    = match fold_ok f l1 a st with
      | (Ok a', st') => fold_ok f l2 a' st'
      | (Throw e, st') => (Throw e, st')
      end.
Proof.
  induction l1 as [|b l1 IH]; intros a st; [reflexivity|].
  cbn [app fold_ok]. unfold bind_ok.
  destruct (f a b st) as [[a'|e] st']; [apply IH|reflexivity].
Qed.

Lemma pattern_of_literal (w : str) : pattern_of (map Lit w) = w.
Proof. induction w as [|c w IH]; [reflexivity|]. simpl. now rewrite IH. Qed.

Lemma names_literal (w : str) : names (map Lit w) = [].
Proof. induction w as [|c w IH]; [reflexivity|exact IH]. Qed.

Lemma names_app (a b : list segment) : names (a ++ b) = names a ++ names b.
Proof.
  induction a as [|[c|w] r IH]; [reflexivity|exact IH|]. simpl. now rewrite IH.
Qed.

Lemma well_formed_word (w : str) :
  forallb is_word w = true -> well_formed (map Lit w) = true.
Proof.
  induction w as [|c w IH]; [reflexivity|]. cbn [forallb map well_formed]. intros H.
  apply andb_true_iff in H. destruct H as [C W].
  destruct (word_not_special c C) as (H1 & _ & H3). now rewrite H1, H3, (IH W).
Qed.

(** The pattern [A*wC] cut into segments: the star and the name are
    literal text. *)
Definition splatted_segments (A : list segment) (w : str) (C : list segment)
  : list segment :=
  A ++ Lit "*" :: map Lit w ++ C.

Lemma splatted_segments_pattern (A : list segment) (w : str) (C : list segment) :
  pattern_of (splatted_segments A w C) = splatted A w C.
Proof.
  unfold splatted_segments, splatted. rewrite pattern_of_app.
  change (Lit "*"%char :: map Lit w ++ C) with ([Lit "*"%char] ++ map Lit w ++ C).
  now rewrite !pattern_of_app, pattern_of_literal.
Qed.

Lemma splatted_segments_well_formed (A : list segment) (w : str) (C : list segment) :
  simple A = true -> simple C = true -> is_name w ->
  starts_nonword (pattern_of C) = true ->
  well_formed (splatted_segments A w C) = true.
Proof.
  intros HA HC [_ W] P. unfold splatted_segments.
  apply well_formed_app; [now apply simple_well_formed| |reflexivity].
  cbn [well_formed]. cbn [andb negb].
  apply well_formed_app; [now apply well_formed_word|now apply simple_well_formed|exact P].
Qed.

Lemma splatted_segments_fill (A : list segment) (w : str) (C : list segment)
    (es : list str) :
  names C = [] ->
  fill (splatted_segments A w C) es = fill A es ++ "*"%char :: w ++ pattern_of C.
Proof.
  intros NC. unfold splatted_segments. rewrite fill_app. cbn [fill]. do 2 f_equal.
  rewrite fill_no_names by (now rewrite names_app, names_literal, NC).
  now rewrite pattern_of_app, pattern_of_literal.
Qed.

Lemma splat_replace_token (f : str -> str) (w post : str) :
  is_name w -> starts_nonword post = true ->
  replace_all m_SPLAT_PARAMS f ("*"%char :: w ++ post)
  = f ("*"%char :: w) ++ replace_all m_SPLAT_PARAMS f post.
Proof.
  intros [W1 W2] P. rewrite replace_all_cons.
  assert (E : m_SPLAT_PARAMS ("*"%char :: w ++ post) = Some (S (length w))).
  { simpl. rewrite (span_word_app w post W2 P). simpl.
    destruct w; [congruence|reflexivity]. }
  rewrite E, skipn_app, Nat.sub_diag, skipn_all. cbn [firstn skipn app].
  now rewrite firstn_app, Nat.sub_diag, firstn_all, app_nil_r.
Qed.

(** The value that comes after those of the named parameters takes the
    place of the splat. *)
Lemma splat_filled (A : list segment) (w : str) (C : list segment)
    (vsA : list value) (v : value) (st : regexps) :
  simple A = true -> simple C = true -> is_name w ->
  starts_nonword (pattern_of C) = true -> names C = [] ->
  length vsA = length (names A) ->
  Forall tame (vsA ++ [v]) ->
  fst (fold_ok replaceArg (vsA ++ [v]) (splatted A w C) st)
  = Ok (fill A (map injected vsA) ++ injected v ++ pattern_of C).
Proof.
  intros HA HC W P NC L T.
  pose proof (splatted_segments_well_formed A w C HA HC W P) as WF.
  assert (TA : Forall tame vsA /\ tame v).
  { apply Forall_app in T. destruct T as [T1 T2]. split; [exact T1|].
    now inversion T2. }
  destruct TA as [TA [Uv Lv]].
  assert (UA : ~ In VUnpaired vsA).
  { intros H. rewrite Forall_forall in TA. now destruct (TA _ H). }
  assert (LA : Forall (fun e => forallb literal_ok e = true) (map injected vsA)).
  { apply Forall_forall. intros e H. apply in_map_iff in H.
    destruct H as (x & <- & H). rewrite Forall_forall in TA. now destruct (TA x H). }
  rewrite fold_ok_app, <- splatted_segments_pattern.
  pose proof (inject_aligned (splatted_segments A w C) WF vsA [] st eq_refl) as I.
  cbn [app] in I. rewrite I.
  2:{ unfold splatted_segments. rewrite names_app. cbn [names].
      rewrite names_app, names_literal, NC, length_app. simpl. lia. }
  2:{ exact UA. }
  rewrite (splatted_segments_fill A w C _ NC).
  set (pre := fill A (map injected vsA)). set (post := pattern_of C).
  cbn [fold_ok]. unfold bind_ok, replaceArg.
  rewrite (encodeURIComponent_injected v Uv).
  assert (PP : forallb plain (pre ++ "*"%char :: w ++ post) = true).
  { rewrite forallb_app. cbn [forallb]. rewrite forallb_app.
    assert (X1 : forallb plain pre = true).
    { apply (fill_full_plain A (simple_well_formed A HA));
        [rewrite length_map; lia|].
      apply Forall_forall. intros e H. apply in_map_iff in H.
      destruct H as (x & <- & _). apply injected_plain. }
    assert (X2 : forallb plain w = true).
    { destruct W as [_ W]. apply forallb_forall. intros c H.
      rewrite forallb_forall in W. specialize (W c H).
      destruct (word_not_special c W) as (H1 & _ & H3). unfold plain.
      now rewrite H1, H3. }
    assert (X3 : forallb plain post = true).
    { unfold post. rewrite <- fill_nil.
      apply (fill_full_plain C (simple_well_formed C HC) []);
        [rewrite NC; apply le_n|constructor]. }
    now rewrite X1, X2, X3. }
  rewrite (plain_no_colon _ PP). unfold bind, re_replace, ret. cbn [fst matcher_of].
  f_equal.
  assert (Npre : ~ In "*"%char pre).
  { intros H. pose proof (fill_chars A HA _ LA) as CA.
    now destruct (literal_ok_chars _ _ CA H) as (_ & _ & X). }
  assert (Npost : ~ In "*"%char post).
  { intros H. apply (pattern_chars C _ HC) in H. discriminate. }
  rewrite replace_all_app.
  - rewrite (replace_all_match_free _ _ pre (splat_free pre Npre)).
    rewrite (splat_replace_token _ w post W P).
    now rewrite (replace_all_match_free _ _ post (splat_free post Npost)).
  - exact m_SPLAT_PARAMS_bound.
  - intros y u _ U. now apply m_SPLAT_PARAMS_stable.
Qed.

(** X25.  For a pattern [A*wC] with one splat, where [A] and [C] are made
    of named parameters and of literal text without parentheses, stars,
    colons and question marks, [C] has no parameter and begins with no
    word character, and an array that holds one value for each named
    parameter and one more for the splat, each with an encoded text that
    is not empty and holds no parenthesis and no star: the values fill the
    named parameters from left to right and the last one takes the place
    of the splat, component-encoded, so a slash in it is written [%2F].
    When the result does not end with a slash, [path] returns it, in
    every state, and [test] accepts it for the same pattern. *)
Theorem built_splat_path_accepted (A : list segment) (w : str) (C : list segment)
    (vsA : list value) (v : value) (st st' : regexps) :
  simple A = true -> simple C = true -> is_name w ->
  starts_nonword (pattern_of C) = true -> names C = [] ->
  length vsA = length (names A) ->
  Forall fits (vsA ++ [v]) ->
  let text := fill A (map injected vsA) ++ injected v ++ pattern_of C in
  (forall x, text <> x ++ "/") ->
  fst (parse (Some (splatted A w C)) (ArrayArgs (vsA ++ [v])) st) = Ok text
  /\ fst (test_url (splatted A w C) text st') = Ok true.
Proof.
  intros HA HC W P NC L F text N.
  assert (T : Forall tame (vsA ++ [v])).
  { apply Forall_forall. intros x H. rewrite Forall_forall in F.
    destruct (F x H) as (U & _ & X). now split. }
  pose proof (fits_capture _ F) as K. rewrite map_app in K.
  apply Forall_app in K. destruct K as [KA Kv].
  assert (CT : forall c, In c text -> literal_ok c = true).
  { intros c H. unfold text in H. apply in_app_or in H. destruct H as [H|H].
    - apply (fill_chars A HA (map injected vsA)); [|exact H].
      apply fits_literal. apply Forall_app in F. now destruct F.
    - apply in_app_or in H. destruct H as [H|H]; [|now apply (pattern_chars C _ HC)].
      assert (Iv : In v (vsA ++ [v])) by (apply in_or_app; right; now left).
      rewrite Forall_forall in T. destruct (T v Iv) as [_ X].
      rewrite forallb_forall in X. now apply X. }
  split.
  - assert (E : isEmpty (args_or_array (ArrayArgs (vsA ++ [v]))) = false)
      by (destruct vsA; reflexivity).
    rewrite (parse_nonempty (Some (splatted A w C)) (ArrayArgs (vsA ++ [v])) st E).
    cbn [string_or_empty args_or_array]. rewrite replaceArgs_shape.
    cbn [consumed after_names].
    pose proof (splat_filled A w C vsA v st HA HC W P NC L T) as S1. fold text in S1.
    destruct (fold_ok replaceArg (vsA ++ [v]) (splatted A w C) st) as [[p|e] st1];
      cbn [fst] in S1; [|discriminate].
    injection S1 as ->. rewrite cleanOptional_pruned.
    + now rewrite (cleaned_plain text CT N).
    + intros H. now destruct (literal_ok_chars text _ CT H) as (_ & _ & X).
  - apply (test_splatted_accepts A w C text st' HA HC W P).
    exists (map injected vsA), (injected v), [], [].
    split; [now rewrite length_map|]. split; [exact KA|]. split.
    + intros H. pose proof (injected_captured v) as X.
      rewrite forallb_forall in X. specialize (X _ H). discriminate.
    + split; [now rewrite NC|]. split; [constructor|]. split; [now left|].
      unfold text. now rewrite fill_nil, app_nil_r.
Qed.

Lemma built_splat_path_accepted_witness :
  simple (map Lit ("/u/" : str) ++ [Param "id"; Lit "/"]) = true
  /\ is_name "rest"
  /\ fst (parse (Some ("/u/:id/*rest" : str)) (ArrayArgs [VNumber 7; VString "a/b"])
            (mkRegexps 0 0 4 0 0))
     = Ok ("/u/7/a%2Fb" : str)
  /\ fst (test_url "/u/:id/*rest" "/u/7/a%2Fb" fresh) = Ok true.
Proof.
  assert (W : is_name "rest") by (split; [discriminate|reflexivity]).
  split; [reflexivity|]. split; [exact W|].
  refine (built_splat_path_accepted (map Lit ("/u/" : str) ++ [Param "id"; Lit "/"%char])
            "rest" [] [VNumber 7] (VString "a/b") (mkRegexps 0 0 4 0 0) fresh
            eq_refl eq_refl W eq_refl eq_refl eq_refl _ _).
  - constructor; [|constructor; [|constructor]];
      (split; [discriminate|split; [vm_compute; discriminate|reflexivity]]).
  - intros x E. change (("/u/7/a%2Fb" : str) = x ++ "/") in E.
    apply (f_equal (@rev ascii)) in E. rewrite rev_app_distr in E. discriminate.
Defined.
